(** * PageRank vertex program of PowerGraph (demoapps/pagerank/pagerank.cpp)

    A shallow embedding of the gather-apply-scatter vertex program, with
    the C++ arithmetic kept as it is written: [float] is IEEE-754 binary32,
    [double] is binary64, every operation rounds to nearest, ties to even,
    and each expression is evaluated in the type the usual arithmetic
    conversions of C++ give it (a float and a float add as floats, a float
    and a double as doubles; no extended intermediate precision).  The
    floating-point operations are the executable ones of [SpecFloat], on
    explicit sign, mantissa and exponent.

    The vertex program reads and writes the graph, its own per-vertex
    state and the signals of the engine; it is written in a small state
    monad over that world.  The graph store, the engine and the command
    line are [graphlab]'s and not part of the program's file: they are
    modelled as the specification describes them. *)

From Stdlib Require Import ZArith Bool Lia SpecFloat Ascii.
From stdpp Require Import base list gmap pretty.

Local Open Scope Z_scope.

(** ** Floating-point formats *)

Module IEEE.

(** A format is the pair (precision, exponent of the infinities). *)
Record format := Format { prec : Z; emax : Z }.

Definition binary32 : format := Format 24 128.
Definition binary64 : format := Format 53 1024.

Definition valid (f : format) (x : spec_float) : bool :=
  valid_binary (prec f) (emax f) x.

(** Conversion of a value to format [f]: the value is kept when it is
    representable and rounded otherwise. *)
Definition convert (f : format) (x : spec_float) : spec_float :=
  match x with
  | S754_finite s m e => binary_round (prec f) (emax f) s m e
  | _ => x
  end.

(** Conversion of an integer to format [f]. *)
Definition of_Z (f : format) (z : Z) : spec_float :=
  binary_normalize (prec f) (emax f) z 0 false.

Definition add (f : format) := SFadd (prec f) (emax f).
Definition sub (f : format) := SFsub (prec f) (emax f).
Definition mul (f : format) := SFmul (prec f) (emax f).
Definition div (f : format) := SFdiv (prec f) (emax f).

(** [x > y] and [x >= y] of C++, on two values of one format: false as
    soon as one side is a NaN. *)
Definition gt (x y : spec_float) : bool := SFltb y x.
Definition ge (x y : spec_float) : bool := SFleb y x.

End IEEE.

(** The two C++ types.  Both range over [spec_float]; which of them a
    value belongs to is the format it is valid in. *)
Definition float : Type := spec_float.
Definition double : Type := spec_float.

Definition float_to_double (x : float) : double := IEEE.convert IEEE.binary64 x.
Definition double_to_float (x : double) : float := IEEE.convert IEEE.binary32 x.

(** A decimal literal [num/den] of type double: the double nearest to the
    quotient of two integers that are doubles themselves. *)
Definition double_literal (num den : Z) : double :=
  IEEE.div IEEE.binary64 (IEEE.of_Z IEEE.binary64 num) (IEEE.of_Z IEEE.binary64 den).

(** [size_t] to [double], as in a division of a double by a [size_t]. *)
Definition size_t_to_double (n : nat) : double :=
  IEEE.of_Z IEEE.binary64 (Z.of_nat n).

(** [std::fabs] on doubles. *)
Definition fabs (x : double) : double := SFabs x.

Definition pzero : spec_float := S754_zero false.

#[global] Instance float_inhabited : Inhabited spec_float := populate pzero.

(** [x >= 0] for a value that is not a NaN, read off its sign. *)
Definition is_nonneg (x : spec_float) : bool :=
  match x with
  | S754_zero _ => true
  | S754_finite s _ _ => negb s
  | S754_infinity s => negb s
  | S754_nan => false
  end.

(** [x] is a positive finite number at most half a unit in its last place
    away from the fraction [num/den]. *)
Definition within_half_ulp (num den : Z) (x : spec_float) : Prop :=
  match x with
  | S754_finite false m e =>
      e <= 0 /\ 2 * Z.abs (Zpos m * den - num * 2 ^ (- e)) <= den
  | _ => False
  end.

(** ** The graph store *)

(** [typedef float vertex_data_type;]: the vertex data is the rank. *)
Definition vertex_data_type : Type := float.
Definition vertex_data_format : IEEE.format := IEEE.binary32.

Definition vertex_id_type : Type := nat.

(** An edge carries no data ([graphlab::empty]); [edge.source()] and
    [edge.target()] give its two ends. *)
Record edge_type := Edge { source : vertex_id_type; target : vertex_id_type }.

#[global] Instance edge_type_eq_dec : EqDecision edge_type.
Proof. solve_decision. Defined.

(** Modelled from the spec: [graphlab::distributed_graph] is not part of
    the sources.  The graph holds the data of every vertex it contains
    and a list of directed edges; the out-degree of a vertex is the
    number of edges it is the source of, and the in-edges (out-edges) of
    a vertex are the edges it is the target (source) of. *)
Record graph_type := Graph {
  vdata : gmap vertex_id_type vertex_data_type;
  edges : list edge_type
}.

(** Modelled from the spec: [vertex.num_out_edges()] of the graph store,
    the number of edges the vertex is the source of. *)
Definition num_out_edges (g : graph_type) (v : vertex_id_type) : nat :=
  length (filter (λ e, source e = v) (edges g)).

(** Modelled from the spec: the in-edges and the out-edges of a vertex,
    which the graph store gives the engine to iterate over. *)
Definition in_edges (g : graph_type) (v : vertex_id_type) : list edge_type :=
  filter (λ e, target e = v) (edges g).

Definition out_edges (g : graph_type) (v : vertex_id_type) : list edge_type :=
  filter (λ e, source e = v) (edges g).

(** Modelled from the spec: [graph.transform_vertices(f)] of the graph
    store, with [f] rewriting the data of every vertex in place. *)
Definition transform_vertices (f : vertex_data_type → vertex_data_type)
    (g : graph_type) : graph_type :=
  Graph (f <$> vdata g) (edges g).

(** [num_out_edges] returns a [size_t]. *)
Definition size_t_max : Z := 2 ^ 64 - 1.

(** ** The state the vertex program runs in *)

(** The state of one [pagerank] object: [double last_change;]. *)
Record pagerank := Pagerank { last_change : double }.
Definition last_change_format : IEEE.format := IEEE.binary64.

#[global] Instance pagerank_inhabited : Inhabited pagerank :=
  populate (Pagerank pzero).

(** The namespace-scope variables of the program: [float RESET_PROB]. *)
Record globals := Globals { RESET_PROB : float }.

(** [float RESET_PROB = 0.15;]: the double literal, narrowed to float. *)
Definition initial_globals : globals :=
  Globals (double_to_float (double_literal 15 100)).

(** Modelled from the spec: the engine keeps one vertex program object
    per vertex (the per-vertex [last_change]) and the set of vertices
    signalled so far in a round. *)
Record world := World {
  graph : graph_type;
  programs : gmap vertex_id_type pagerank;
  signalled : gset vertex_id_type
}.

(** A computation reads and writes the world. *)
Definition M (A : Type) : Type := world → A * world.

Definition ret {A} (a : A) : M A := λ w, (a, w).
Definition bind {A B} (m : M A) (k : A → M B) : M B :=
  λ w, let '(a, w') := m w in k a w'.

Notation "'let*' x := m 'in' k" := (bind m (λ x, k))
  (at level 10, x name, m at level 100, k at level 200).
Notation "'do' m 'then' k" := (bind m (λ _, k))
  (at level 10, m at level 100, k at level 200).

Definition result {A} (m : M A) (w : world) : A := fst (m w).
Definition effect {A} (m : M A) (w : world) : world := snd (m w).

(** Modelled from the spec: [vertex.data()] of a vertex handle of the
    graph store, read.  A handle names a vertex of the graph; for an id
    the graph does not hold, the read gives +0. *)
Definition data (v : vertex_id_type) : M vertex_data_type :=
  λ w, (vdata (graph w) !!! v, w).

(** Modelled from the spec: [vertex.data() = x] on a vertex handle, with
    [x] a double: the data is a float, so the store narrows it. *)
Definition set_data (v : vertex_id_type) (x : double) : M unit :=
  λ w, (tt, World (Graph (<[v := double_to_float x]> (vdata (graph w)))
                         (edges (graph w)))
                  (programs w) (signalled w)).

(** [vertex.num_out_edges()], read in the world. *)
Definition vertex_num_out_edges (v : vertex_id_type) : M nat :=
  λ w, (num_out_edges (graph w) v, w).

(** [last_change] of the program object of vertex [v] ([this] in the
    methods of [pagerank]), read and written.  Before the first write it
    reads as 0. *)
Definition get_last_change (v : vertex_id_type) : M double :=
  λ w, (last_change (programs w !!! v), w).

Definition set_last_change (v : vertex_id_type) (x : double) : M unit :=
  λ w, (tt, World (graph w) (<[v := Pagerank x]> (programs w)) (signalled w)).

(** Modelled from the spec: [context.signal(v)] marks [v] active for
    the next round; signalling a vertex twice is signalling it once. *)
Definition signal (v : vertex_id_type) : M unit :=
  λ w, (tt, World (graph w) (programs w) ({[ v ]} ∪ signalled w)).

(** ** The vertex program *)

Variant edge_dir_type := NO_EDGES | IN_EDGES | OUT_EDGES | ALL_EDGES.

(** [void init_vertex(graph_type::vertex_type& vertex) { vertex.data() = 1; }] *)
Definition init_vertex (d : vertex_data_type) : vertex_data_type :=
  IEEE.of_Z vertex_data_format 1.

(** The literal [1.0] and the threshold [1E-2], both doubles. *)
Definition one : double := double_literal 1 1.
Definition threshold : double := double_literal 1 100.

Section pagerank.

Context (G : globals).

(** [return ((1.0 - RESET_PROB) / edge.source().num_out_edges()) *
            edge.source().data();]
    The subtraction, the division and the product are on doubles; the
    return narrows to [float]. *)
Definition gather (vertex : vertex_id_type) (edge : edge_type) : M float :=
  let* n := vertex_num_out_edges (source edge) in
  let* d := data (source edge) in
  ret (double_to_float
         (IEEE.mul IEEE.binary64
            (IEEE.div IEEE.binary64
               (IEEE.sub IEEE.binary64 one (float_to_double (RESET_PROB G)))
               (size_t_to_double n))
            (float_to_double d))).

(** [double newval = total + RESET_PROB;]  (a sum of two floats, widened)
    [last_change = std::fabs(newval - vertex.data());]
    [vertex.data() = newval;] *)
Definition apply (vertex : vertex_id_type) (total : float) : M unit :=
  let newval : double :=
    float_to_double (IEEE.add IEEE.binary32 total (RESET_PROB G)) in
  let* old := data vertex in
  do set_last_change vertex
       (fabs (IEEE.sub IEEE.binary64 newval (float_to_double old)))
  then set_data vertex newval.

(** [if (last_change > 1E-2) return OUT_EDGES; else return NO_EDGES;] *)
Definition scatter_edges (vertex : vertex_id_type) : M edge_dir_type :=
  let* lc := get_last_change vertex in
  ret (if IEEE.gt lc threshold then OUT_EDGES else NO_EDGES).

(** [context.signal(edge.target());] *)
Definition scatter (vertex : vertex_id_type) (edge : edge_type) : M unit :=
  signal (target edge).

End pagerank.

(** [float extract_pagerank(graph_type::vertex_type f) { return f.data(); }] *)
Definition extract_pagerank (v : vertex_id_type) : M float := data v.

(** ** The synchronous engine *)

(** The engine ([graphlab::omni_engine], run as "synchronous") is not
    part of the sources; its rounds are modelled as the specification
    describes them. *)
Section engine.

Context (G : globals).

(** Modelled from the spec: the results of [gather] over the in-edges of
    a vertex are combined by a sum, here of floats, in the order of the
    edge list. *)
Fixpoint gather_edges (v : vertex_id_type) (es : list edge_type)
    (acc : float) : M float :=
  match es with
  | [] => ret acc
  | e :: es' =>
      let* x := gather G v e in
      gather_edges v es' (IEEE.add IEEE.binary32 acc x)
  end.

Definition gather_sum (v : vertex_id_type) : M float :=
  λ w, gather_edges v (in_edges (graph w) v) pzero w.

(** Modelled from the spec: the gather phase runs over every in-edge of
    every active vertex, on the ranks as they are at the start of the
    round; the apply phase then runs [apply] for every active vertex. *)
Fixpoint gather_phase (active : list vertex_id_type)
    : M (list (vertex_id_type * float)) :=
  match active with
  | [] => ret []
  | v :: vs =>
      let* t := gather_sum v in
      let* ts := gather_phase vs in
      ret ((v, t) :: ts)
  end.

Fixpoint apply_phase (totals : list (vertex_id_type * float)) : M unit :=
  match totals with
  | [] => ret tt
  | (v, t) :: ts => do apply G v t then apply_phase ts
  end.

(** Modelled from the spec: the scatter phase runs [scatter] over the
    edges that [scatter_edges] selects, for every active vertex. *)
Fixpoint scatter_over (v : vertex_id_type) (es : list edge_type) : M unit :=
  match es with
  | [] => ret tt
  | e :: es' => do scatter v e then scatter_over v es'
  end.

Definition selected_edges (dir : edge_dir_type) (v : vertex_id_type)
    : M (list edge_type) :=
  λ w, (match dir with
        | NO_EDGES => []
        | IN_EDGES => in_edges (graph w) v
        | OUT_EDGES => out_edges (graph w) v
        | ALL_EDGES => in_edges (graph w) v ++ out_edges (graph w) v
        end, w).

Definition scatter_vertex (v : vertex_id_type) : M unit :=
  let* dir := scatter_edges v in
  let* es := selected_edges dir v in
  scatter_over v es.

Fixpoint scatter_phase (active : list vertex_id_type) : M unit :=
  match active with
  | [] => ret tt
  | v :: vs => do scatter_vertex v then scatter_phase vs
  end.

Definition clear_signals : M unit :=
  λ w, (tt, World (graph w) (programs w) ∅).

Definition signalled_set : M (gset vertex_id_type) :=
  λ w, (signalled w, w).

(** Modelled from the spec: one round on the active set, gather for all,
    then apply for all, then scatter for all; the vertices signalled in
    the round are the next active set. *)
Definition round (active : gset vertex_id_type) : M (gset vertex_id_type) :=
  let vs := elements active in
  do clear_signals then
  let* totals := gather_phase vs in
  do apply_phase totals then
  do scatter_phase vs then
  signalled_set.

(** Modelled from the spec: [engine.start()] runs rounds until the
    active set is empty; the result is the number of [apply] calls, or
    [None] when the engine is still running after [fuel] rounds. *)
Fixpoint start (fuel : nat) (active : gset vertex_id_type) (updates : nat)
    : M (option nat) :=
  if decide (active = ∅) then ret (Some updates)
  else match fuel with
       | O => ret None
       | S fuel' =>
           let* next := round active in
           start fuel' next (updates + size active)%nat
       end.

End engine.

(** ** The driver *)

(** What [main] gets from outside: whether [clopts.parse(argc, argv)]
    succeeds, and the graph that loading and [graph.finalize()] produce. *)
Record environment := Environment {
  clopts_parse : bool;
  loaded_graph : graph_type
}.

Variant exit_status := EXIT_SUCCESS | EXIT_FAILURE.

(** How a run ends: the early return on a command line that does not
    parse, the normal return with [engine.num_updates()] and the final
    state, or an engine that has not stopped within the fuel. *)
Variant main_result :=
  | returned_at_parse (code : exit_status)
  | returned_at_end (code : exit_status) (update_count : nat) (w : world)
  | engine_running.

(** [main] up to [engine.signal_all()]: the early return with
    EXIT_FAILURE when the command line does not parse; otherwise the graph
    with every vertex initialized by [init_vertex], fresh vertex programs,
    and every vertex active. *)
Definition startup (env : environment)
    : exit_status + (world * gset vertex_id_type) :=
  if negb (clopts_parse env) then inl EXIT_FAILURE
  else
    let g := transform_vertices init_vertex (loaded_graph env) in
    inr (World g ∅ ∅, dom (vdata g)).

(** [main] from there: [engine.start()], then the return with
    EXIT_SUCCESS (the printed summary and the saved file are left out). *)
Definition main (G : globals) (env : environment) (fuel : nat) : main_result :=
  match startup env with
  | inl code => returned_at_parse code
  | inr (w, active) =>
      match start G fuel active 0%nat w with
      | (Some update_count, w') => returned_at_end EXIT_SUCCESS update_count w'
      | (None, _) => engine_running
      end
  end.

(** ** The end of [main]: the sum of the graph and the saved file *)

(** Modelled from the spec: [graph.map_reduce_vertices<float>(f)] sums
    [f] over the vertices.  Neither the order nor the association of the
    sum is fixed: a reduction is a tree with the vertices at its leaves,
    and a value-initialized float (+0) where a part holds no vertex. *)
Inductive reduction :=
  | reduce_none
  | reduce_vertex (v : vertex_id_type)
  | reduce_sum (l r : reduction).

(** The vertices a reduction sums over, in the order of its leaves. *)
Fixpoint reduced (t : reduction) : list vertex_id_type :=
  match t with
  | reduce_none => []
  | reduce_vertex v => [v]
  | reduce_sum l r => reduced l ++ reduced r
  end.

Fixpoint map_reduce_vertices (f : vertex_id_type → M float) (t : reduction)
    : M float :=
  match t with
  | reduce_none => ret pzero
  | reduce_vertex v => f v
  | reduce_sum l r =>
      let* x := map_reduce_vertices f l in
      let* y := map_reduce_vertices f r in
      ret (IEEE.add IEEE.binary32 x y)
  end.

(** [float sum_of_graph = graph.map_reduce_vertices<float>(extract_pagerank);] *)
Definition sum_of_graph (t : reduction) : M float :=
  map_reduce_vertices extract_pagerank t.

(** The characters ["\t"] and ["\n"]. *)
Definition tab : ascii := "009"%char.
Definition newline : ascii := "010"%char.

Section pagerank_writer.

(** [strm << x] for a float [x] is the formatting of the stream library,
    which is not part of the program: it is a parameter. *)
Context (put_float : float → string).

(** [strm << v.id() << "\t" << v.data() << "\n"; return strm.str();]
    The id is an unsigned integer, which the stream writes in decimal. *)
Definition save_vertex (v : vertex_id_type) : M string :=
  let* d := data v in
  ret (pretty v +:+ String tab (put_float d +:+ String newline EmptyString)).

(** [std::string save_edge(graph_type::edge_type e)]: the empty string. *)
Definition save_edge (e : edge_type) : M string := ret EmptyString.

(** Modelled from the spec: [graph.save(prefix, writer, gzip, save_vertex,
    save_edge)] writes what the writer returns for every vertex when
    [save_vertex] is set and for every edge when [save_edge] is set; what
    is written is kept as the list of these pieces. *)
Definition save (save_vertices save_edges : bool) : M (list string) :=
  λ w, ((if save_vertices
         then (λ v, result (save_vertex v) w)
                <$> elements (dom (vdata (graph w)))
         else [])
        ++ (if save_edges
            then (λ e, result (save_edge e) w) <$> edges (graph w)
            else []), w).

(** The end of [main]: when [saveprefix] is not empty,
    [graph.save(saveprefix, pagerank_writer(), false, true, false)], that
    is no gzip, the vertices, not the edges.  The result is what is
    written, or [None] when nothing is. *)
Definition main_save (saveprefix : string) (r : main_result)
    : option (list string) :=
  match r with
  | returned_at_end _ _ w =>
      if decide (saveprefix = EmptyString) then None
      else Some (result (save true false) w)
  | _ => None
  end.

End pagerank_writer.

(** ** Notions of the specification *)

(** The rank and the last change of a vertex in a world. *)
Definition rank (w : world) (v : vertex_id_type) : float := result (data v) w.
Definition last_change_of (w : world) (v : vertex_id_type) : double :=
  result (get_last_change v) w.

(** The out-degree of the specification: the number of edges the vertex
    is the source of. *)
Definition out_degree (g : graph_type) (v : vertex_id_type) : nat :=
  length (filter (λ e, source e = v) (edges g)).

(** [((1 - RESET_PROB) / out_degree) * rank] of the specification, on
    the out-degree and the rank of the source: the arithmetic is the
    double one and the value returned is a float. *)
Definition gather_formula (reset_prob : float) (out_deg : nat)
    (rank_of_source : float) : float :=
  let one_minus_reset : double :=
    IEEE.sub IEEE.binary64 one (float_to_double reset_prob) in
  let weight : double :=
    IEEE.div IEEE.binary64 one_minus_reset (size_t_to_double out_deg) in
  double_to_float (IEEE.mul IEEE.binary64 weight (float_to_double rank_of_source)).

(** [new_rank = gathered_sum + RESET_PROB] of the specification: a sum of
    two floats, held in a double. *)
Definition new_rank (reset_prob : float) (gathered_sum : float) : double :=
  float_to_double (IEEE.add IEEE.binary32 gathered_sum reset_prob).


(** A field that is a float64 keeps every double stored into it: read
    back (as a double), the value is the one stored. *)
Definition rank_keeps_doubles : Prop :=
  ∀ (w : world) (v : vertex_id_type) (x : double),
    IEEE.valid IEEE.binary64 x = true →
    float_to_double (rank (effect (set_data v x) w) v) = x.

Definition last_change_keeps_doubles : Prop :=
  ∀ (w : world) (v : vertex_id_type) (x : double),
    IEEE.valid IEEE.binary64 x = true →
    last_change_of (effect (set_last_change v x) w) v = x.

(** The 3-vertex directed cycle A→B→C→A, with A, B, C numbered 0, 1, 2,
    and the world the engine starts in on it. *)
Definition cycle3 : graph_type :=
  Graph (<[0%nat := pzero]> (<[1%nat := pzero]> (<[2%nat := pzero]> ∅)))
        [Edge 0%nat 1%nat; Edge 1%nat 2%nat; Edge 2%nat 0%nat].

Definition cycle3_world : world :=
  World (transform_vertices init_vertex cycle3) ∅ ∅.

(** ** Notions of the rounding proofs *)

(** What [binary_round_aux] returns, by the mantissa [m2] it has after
    rounding at the exponent [E] of the format: zero, the number itself,
    the next power of two when the mantissa has overflowed by one bit, or
    an infinity. *)
Definition round_finish (prec emax : Z) (s : bool) (m2 E : Z) : spec_float :=
  if m2 =? 0 then S754_zero s
  else if m2 <? 2 ^ prec then
    if E <=? emax - prec then S754_finite s (Z.to_pos m2) E
    else S754_infinity s
  else
    if E + 1 <=? emax - prec then S754_finite s (Z.to_pos (m2 / 2)) (E + 1)
    else S754_infinity s.

(** The rounded mantissa fits the format at exponent [E]. *)
Definition round_finish_ok (prec emax : Z) (m2 E : Z) : Prop :=
  emin prec emax <= E /\ 0 <= m2 <= 2 ^ prec /\
  (0 < m2 < 2 ^ prec -> Zdigits2 m2 = prec \/ E = emin prec emax).

(** No bit has been shifted out. *)
Definition shr_exact (mrs : shr_record) : Prop :=
  shr_r mrs = false /\ shr_s mrs = false.

(** A nonnegative number of the format that is at most the number
    [mr * 2^er]: +0, or a finite positive number with a smaller or equal
    value, at a smaller or equal exponent. *)
Definition at_most (prec emax : Z) (x : spec_float) (mr : positive) (er : Z)
    : Prop :=
  x = S754_zero false
  \/ exists m e, x = S754_finite false m e /\ bounded prec emax m e = true /\
                 e <= er /\ Zpos m <= Zpos mr * 2 ^ (er - e).

(** A string without a tab. *)
Fixpoint tab_free (s : string) : bool :=
  match s with
  | EmptyString => true
  | String c s' => negb (Ascii.eqb c tab) && tab_free s'
  end.

(** * Rounding to nearest, ties to even

    What the proofs of the claims need of [SpecFloat]: the number a
    rounding returns is of the format, has the sign of the number rounded,
    is the number itself when that is representable, and is not below a
    representable number that the exact value is not below.  A finite
    number is [m * 2^e]; its magnitude is the number of binary digits of
    [m] plus [e]. *)

(** ** Number of binary digits *)

(** The number of binary digits is one more than the binary logarithm. *)
Lemma digits2_pos_log2 (p : positive) :
  Zpos (digits2_pos p) = Z.log2 (Zpos p) + 1.
Proof.
  induction p as [p IH|p IH|]; cbn [digits2_pos]; try reflexivity.
  - rewrite Pos2Z.inj_succ, IH.
    rewrite (Pos2Z.inj_xI p), Z.log2_succ_double by lia. lia.
  - rewrite Pos2Z.inj_succ, IH.
    rewrite (Pos2Z.inj_xO p), Z.log2_double by lia. lia.
Qed.

Lemma Zdigits2_log2 (m : Z) : 0 < m -> Zdigits2 m = Z.log2 m + 1.
Proof. destruct m; try lia. intros _. apply digits2_pos_log2. Qed.

(** A positive [m] of [d] digits lies in [2^(d-1), 2^d). *)
Lemma Zdigits2_bounds (m : Z) :
  0 < m -> 2 ^ (Zdigits2 m - 1) <= m < 2 ^ Zdigits2 m.
Proof.
  intros H. rewrite Zdigits2_log2 by assumption.
  replace (Z.log2 m + 1 - 1) with (Z.log2 m) by lia.
  replace (Z.log2 m + 1) with (Z.succ (Z.log2 m)) by lia.
  apply Z.log2_spec; assumption.
Qed.

Lemma Zdigits2_unique (m d : Z) :
  2 ^ (d - 1) <= m < 2 ^ d -> 0 < d -> Zdigits2 m = d.
Proof.
  intros H Hd.
  assert (0 < m) by (pose proof (Z.pow_pos_nonneg 2 (d - 1)); lia).
  rewrite Zdigits2_log2 by assumption.
  rewrite (Z.log2_unique m (d - 1)); try lia.
  replace (Z.succ (d - 1)) with d by lia. lia.
Qed.

Lemma Zdigits2_pos (m : Z) : 0 < m -> 0 < Zdigits2 m.
Proof. intros H. rewrite Zdigits2_log2 by assumption. pose proof (Z.log2_nonneg m). lia. Qed.

Lemma Zdigits2_le (m k : Z) : 0 < m -> m < 2 ^ k -> Zdigits2 m <= k.
Proof.
  intros Hm H.
  destruct (Z_lt_le_dec k (Zdigits2 m)) as [Hlt|]; [|assumption].
  pose proof (Zdigits2_bounds m Hm) as [Hlo _].
  assert (0 <= k \/ k < 0) as [Hk|Hk] by lia.
  - assert (2 ^ k <= 2 ^ (Zdigits2 m - 1)) by (apply Z.pow_le_mono_r; lia). lia.
  - rewrite Z.pow_neg_r in H by assumption. lia.
Qed.

Lemma Zdigits2_ge (m k : Z) : 2 ^ (k - 1) <= m -> 0 < m -> k <= Zdigits2 m.
Proof.
  intros H Hm.
  destruct (Z_lt_le_dec (Zdigits2 m) k) as [Hlt|]; [|assumption].
  pose proof (Zdigits2_bounds m Hm) as [_ Hhi].
  pose proof (Zdigits2_pos m Hm).
  assert (2 ^ Zdigits2 m <= 2 ^ (k - 1)) by (apply Z.pow_le_mono_r; lia). lia.
Qed.

Lemma Zdigits2_pow2 (k : Z) : 0 <= k -> Zdigits2 (2 ^ k) = k + 1.
Proof.
  intros Hk. apply Zdigits2_unique; [|lia].
  replace (k + 1 - 1) with k by lia. split; [lia|].
  apply Z.pow_lt_mono_r; lia.
Qed.

(** Shifting to the left by [k] adds [k] digits; shifting to the right
    takes them away, down to none. *)
Lemma Zdigits2_mul_pow2 (m k : Z) :
  0 < m -> 0 <= k -> Zdigits2 (m * 2 ^ k) = Zdigits2 m + k.
Proof.
  intros Hm Hk. pose proof (Zdigits2_bounds m Hm) as [Hlo Hhi].
  pose proof (Zdigits2_pos m Hm).
  apply Zdigits2_unique; [|lia].
  replace (Zdigits2 m + k - 1) with (Zdigits2 m - 1 + k) by lia.
  rewrite !Z.pow_add_r by lia.
  assert (0 < 2 ^ k) by (apply Z.pow_pos_nonneg; lia).
  split; nia.
Qed.

Lemma Zdigits2_div_pow2 (m k : Z) :
  0 < m -> 0 <= k -> k < Zdigits2 m -> Zdigits2 (m / 2 ^ k) = Zdigits2 m - k.
Proof.
  intros Hm Hk Hlt. pose proof (Zdigits2_bounds m Hm) as [Hlo Hhi].
  assert (0 < 2 ^ k) by (apply Z.pow_pos_nonneg; lia).
  apply Zdigits2_unique; [|lia].
  split.
  - apply Z.div_le_lower_bound; [lia|].
    rewrite <- Z.pow_add_r by lia.
    replace (k + (Zdigits2 m - k - 1)) with (Zdigits2 m - 1) by lia. assumption.
  - apply Z.div_lt_upper_bound; [lia|].
    rewrite <- Z.pow_add_r by lia.
    replace (k + (Zdigits2 m - k)) with (Zdigits2 m) by lia. assumption.
Qed.

Lemma div_pow2_small (m k : Z) :
  0 < m -> Zdigits2 m <= k -> m / 2 ^ k = 0.
Proof.
  intros Hm Hk. pose proof (Zdigits2_bounds m Hm) as [_ Hhi].
  pose proof (Zdigits2_pos m Hm).
  apply Z.div_small. split; [lia|].
  assert (2 ^ Zdigits2 m <= 2 ^ k) by (apply Z.pow_le_mono_r; lia). lia.
Qed.

Lemma pow2_pos (k : Z) : 0 <= k -> 0 < 2 ^ k.
Proof. intros. apply Z.pow_pos_nonneg; lia. Qed.

Lemma Zdigits2_to_pos (m : Z) :
  0 < m -> Zpos (digits2_pos (Z.to_pos m)) = Zdigits2 m.
Proof. destruct m; try lia. reflexivity. Qed.

(** The successor has the same number of digits or one more. *)
Lemma Zdigits2_succ (m : Z) :
  0 < m -> Zdigits2 m <= Zdigits2 (m + 1) <= Zdigits2 m + 1.
Proof.
  intros Hm. pose proof (Zdigits2_bounds m Hm) as [Hlo Hhi].
  pose proof (Zdigits2_pos m Hm).
  split.
  - apply Zdigits2_ge; lia.
  - apply Zdigits2_le; [lia|].
    rewrite Z.pow_add_r by lia. change (2 ^ 1) with 2. lia.
Qed.

(** The digits of a quotient are the difference of the digits, or one more. *)
Lemma Zdigits2_div (a b : Z) :
  0 < a -> 0 < b -> Zdigits2 b < Zdigits2 a ->
  Zdigits2 a - Zdigits2 b <= Zdigits2 (a / b) <= Zdigits2 a - Zdigits2 b + 1.
Proof.
  intros Ha Hb Hd.
  pose proof (Zdigits2_bounds a Ha) as [Hal Hah].
  pose proof (Zdigits2_bounds b Hb) as [Hbl Hbh].
  pose proof (Zdigits2_pos b Hb) as Hdb.
  set (da := Zdigits2 a) in *. set (db := Zdigits2 b) in *.
  assert (Hq : 2 ^ (da - db - 1) <= a / b).
  { apply Z.div_le_lower_bound; [lia|].
    assert (Hs : 2 ^ (da - 1) = 2 ^ db * 2 ^ (da - db - 1)).
    { rewrite <- Z.pow_add_r by lia. f_equal. lia. }
    pose proof (pow2_pos (da - db - 1)). nia. }
  assert (Hq' : a / b < 2 ^ (da - db + 1)).
  { apply Z.div_lt_upper_bound; [lia|].
    assert (Hs : 2 ^ da = 2 ^ (db - 1) * 2 ^ (da - db + 1)).
    { rewrite <- Z.pow_add_r by lia. f_equal. lia. }
    pose proof (pow2_pos (da - db + 1)). nia. }
  assert (Hqpos : 0 < a / b) by (pose proof (pow2_pos (da - db - 1)); lia).
  split.
  - apply Zdigits2_ge; [|assumption]. exact Hq.
  - apply Zdigits2_le; assumption.
Qed.

(** ** Shifting to the right *)

(** One step to the right halves the mantissa; [n] steps divide it by [2^n]. *)
Lemma shr_1_m (mrs : shr_record) :
  0 <= shr_m mrs -> shr_m (shr_1 mrs) = shr_m mrs / 2.
Proof.
  destruct mrs as [m r s]; cbn [shr_m]. intros Hm.
  rewrite <- Z.div2_div.
  destruct m as [|p|p]; [reflexivity| |lia].
  destruct p; reflexivity.
Qed.

Lemma iter_shr_1_m (p : positive) : forall mrs,
  0 <= shr_m mrs ->
  shr_m (SpecFloat.iter_pos shr_1 p mrs) = shr_m mrs / 2 ^ Zpos p.
Proof.
  induction p as [p IH|p IH|]; intros mrs Hm; cbn [SpecFloat.iter_pos].
  - assert (H1 : 0 <= shr_m (shr_1 mrs)).
    { rewrite shr_1_m by assumption. apply Z.div_pos; lia. }
    assert (H2 : 0 <= shr_m (SpecFloat.iter_pos shr_1 p (shr_1 mrs))).
    { rewrite IH by assumption. apply Z.div_pos; [assumption|]. apply Z.pow_pos_nonneg; lia. }
    rewrite IH, IH, shr_1_m by assumption.
    rewrite !Z.div_div by (try apply Z.pow_pos_nonneg; lia).
    f_equal. rewrite (Pos2Z.inj_xI p).
    replace (2 * Z.pos p + 1) with (1 + Z.pos p + Z.pos p) by lia.
    rewrite !Z.pow_add_r by lia. change (2 ^ 1) with 2. ring.
  - assert (H2 : 0 <= shr_m (SpecFloat.iter_pos shr_1 p mrs)).
    { rewrite IH by assumption. apply Z.div_pos; [assumption|]. apply Z.pow_pos_nonneg; lia. }
    rewrite IH, IH by assumption.
    rewrite !Z.div_div by (try apply Z.pow_pos_nonneg; lia).
    f_equal. rewrite (Pos2Z.inj_xO p).
    replace (2 * Z.pos p) with (Z.pos p + Z.pos p) by lia.
    rewrite Z.pow_add_r by lia. reflexivity.
  - rewrite shr_1_m by assumption. reflexivity.
Qed.

(** Steps to the right that drop zero bits only record nothing. *)
Lemma shr_1_exact (mrs : shr_record) (k : Z) :
  shr_exact mrs -> 0 <= k -> shr_m mrs = 2 * k -> shr_exact (shr_1 mrs).
Proof.
  destruct mrs as [m r s]; unfold shr_exact; cbn [shr_m shr_r shr_s].
  intros [-> ->] Hk ->.
  destruct k as [|k|k]; [split; reflexivity|split; reflexivity|lia].
Qed.

Lemma iter_shr_1_exact (p : positive) : forall mrs k,
  shr_exact mrs -> 0 <= k -> shr_m mrs = k * 2 ^ Zpos p ->
  shr_exact (SpecFloat.iter_pos shr_1 p mrs).
Proof.
  induction p as [p IH|p IH|]; intros mrs k Hex Hk Hm; cbn [SpecFloat.iter_pos].
  - assert (Hp : 0 < 2 ^ Z.pos p) by (apply Z.pow_pos_nonneg; lia).
    assert (Hm' : shr_m mrs = 2 * (k * 2 ^ Z.pos p * 2 ^ Z.pos p)).
    { rewrite Hm, (Pos2Z.inj_xI p).
      replace (2 * Z.pos p + 1) with (1 + Z.pos p + Z.pos p) by lia.
      rewrite !Z.pow_add_r by lia. change (2 ^ 1) with 2. ring. }
    assert (H1 : shr_exact (shr_1 mrs)).
    { apply (shr_1_exact mrs (k * 2 ^ Z.pos p * 2 ^ Z.pos p)); [assumption|nia|assumption]. }
    assert (H1m : shr_m (shr_1 mrs) = (k * 2 ^ Z.pos p) * 2 ^ Z.pos p).
    { rewrite shr_1_m by lia. rewrite Hm'.
      rewrite Z.mul_comm, Z.div_mul by lia. reflexivity. }
    assert (H2 : shr_exact (SpecFloat.iter_pos shr_1 p (shr_1 mrs))).
    { apply (IH _ (k * 2 ^ Z.pos p)); [assumption|nia|assumption]. }
    apply (IH _ k); [assumption|assumption|].
    rewrite iter_shr_1_m by nia. rewrite H1m. apply Z.div_mul. lia.
  - assert (Hp : 0 < 2 ^ Z.pos p) by (apply Z.pow_pos_nonneg; lia).
    assert (Hm' : shr_m mrs = (k * 2 ^ Z.pos p) * 2 ^ Z.pos p).
    { rewrite Hm, (Pos2Z.inj_xO p).
      replace (2 * Z.pos p) with (Z.pos p + Z.pos p) by lia.
      rewrite !Z.pow_add_r by lia. ring. }
    assert (H2 : shr_exact (SpecFloat.iter_pos shr_1 p mrs)).
    { apply (IH _ (k * 2 ^ Z.pos p)); [assumption|nia|assumption]. }
    apply (IH _ k); [assumption|assumption|].
    rewrite iter_shr_1_m by nia. rewrite Hm'. apply Z.div_mul. lia.
  - apply (shr_1_exact mrs k); [assumption|assumption|].
    rewrite Hm. change (2 ^ 1) with 2. ring.
Qed.

Lemma shr_record_of_loc_m (m : Z) (l : location) :
  shr_m (shr_record_of_loc m l) = m.
Proof. destruct l as [|[]]; reflexivity. Qed.

Lemma shr_fst_m (mrs : shr_record) (e n : Z) :
  0 <= shr_m mrs -> 0 <= n -> shr_m (fst (shr mrs e n)) = shr_m mrs / 2 ^ n.
Proof.
  intros Hm Hn. destruct n as [|p|p]; cbn [shr fst]; [|apply iter_shr_1_m; assumption|lia].
  rewrite Z.pow_0_r, Z.div_1_r. reflexivity.
Qed.

Lemma shr_snd (mrs : shr_record) (e n : Z) :
  0 <= n -> snd (shr mrs e n) = e + n.
Proof. intros Hn. destruct n as [|p|p]; cbn [shr snd]; lia. Qed.

Lemma shr_fst_exact (mrs : shr_record) (e n k : Z) :
  shr_exact mrs -> 0 <= k -> 0 <= n -> shr_m mrs = k * 2 ^ n ->
  shr_exact (fst (shr mrs e n)).
Proof.
  intros Hex Hk Hn Hm. destruct n as [|p|p]; cbn [shr fst]; [assumption| |lia].
  apply (iter_shr_1_exact p mrs k); assumption.
Qed.

(** Rounding keeps the truncated mantissa or takes its successor; it keeps
    it when nothing was dropped. *)
Lemma round_nearest_even_cases (m : Z) (l : location) :
  round_nearest_even m l = m \/ round_nearest_even m l = m + 1.
Proof.
  destruct l as [|[]]; cbn [round_nearest_even]; auto.
  destruct (Z.even m); auto.
Qed.

Lemma round_nearest_even_exact (mrs : shr_record) :
  shr_exact mrs -> round_nearest_even (shr_m mrs) (loc_of_shr_record mrs) = shr_m mrs.
Proof. destruct mrs as [m r s]. intros [Hr Hs]; cbn in *. subst. reflexivity. Qed.

(** ** Shifting to the left *)

(** [shl_align] brings a number to the lower of two exponents. *)
Lemma Pos_iter_xO (m d : positive) :
  Zpos (Pos.iter xO m d) = Zpos m * 2 ^ Zpos d.
Proof.
  induction d as [|d IH] using Pos.peano_ind.
  - cbn. lia.
  - rewrite Pos.iter_succ, Pos2Z.inj_xO, IH, Pos2Z.inj_succ.
    rewrite Z.pow_succ_r by lia. ring.
Qed.

Lemma shl_align_spec (m : positive) (e e' : Z) :
  Zpos (fst (shl_align m e e')) = Zpos m * 2 ^ (e - Z.min e e') /\
  snd (shl_align m e e') = Z.min e e'.
Proof.
  unfold shl_align. destruct (e' - e) as [|p|p] eqn:Ed; cbn [fst snd].
  - replace (Z.min e e') with e by lia. rewrite Z.sub_diag. split; lia.
  - replace (Z.min e e') with e by lia. rewrite Z.sub_diag. split; lia.
  - replace (Z.min e e') with e' by lia.
    rewrite Pos_iter_xO. replace (e - e') with (Zpos p) by lia. split; reflexivity.
Qed.

(** ** The sign test *)

(** [0 <= x] of [SpecFloat] is the sign test. *)
Lemma is_nonneg_leb (x : spec_float) :
  SFleb (S754_zero false) x = is_nonneg x.
Proof. destruct x as [s|s| |s m e]; try destruct s; reflexivity. Qed.

(** ** Rounding in a format *)

Section Rounding.

Variables prec emax : Z.
Hypothesis Hprec : 0 < prec.
Hypothesis Hemax : prec < emax.

Set Default Proof Using "Hprec Hemax".

Local Abbreviation fexp := (fexp prec emax).
Local Abbreviation emin := (emin prec emax).
Local Abbreviation finish := (round_finish prec emax).
Local Abbreviation finish_ok := (round_finish_ok prec emax).

Lemma fexp_eq (e : Z) : fexp e = Z.max (e - prec) emin.
Proof. reflexivity. Qed.

Lemma fexp_ge_emin (e : Z) : emin <= fexp e.
Proof. rewrite fexp_eq. lia. Qed.

Lemma fexp_mono (a b : Z) : a <= b -> fexp a <= fexp b.
Proof. rewrite !fexp_eq. lia. Qed.

Lemma pow2_prec_split : 2 ^ prec = 2 * 2 ^ (prec - 1).
Proof.
  replace prec with (1 + (prec - 1)) at 1 by lia.
  rewrite Z.pow_add_r by lia. reflexivity.
Qed.

Lemma pow2_prec_half : 2 ^ prec / 2 = 2 ^ (prec - 1).
Proof. rewrite pow2_prec_split, Z.mul_comm, Z.div_mul by lia. reflexivity. Qed.

(** The second shift of [binary_round_aux], on a mantissa that fits. *)
Lemma second_step (sx : bool) (m2 E : Z) :
  finish_ok m2 E ->
  (let '(mrs'', e'') := shr_fexp prec emax m2 E loc_Exact in
   match shr_m mrs'' with
   | Z0 => S754_zero sx
   | Zpos m => if Z.leb e'' (Z.sub emax prec) then S754_finite sx m e''
               else S754_infinity sx
   | _ => S754_nan
   end) = finish sx m2 E.
Proof.
  intros (HE & [Hlo Hhi] & Hcan).
  unfold shr_fexp, finish.
  destruct (Z.eqb_spec m2 0) as [->|Hnz].
  - cbn [Zdigits2]. rewrite Z.add_0_l.
    assert (Hn : fexp E - E <= 0) by (rewrite fexp_eq; lia).
    destruct (fexp E - E) as [|p|p] eqn:En; cbn [shr shr_record_of_loc shr_m]; [reflexivity|lia|reflexivity].
  - destruct (Z.ltb_spec m2 (2 ^ prec)) as [Hlt|Hge].
    + assert (Hm2 : 0 < m2) by lia.
      assert (Hd : Zdigits2 m2 <= prec) by (apply Zdigits2_le; lia).
      assert (Hn : fexp (Zdigits2 m2 + E) - E = 0).
      { rewrite fexp_eq. destruct (Hcan (conj Hm2 Hlt)) as [Hd'|HE']; lia. }
      rewrite Hn. cbn [shr shr_record_of_loc shr_m].
      destruct m2 as [|p|p]; [lia| |lia]. reflexivity.
    + assert (Hm2 : m2 = 2 ^ prec) by lia. subst m2.
      assert (Hn : fexp (Zdigits2 (2 ^ prec) + E) - E = 1).
      { rewrite fexp_eq, Zdigits2_pow2 by lia. lia. }
      rewrite Hn. cbn [shr SpecFloat.iter_pos].
      rewrite shr_1_m by (cbn [shr_record_of_loc shr_m]; lia).
      cbn [shr_record_of_loc shr_m].
      pose proof (pow2_pos (prec - 1)) as Hp. rewrite pow2_prec_half in *.
      destruct (2 ^ (prec - 1)) as [|q|q]; [lia| |lia].
      reflexivity.
Qed.

(** The mantissa after the first shift. *)
Lemma first_step (mx ex : Z) :
  0 < mx -> ex <= fexp (Zdigits2 mx + ex) ->
  let E := fexp (Zdigits2 mx + ex) in
  let m1 := mx / 2 ^ (E - ex) in
  0 <= m1 < 2 ^ prec /\ (E <> emin -> 2 ^ (prec - 1) <= m1).
Proof.
  intros Hmx Hex E m1. subst m1.
  pose proof (Zdigits2_pos mx Hmx) as Hd.
  assert (Hn : 0 <= E - ex) by (subst E; lia).
  pose proof (pow2_pos (E - ex) Hn) as Hp.
  assert (HE : Zdigits2 mx + ex - prec <= E) by (subst E; rewrite fexp_eq; lia).
  split; [split|].
  - apply Z.div_pos; lia.
  - destruct (Z_lt_le_dec (E - ex) (Zdigits2 mx)) as [Hlt|Hge].
    + pose proof (Zdigits2_div_pow2 mx (E - ex) Hmx Hn Hlt) as Hdd.
      assert (Hq : 0 < mx / 2 ^ (E - ex)).
      { apply Z.div_str_pos. split; [lia|].
        pose proof (Zdigits2_bounds mx Hmx) as [Hlo _].
        assert (2 ^ (E - ex) <= 2 ^ (Zdigits2 mx - 1)) by (apply Z.pow_le_mono_r; lia).
        lia. }
      pose proof (Zdigits2_bounds _ Hq) as [_ Hhi].
      assert (2 ^ Zdigits2 (mx / 2 ^ (E - ex)) <= 2 ^ prec) by (apply Z.pow_le_mono_r; lia).
      lia.
    + rewrite div_pow2_small by lia. apply pow2_pos; lia.
  - intros Hne.
    assert (HE' : E = Zdigits2 mx + ex - prec) by (subst E; rewrite fexp_eq in *; lia).
    apply Z.div_le_lower_bound; [lia|].
    rewrite <- Z.pow_add_r by lia.
    replace (E - ex + (prec - 1)) with (Zdigits2 mx - 1) by lia.
    apply Zdigits2_bounds; assumption.
Qed.

(** After rounding, it fits the format. *)
Lemma round_finish_ok_intro (mx ex m2 : Z) :
  0 < mx -> ex <= fexp (Zdigits2 mx + ex) ->
  let E := fexp (Zdigits2 mx + ex) in
  let m1 := mx / 2 ^ (E - ex) in
  m2 = m1 \/ m2 = m1 + 1 ->
  finish_ok m2 E.
Proof.
  intros Hmx Hex E m1 Hm2.
  destruct (first_step mx ex Hmx Hex) as [[Hlo Hhi] Hnorm].
  fold E in Hlo, Hhi, Hnorm. fold m1 in Hlo, Hhi, Hnorm.
  split; [apply fexp_ge_emin|]. split; [lia|].
  intros [Hpos Hlt].
  destruct (Z.eq_dec E emin) as [|Hne]; [right; assumption|left].
  specialize (Hnorm Hne).
  apply Zdigits2_unique; lia.
Qed.

(** [binary_round_aux], on a mantissa that needs no shift to the left, is
    [round_finish] on the truncated mantissa, rounded by [round_nearest_even]. *)
Theorem binary_round_aux_eq (sx : bool) (mx ex : Z) (lx : location) :
  0 < mx -> ex <= fexp (Zdigits2 mx + ex) ->
  let E := fexp (Zdigits2 mx + ex) in
  let mrs := fst (shr (shr_record_of_loc mx lx) ex (E - ex)) in
  shr_m mrs = mx / 2 ^ (E - ex) /\
  binary_round_aux prec emax sx mx ex lx =
    finish sx (round_nearest_even (shr_m mrs) (loc_of_shr_record mrs)) E.
Proof.
  intros Hmx Hex E mrs.
  assert (Hn : 0 <= E - ex) by (subst E; lia).
  assert (Hm : shr_m mrs = mx / 2 ^ (E - ex)).
  { subst mrs. rewrite shr_fst_m; rewrite ?shr_record_of_loc_m; lia. }
  split; [assumption|].
  unfold binary_round_aux, shr_fexp at 1. fold E.
  rewrite (surjective_pairing (shr (shr_record_of_loc mx lx) ex (E - ex))).
  fold mrs. rewrite shr_snd by assumption.
  replace (ex + (E - ex)) with E by lia.
  apply second_step.
  apply (round_finish_ok_intro mx ex); try assumption.
  fold E. rewrite <- Hm. apply round_nearest_even_cases.
Qed.

Lemma emin_eq : emin = 3 - emax - prec.
Proof. reflexivity. Qed.

(** A mantissa and an exponent are of the format when the exponent is the
    one the format gives to the magnitude and the number is below the
    infinities: the mantissa has full precision, or the exponent is the
    least one. *)
Lemma bounded_spec (m : positive) (e : Z) :
  bounded prec emax m e = true <->
  fexp (Zpos (digits2_pos m) + e) = e /\ e <= emax - prec.
Proof.
  unfold bounded, canonical_mantissa.
  rewrite andb_true_iff, Z.eqb_eq, Z.leb_le. reflexivity.
Qed.

Lemma bounded_digits (m : positive) (e : Z) :
  bounded prec emax m e = true ->
  emin <= e /\ Zpos (digits2_pos m) <= prec /\
  (Zpos (digits2_pos m) = prec \/ e = emin).
Proof.
  rewrite bounded_spec, fexp_eq. intros [H _]. lia.
Qed.

(** What rounding returns is of the format, and has the sign it was given. *)
Lemma round_finish_valid (s : bool) (m2 E : Z) :
  finish_ok m2 E -> valid_binary prec emax (finish s m2 E) = true.
Proof.
  intros (HE & [Hlo Hhi] & Hcan). unfold round_finish.
  destruct (Z.eqb_spec m2 0) as [|Hnz]; [reflexivity|].
  destruct (Z.ltb_spec m2 (2 ^ prec)) as [Hlt|Hge].
  - destruct (Z.leb_spec E (emax - prec)) as [Hle|]; [|reflexivity].
    cbn [valid_binary]. apply bounded_spec. split; [|assumption].
    rewrite Zdigits2_to_pos by lia.
    assert (Zdigits2 m2 <= prec) by (apply Zdigits2_le; lia).
    rewrite fexp_eq. destruct Hcan as [Hd|He]; lia.
  - destruct (Z.leb_spec (E + 1) (emax - prec)) as [Hle|]; [|reflexivity].
    cbn [valid_binary]. apply bounded_spec. split; [|assumption].
    assert (Hm2 : m2 = 2 ^ prec) by lia. subst m2.
    pose proof (pow2_pos (prec - 1)) as Hp.
    rewrite pow2_prec_half, Zdigits2_to_pos, Zdigits2_pow2, fexp_eq by lia. lia.
Qed.

Lemma round_finish_sign (s : bool) (m2 E : Z) :
  finish s m2 E = S754_zero s \/
  (exists m e, finish s m2 E = S754_finite s m e) \/
  finish s m2 E = S754_infinity s.
Proof.
  unfold round_finish.
  destruct (m2 =? 0); [auto|].
  destruct (m2 <? 2 ^ prec).
  - destruct (E <=? emax - prec); eauto.
  - destruct (E + 1 <=? emax - prec); eauto.
Qed.

(** With a positive mantissa below the largest exponent, rounding returns
    a finite number of the same magnitude. *)
Lemma round_finish_finite (s : bool) (m2 E : Z) :
  finish_ok m2 E -> 0 < m2 -> E < emax - prec ->
  exists m e, finish s m2 E = S754_finite s m e /\
              bounded prec emax m e = true /\
              Zpos (digits2_pos m) + e = Zdigits2 m2 + E.
Proof.
  intros Hok Hm2 HE. pose proof (round_finish_valid s m2 E Hok) as Hv.
  destruct Hok as (HE' & [Hlo Hhi] & Hcan). unfold round_finish in *.
  destruct (Z.eqb_spec m2 0) as [|Hnz]; [lia|].
  destruct (Z.ltb_spec m2 (2 ^ prec)) as [Hlt|Hge].
  - destruct (Z.leb_spec E (emax - prec)) as [Hle|]; [|lia].
    exists (Z.to_pos m2), E. split; [reflexivity|]. split; [exact Hv|].
    rewrite Zdigits2_to_pos by lia. reflexivity.
  - destruct (Z.leb_spec (E + 1) (emax - prec)) as [Hle|]; [|lia].
    exists (Z.to_pos (m2 / 2)), (E + 1). split; [reflexivity|]. split; [exact Hv|].
    assert (Hm2' : m2 = 2 ^ prec) by lia. subst m2.
    pose proof (pow2_pos (prec - 1)) as Hp.
    rewrite pow2_prec_half, Zdigits2_to_pos, !Zdigits2_pow2 by lia. lia.
Qed.

(** A representable number below the exact value stays below the
    rounded one. *)
Lemma round_finish_ge (mr : positive) (er m2 E : Z) :
  bounded prec emax mr er = true -> finish_ok m2 E ->
  (E <= er /\ Zpos mr * 2 ^ (er - E) <= m2) \/ (er < E /\ 0 < m2) ->
  SFleb (S754_finite false mr er) (finish false m2 E) = true.
Proof.
  intros Hb (HE & [Hlo Hhi] & Hcan) Hle.
  destruct (bounded_digits mr er Hb) as (Her & Hdr & Hcr).
  pose proof (Zdigits2_bounds (Zpos mr) eq_refl) as [Hmr _].
  cbn [Zdigits2] in Hmr.
  assert (Hm2 : 0 < m2).
  { destruct Hle as [[H1 H2]|[_ H]]; [|assumption].
    pose proof (pow2_pos (er - E)). nia. }
  unfold round_finish.
  destruct (Z.eqb_spec m2 0) as [|_]; [lia|].
  (* a mantissa that is shifted by at least one bit is not normal *)
  assert (Hshift : forall j, 1 <= j -> Zpos mr * 2 ^ j <= 2 ^ prec ->
                   Zpos mr * 2 ^ j < 2 ^ prec \/ j >= 2 -> er = emin).
  { intros j Hj Hb2 Hstrict. destruct Hcr as [Hd|]; [exfalso|assumption].
    rewrite Hd in Hmr.
    assert (2 ^ 1 <= 2 ^ j) by (apply Z.pow_le_mono_r; lia).
    change (2 ^ 1) with 2 in *.
    rewrite pow2_prec_split in Hb2, Hstrict.
    destruct Hstrict as [Hs|Hs]; [nia|].
    assert (2 ^ 2 <= 2 ^ j) by (apply Z.pow_le_mono_r; lia).
    change (2 ^ 2) with 4 in *. nia. }
  destruct (Z.ltb_spec m2 (2 ^ prec)) as [Hlt|Hge].
  - destruct (Z.leb_spec E (emax - prec)) as [HleE|]; [|reflexivity].
    unfold SFleb, SFcompare.
    destruct (Z.compare_spec er E) as [Heq|Hlt'|Hgt]; [|reflexivity|].
    + destruct Hle as [[_ H]|[H _]]; [|lia].
      replace (er - E) with 0 in H by lia. rewrite Z.pow_0_r, Z.mul_1_r in H.
      change (Pos.compare_cont Eq mr (Z.to_pos m2)) with (mr ?= Z.to_pos m2)%positive.
      destruct (Pos.compare_spec mr (Z.to_pos m2)) as [| |Hc]; try reflexivity.
      exfalso. apply Pos2Z.pos_lt_pos in Hc. rewrite Z2Pos.id in Hc by lia. lia.
    + exfalso. destruct Hle as [[_ H]|[H _]]; [|lia].
      assert (er = emin) by (apply (Hshift (er - E)); lia). lia.
  - assert (Hm2' : m2 = 2 ^ prec) by lia.
    destruct (Z.leb_spec (E + 1) (emax - prec)) as [HleE|]; [|reflexivity].
    pose proof (pow2_pos (prec - 1)) as Hp.
    rewrite Hm2', pow2_prec_half.
    unfold SFleb, SFcompare.
    destruct (Z.compare_spec er (E + 1)) as [Heq|Hlt'|Hgt]; [|reflexivity|].
    + destruct Hle as [[_ H]|[H _]]; [|lia].
      replace (er - E) with 1 in H by lia. change (2 ^ 1) with 2 in H.
      change (Pos.compare_cont Eq mr (Z.to_pos (2 ^ (prec - 1))))
        with (mr ?= Z.to_pos (2 ^ (prec - 1)))%positive.
      destruct (Pos.compare_spec mr (Z.to_pos (2 ^ (prec - 1)))) as [| |Hc];
        try reflexivity.
      exfalso. apply Pos2Z.pos_lt_pos in Hc. rewrite Z2Pos.id in Hc by lia.
      rewrite pow2_prec_split in Hm2'. lia.
    + exfalso. destruct Hle as [[_ H]|[H _]]; [|lia].
      assert (er = emin) by (apply (Hshift (er - E)); lia). lia.
Qed.

(** [binary_round] is [round_finish] on a mantissa [m2] at the exponent
    [E] of the format: [m2] is the exact mantissa when the number needs
    no shift to the right or is a multiple of the shift, and otherwise
    the truncated mantissa or its successor. *)
Theorem binary_round_eq (s : bool) (m : positive) (e : Z) :
  let E := fexp (Zpos (digits2_pos m) + e) in
  exists m2,
    binary_round prec emax s m e = finish s m2 E /\ finish_ok m2 E /\
    (E <= e -> m2 = Zpos m * 2 ^ (e - E)) /\
    (e <= E -> Zpos m / 2 ^ (E - e) <= m2 <= Zpos m / 2 ^ (E - e) + 1) /\
    (e <= E -> forall k, 0 <= k -> Zpos m = k * 2 ^ (E - e) -> m2 = k).
Proof.
  intros E. unfold binary_round. fold E.
  destruct (shl_align_spec m e E) as [Hmz Hez].
  destruct (shl_align m e E) as [mz ez]. cbn [fst snd] in Hmz, Hez.
  rewrite <- Hez in Hmz.
  assert (Hsh : 0 <= e - ez) by lia.
  assert (Hdz : Zdigits2 (Zpos mz) + ez = Zpos (digits2_pos m) + e).
  { rewrite Hmz, Zdigits2_mul_pow2 by lia. cbn [Zdigits2]. lia. }
  assert (Hpre : ez <= fexp (Zdigits2 (Zpos mz) + ez)).
  { rewrite Hdz. fold E. lia. }
  destruct (binary_round_aux_eq s (Zpos mz) ez loc_Exact eq_refl Hpre)
    as [Hm1 Heq].
  rewrite Hdz in Hm1, Heq. fold E in Hm1, Heq.
  set (mrs := fst (shr (shr_record_of_loc (Zpos mz) loc_Exact) ez (E - ez))) in *.
  exists (round_nearest_even (shr_m mrs) (loc_of_shr_record mrs)).
  split; [exact Heq|]. split.
  { replace E with (fexp (Zdigits2 (Zpos mz) + ez)) by (rewrite Hdz; reflexivity).
    apply (round_finish_ok_intro (Zpos mz) ez); [reflexivity|assumption|].
    rewrite Hdz. fold E. rewrite <- Hm1. apply round_nearest_even_cases. }
  assert (Hexact : forall k, 0 <= k -> Zpos mz = k * 2 ^ (E - ez) ->
                   round_nearest_even (shr_m mrs) (loc_of_shr_record mrs) = k).
  { intros k Hk Hmk.
    assert (Hex : shr_exact mrs).
    { apply (shr_fst_exact _ ez (E - ez) k); [split; reflexivity|assumption|lia|].
      cbn [shr_record_of_loc shr_m]. exact Hmk. }
    rewrite round_nearest_even_exact by assumption.
    rewrite Hm1, Hmk. apply Z.div_mul.
    pose proof (pow2_pos (E - ez)). lia. }
  split; [|split].
  - intros HEe. replace ez with E in * by lia.
    apply Hexact; [|rewrite Z.sub_diag, Z.pow_0_r; lia].
    pose proof (pow2_pos (e - E)). nia.
  - intros HeE. replace ez with e in * by lia.
    rewrite Z.sub_diag, Z.pow_0_r, Z.mul_1_r in Hmz. rewrite <- Hmz, <- Hm1.
    pose proof (round_nearest_even_cases (shr_m mrs) (loc_of_shr_record mrs)). lia.
  - intros HeE k Hk Hmk. replace ez with e in * by lia.
    rewrite Z.sub_diag, Z.pow_0_r, Z.mul_1_r in Hmz.
    apply Hexact; [assumption|]. rewrite Hmz. exact Hmk.
Qed.

Lemma binary_round_valid (s : bool) (m : positive) (e : Z) :
  valid_binary prec emax (binary_round prec emax s m e) = true.
Proof.
  destruct (binary_round_eq s m e) as (m2 & -> & Hok & _).
  apply round_finish_valid; assumption.
Qed.

Lemma binary_round_sign (s : bool) (m : positive) (e : Z) :
  binary_round prec emax s m e = S754_zero s \/
  (exists m' e', binary_round prec emax s m e = S754_finite s m' e') \/
  binary_round prec emax s m e = S754_infinity s.
Proof.
  destruct (binary_round_eq s m e) as (m2 & -> & _).
  apply round_finish_sign.
Qed.

Lemma binary_normalize_valid (z e : Z) (s : bool) :
  valid_binary prec emax (binary_normalize prec emax z e s) = true.
Proof. destruct z; cbn [binary_normalize]; [reflexivity| |]; apply binary_round_valid. Qed.

(** Rounding does not go below a representable number that the exact
    value is not below. *)
Theorem binary_round_ge (mr : positive) (er : Z) (m : positive) (e : Z) :
  bounded prec emax mr er = true ->
  Zpos mr * 2 ^ (er - Z.min er e) <= Zpos m * 2 ^ (e - Z.min er e) ->
  SFleb (S754_finite false mr er) (binary_round prec emax false m e) = true.
Proof.
  intros Hb Hle.
  destruct (binary_round_eq false m e) as (m2 & -> & Hok & Hup & Hdown & _).
  set (E := fexp (Zpos (digits2_pos m) + e)) in *.
  apply round_finish_ge; [assumption|assumption|].
  destruct (bounded_digits mr er Hb) as (Her & _).
  destruct (Z_le_gt_dec E er) as [HEr|HEr]; [left; split; [assumption|]|right; split; [lia|]].
  - destruct (Z_le_gt_dec E e) as [HEe|HEe].
    + rewrite (Hup HEe).
      assert (Hk : 0 <= Z.min er e - E) by lia.
      pose proof (pow2_pos (Z.min er e - E) Hk) as Hp.
      replace (er - E) with ((er - Z.min er e) + (Z.min er e - E)) by lia.
      replace (e - E) with ((e - Z.min er e) + (Z.min er e - E)) by lia.
      rewrite !Z.pow_add_r by lia. nia.
    + specialize (Hdown ltac:(lia)). destruct Hdown as [Hd _].
      replace (Z.min er e) with e in Hle by lia.
      rewrite Z.sub_diag, Z.pow_0_r, Z.mul_1_r in Hle.
      eapply Z.le_trans; [|exact Hd].
      pose proof (pow2_pos (E - e)) as Hp.
      apply Z.div_le_lower_bound; [lia|].
      replace (er - e) with ((E - e) + (er - E)) in Hle by lia.
      rewrite Z.pow_add_r in Hle by lia. nia.
  - destruct (Z_le_gt_dec E e) as [HEe|HEe].
    + rewrite (Hup HEe). pose proof (pow2_pos (e - E)). nia.
    + specialize (Hdown ltac:(lia)). destruct Hdown as [Hd _].
      eapply Z.lt_le_trans; [|exact Hd].
      assert (HE : E = Zpos (digits2_pos m) + e - prec).
      { subst E. rewrite fexp_eq in *. lia. }
      pose proof (Zdigits2_bounds (Zpos m) eq_refl) as [Hlo _]. cbn [Zdigits2] in Hlo.
      pose proof (pow2_pos (E - e)) as Hp.
      apply Z.div_str_pos. split; [lia|].
      assert (2 ^ (E - e) <= 2 ^ (Zpos (digits2_pos m) - 1)) by (apply Z.pow_le_mono_r; lia).
      lia.
Qed.

(** Away from the subnormal range and from overflow the result of
    [binary_round_aux] is a finite number of the same or the next
    magnitude. *)
Theorem binary_round_aux_finite (s : bool) (mx ex : Z) (lx : location) :
  0 < mx -> ex <= fexp (Zdigits2 mx + ex) ->
  emin < Zdigits2 mx + ex -> Zdigits2 mx + ex < emax ->
  exists m e, binary_round_aux prec emax s mx ex lx = S754_finite s m e /\
              bounded prec emax m e = true /\
              Zdigits2 mx + ex <= Zpos (digits2_pos m) + e <= Zdigits2 mx + ex + 1.
Proof.
  intros Hmx Hpre Hlo Hhi.
  destruct (binary_round_aux_eq s mx ex lx Hmx Hpre) as [Hm1 Heq].
  set (E := fexp (Zdigits2 mx + ex)) in *.
  set (mrs := fst (shr (shr_record_of_loc mx lx) ex (E - ex))) in *.
  set (m2 := round_nearest_even (shr_m mrs) (loc_of_shr_record mrs)) in *.
  assert (Hcases : m2 = shr_m mrs \/ m2 = shr_m mrs + 1) by apply round_nearest_even_cases.
  assert (Hok : finish_ok m2 E).
  { apply (round_finish_ok_intro mx ex); [assumption|assumption|].
    fold E. rewrite <- Hm1. exact Hcases. }
  assert (Hn : 0 <= E - ex < Zdigits2 mx).
  { subst E. rewrite fexp_eq in *. lia. }
  assert (Hd1 : Zdigits2 (shr_m mrs) = Zdigits2 mx - (E - ex)).
  { rewrite Hm1. apply Zdigits2_div_pow2; lia. }
  assert (Hm1pos : 0 < shr_m mrs).
  { rewrite Hm1. pose proof (pow2_pos (E - ex)) as Hp.
    apply Z.div_str_pos. split; [lia|].
    pose proof (Zdigits2_bounds mx Hmx) as [Hl _].
    assert (2 ^ (E - ex) <= 2 ^ (Zdigits2 mx - 1)) by (apply Z.pow_le_mono_r; lia).
    lia. }
  assert (HE : E < emax - prec).
  { subst E. rewrite fexp_eq, emin_eq. lia. }
  destruct (round_finish_finite s m2 E Hok ltac:(lia) HE) as (m & e & Hf & Hb & Hd).
  exists m, e. rewrite Heq. split; [exact Hf|]. split; [exact Hb|].
  rewrite Hd. pose proof (Zdigits2_succ (shr_m mrs) Hm1pos).
  destruct Hcases as [-> | ->]; lia.
Qed.

Theorem binary_round_finite (s : bool) (m : positive) (e : Z) :
  emin < Zpos (digits2_pos m) + e -> Zpos (digits2_pos m) + e < emax ->
  exists m' e', binary_round prec emax s m e = S754_finite s m' e' /\
                bounded prec emax m' e' = true /\
                Zpos (digits2_pos m) + e <= Zpos (digits2_pos m') + e'
                  <= Zpos (digits2_pos m) + e + 1.
Proof.
  intros Hlo Hhi. unfold binary_round.
  set (E := fexp (Zpos (digits2_pos m) + e)).
  destruct (shl_align_spec m e E) as [Hmz Hez].
  destruct (shl_align m e E) as [mz ez]. cbn [fst snd] in Hmz, Hez.
  rewrite <- Hez in Hmz.
  assert (Hdz : Zdigits2 (Zpos mz) + ez = Zpos (digits2_pos m) + e).
  { rewrite Hmz, Zdigits2_mul_pow2 by lia. cbn [Zdigits2]. lia. }
  rewrite <- Hdz in Hlo, Hhi |- *.
  apply binary_round_aux_finite; try assumption; [reflexivity|].
  rewrite Hdz. fold E. lia.
Qed.

(** A number that is representable is left as it is. *)
Theorem binary_round_exact (s : bool) (m : positive) (e : Z) (k : positive) :
  let E := fexp (Zpos (digits2_pos m) + e) in
  E <= emax - prec ->
  (E <= e /\ Zpos k = Zpos m * 2 ^ (e - E)) \/
  (e <= E /\ Zpos m = Zpos k * 2 ^ (E - e)) ->
  binary_round prec emax s m e = S754_finite s k E.
Proof.
  intros E HE Hk.
  destruct (binary_round_eq s m e) as (m2 & -> & Hok & Hup & _ & Hex).
  fold E in Hok, Hup, Hex |- *.
  assert (Hm2 : m2 = Zpos k).
  { destruct Hk as [[H1 H2]|[H1 H2]]; [rewrite H2; apply Hup; assumption|].
    apply Hex; [assumption|lia|assumption]. }
  destruct Hok as (HE' & [Hlo Hhi] & Hcan). unfold round_finish.
  destruct (Z.eqb_spec m2 0) as [|_]; [lia|].
  destruct (Z.ltb_spec m2 (2 ^ prec)) as [Hlt|Hge].
  - destruct (Z.leb_spec E (emax - prec)); [|lia]. rewrite Hm2. reflexivity.
  - exfalso.
    (* an exact mantissa has at most [prec] digits *)
    assert (Hd : Zdigits2 m2 = prec + 1).
    { replace m2 with (2 ^ prec) by lia. apply Zdigits2_pow2. lia. }
    assert (HdE : Zdigits2 m2 + E = Zpos (digits2_pos m) + e).
    { destruct Hk as [[H1 H2]|[H1 H2]].
      - rewrite Hm2, H2, Zdigits2_mul_pow2 by lia. cbn [Zdigits2]. lia.
      - assert (Hdm : Zdigits2 (Zpos m) = Zdigits2 (Zpos k) + (E - e)).
        { rewrite H2. apply Zdigits2_mul_pow2; lia. }
        cbn [Zdigits2] in Hdm. rewrite Hm2. cbn [Zdigits2]. lia. }
    subst E. rewrite fexp_eq in *. rewrite emin_eq in *.
    lia.
Qed.

(** [binary_round_aux] never returns a NaN or changes the sign. *)
Lemma shr_nonneg (mrs : shr_record) (e n : Z) :
  0 <= shr_m mrs -> 0 <= shr_m (fst (shr mrs e n)).
Proof.
  intros Hm. destruct n as [|p|p]; cbn [shr fst]; try assumption.
  rewrite iter_shr_1_m by assumption.
  apply Z.div_pos; [assumption|]. apply Z.pow_pos_nonneg; lia.
Qed.

Lemma binary_round_aux_sign (s : bool) (mx ex : Z) (lx : location) :
  0 <= mx ->
  binary_round_aux prec emax s mx ex lx = S754_zero s \/
  (exists m e, binary_round_aux prec emax s mx ex lx = S754_finite s m e) \/
  binary_round_aux prec emax s mx ex lx = S754_infinity s.
Proof.
  intros Hmx. unfold binary_round_aux, shr_fexp.
  set (p1 := shr (shr_record_of_loc mx lx) ex (fexp (Zdigits2 mx + ex) - ex)).
  assert (H1 : 0 <= shr_m (fst p1)).
  { apply shr_nonneg. rewrite shr_record_of_loc_m. assumption. }
  destruct p1 as [mrs' e']. cbn [fst] in H1.
  set (m2 := round_nearest_even (shr_m mrs') (loc_of_shr_record mrs')).
  assert (H2 : 0 <= m2).
  { subst m2. destruct (round_nearest_even_cases (shr_m mrs') (loc_of_shr_record mrs')) as [-> | ->]; lia. }
  set (p2 := shr (shr_record_of_loc m2 loc_Exact) e' (fexp (Zdigits2 m2 + e') - e')).
  assert (H3 : 0 <= shr_m (fst p2)).
  { apply shr_nonneg. rewrite shr_record_of_loc_m. assumption. }
  destruct p2 as [mrs'' e'']. cbn [fst] in H3.
  destruct (shr_m mrs'') as [|q|q]; [auto| |lia].
  destruct (e'' <=? emax - prec); eauto.
Qed.

(** Sums, differences and absolute values of numbers of the format are of
    the format. *)
Lemma SFadd_valid (x y : spec_float) :
  valid_binary prec emax x = true -> valid_binary prec emax y = true ->
  valid_binary prec emax (SFadd prec emax x y) = true.
Proof.
  intros Hx Hy.
  destruct x as [sx|sx| |sx mx ex], y as [sy|sy| |sy my ey]; cbn [SFadd];
    try destruct sx; try destruct sy; try reflexivity; try assumption;
    apply binary_normalize_valid.
Qed.

Lemma SFsub_valid (x y : spec_float) :
  valid_binary prec emax x = true -> valid_binary prec emax y = true ->
  valid_binary prec emax (SFsub prec emax x y) = true.
Proof.
  intros Hx Hy.
  destruct x as [sx|sx| |sx mx ex], y as [sy|sy| |sy my ey]; cbn [SFsub];
    try destruct sx; try destruct sy; try reflexivity; try assumption;
    apply binary_normalize_valid.
Qed.

Lemma SFabs_valid (x : spec_float) :
  valid_binary prec emax x = true -> valid_binary prec emax (SFabs x) = true.
Proof. destruct x; cbn; auto. Qed.

Lemma SFleb_refl_finite (m : positive) (e : Z) :
  SFleb (S754_finite false m e) (S754_finite false m e) = true.
Proof.
  unfold SFleb, SFcompare. rewrite Z.compare_refl.
  change (Pos.compare_cont Eq m m) with (m ?= m)%positive.
  rewrite Pos.compare_refl. reflexivity.
Qed.

(** Adding a nonnegative number to a positive one does not go below
    the positive one. *)
Theorem SFadd_nonneg_ge (x : spec_float) (mr : positive) (er : Z) :
  is_nonneg x = true -> bounded prec emax mr er = true ->
  SFleb (S754_finite false mr er)
        (SFadd prec emax x (S754_finite false mr er)) = true.
Proof.
  intros Hx Hb. destruct x as [sx|sx| |sx mx ex]; cbn [is_nonneg] in Hx; try discriminate.
  - cbn [SFadd]. apply SFleb_refl_finite.
  - destruct sx; [discriminate|]. reflexivity.
  - destruct sx; [discriminate|]. cbn [SFadd cond_Zopp].
    set (ez := Z.min ex er).
    destruct (shl_align_spec mx ex ez) as [Hx1 _].
    destruct (shl_align_spec mr er ez) as [Hr1 _].
    replace (Z.min ex ez) with ez in Hx1 by lia.
    replace (Z.min er ez) with ez in Hr1 by lia.
    set (ax := fst (shl_align mx ex ez)) in *.
    set (ar := fst (shl_align mr er ez)) in *.
    change (Zpos ax + Zpos ar) with (Zpos (ax + ar)).
    cbn [binary_normalize].
    apply binary_round_ge; [assumption|].
    replace (Z.min er ez) with ez by lia.
    rewrite Z.sub_diag, Z.pow_0_r, Z.mul_1_r, Pos2Z.inj_add, <- Hr1. lia.
Qed.

(** The product of a positive finite number and a nonnegative one is
    nonnegative. *)
Lemma SFmul_nonneg (mx : positive) (ex : Z) (y : spec_float) :
  is_nonneg y = true ->
  is_nonneg (SFmul prec emax (S754_finite false mx ex) y) = true.
Proof.
  intros Hy. destruct y as [sy|sy| |sy my ey]; cbn [is_nonneg] in Hy; try discriminate.
  - cbn [SFmul xorb]. reflexivity.
  - destruct sy; [discriminate|]. reflexivity.
  - destruct sy; [discriminate|]. cbn [SFmul xorb].
    destruct (binary_round_aux_sign false (Zpos (mx * my)) (ex + ey) loc_Exact)
      as [-> | [(m & e & ->) | ->]]; try reflexivity. lia.
Qed.

(** The quotient of two finite numbers is finite when its magnitude
    is in the normal range. *)
Theorem SFdiv_finite (sx sy : bool) (mx my : positive) (ex ey : Z) :
  let M := (Zpos (digits2_pos mx) + ex) - (Zpos (digits2_pos my) + ey) in
  emin + prec < M -> M + 1 < emax ->
  exists m e,
    SFdiv prec emax (S754_finite sx mx ex) (S754_finite sy my ey)
      = S754_finite (xorb sx sy) m e /\
    bounded prec emax m e = true /\
    M <= Zpos (digits2_pos m) + e <= M + 2.
Proof.
  intros M Hlo Hhi. cbn [SFdiv]. unfold SFdiv_core_binary. cbn [Zdigits2]. fold M.
  set (d1 := Zpos (digits2_pos mx)) in *. set (d2 := Zpos (digits2_pos my)) in *.
  set (e' := Z.min (fexp M) (ex - ey)).
  set (sh := ex - ey - e').
  assert (HfM : fexp M = M - prec) by (rewrite fexp_eq; lia).
  assert (Hsh : 0 <= sh /\ d2 - d1 + prec <= sh) by (subst sh e' M; lia).
  assert (Hm' : match sh with
                | Zpos _ => Z.shiftl (Zpos mx) sh
                | Z0 => Zpos mx
                | Zneg _ => Z0
                end = Zpos mx * 2 ^ sh).
  { destruct sh as [|p|p] eqn:Esh; [rewrite Z.pow_0_r; lia| |lia].
    rewrite Z.shiftl_mul_pow2 by lia. reflexivity. }
  rewrite Hm'.
  pose proof (Z_div_mod (Zpos mx * 2 ^ sh) (Zpos my) eq_refl) as Hdm.
  assert (Hq : fst (Z.div_eucl (Zpos mx * 2 ^ sh) (Zpos my)) = Zpos mx * 2 ^ sh / Zpos my)
    by reflexivity.
  destruct (Z.div_eucl (Zpos mx * 2 ^ sh) (Zpos my)) as [q r]. cbn [fst] in Hq.
  assert (Hda : Zdigits2 (Zpos mx * 2 ^ sh) = d1 + sh).
  { rewrite Zdigits2_mul_pow2 by lia. reflexivity. }
  assert (Hdq : d1 + sh - d2 <= Zdigits2 q <= d1 + sh - d2 + 1).
  { rewrite Hq, <- Hda. pose proof (pow2_pos sh).
    apply (Zdigits2_div _ (Zpos my)); [nia|reflexivity|].
    rewrite Hda. cbn [Zdigits2]. fold d2. lia. }
  assert (Hqpos : 0 < q).
  { assert (0 <= q).
    { rewrite Hq. pose proof (pow2_pos sh). apply Z.div_pos; [nia|reflexivity]. }
    destruct q; cbn [Zdigits2] in Hdq; lia. }
  assert (Hmag : M <= Zdigits2 q + e' <= M + 1) by (subst sh M; lia).
  destruct (binary_round_aux_finite (xorb sx sy) q e'
              (new_location (Zpos my) r) Hqpos) as (m & e & Hf & Hb & Hd).
  - apply Z.le_trans with (fexp M); [subst e'; lia|].
    apply fexp_mono. lia.
  - lia.
  - lia.
  - exists m, e. split; [exact Hf|]. split; [exact Hb|]. lia.
Qed.

(** On two positive numbers of the format, [SFltb] is the order of their
    values. *)
Theorem SFltb_finite (ma mb : positive) (ea eb : Z) :
  bounded prec emax ma ea = true -> bounded prec emax mb eb = true ->
  SFltb (S754_finite false ma ea) (S754_finite false mb eb) = true <->
  Zpos ma * 2 ^ (ea - Z.min ea eb) < Zpos mb * 2 ^ (eb - Z.min ea eb).
Proof.
  intros Ha Hb.
  destruct (bounded_digits ma ea Ha) as (Hea & Hda & Hca).
  destruct (bounded_digits mb eb Hb) as (Heb & Hdb & Hcb).
  pose proof (Zdigits2_bounds (Zpos ma) eq_refl) as [Hal Hah].
  pose proof (Zdigits2_bounds (Zpos mb) eq_refl) as [Hbl Hbh].
  cbn [Zdigits2] in Hal, Hah, Hbl, Hbh.
  assert (Hma : Zpos ma < 2 ^ prec).
  { eapply Z.lt_le_trans; [exact Hah|]. apply Z.pow_le_mono_r; lia. }
  assert (Hmb : Zpos mb < 2 ^ prec).
  { eapply Z.lt_le_trans; [exact Hbh|]. apply Z.pow_le_mono_r; lia. }
  unfold SFltb, SFcompare.
  destruct (Z.compare_spec ea eb) as [Heq|Hlt|Hgt].
  - subst eb. rewrite Z.min_id, Z.sub_diag, Z.pow_0_r, !Z.mul_1_r.
    change (Pos.compare_cont Eq ma mb) with (ma ?= mb)%positive.
    destruct (Pos.compare_spec ma mb) as [->|H|H]; split; intros H'; try discriminate;
      try reflexivity; try lia.
  - split; [intros _|reflexivity].
    replace (Z.min ea eb) with ea by lia.
    rewrite Z.sub_diag, Z.pow_0_r, Z.mul_1_r.
    destruct Hcb as [Hd|He]; [|lia]. rewrite Hd in Hbl.
    assert (2 ^ 1 <= 2 ^ (eb - ea)) by (apply Z.pow_le_mono_r; lia).
    change (2 ^ 1) with 2 in *. rewrite pow2_prec_split in Hma. nia.
  - split; [discriminate|intros H; exfalso].
    replace (Z.min ea eb) with eb in H by lia.
    rewrite Z.sub_diag, Z.pow_0_r, Z.mul_1_r in H.
    destruct Hca as [Hd|He]; [|lia]. rewrite Hd in Hal.
    assert (2 ^ 1 <= 2 ^ (ea - eb)) by (apply Z.pow_le_mono_r; lia).
    change (2 ^ 1) with 2 in *. rewrite pow2_prec_split in Hmb. nia.
Qed.

(** The sum of two nonnegative numbers is nonnegative. *)
Lemma SFadd_nonneg (x y : spec_float) :
  is_nonneg x = true -> is_nonneg y = true ->
  is_nonneg (SFadd prec emax x y) = true.
Proof.
  intros Hx Hy.
  destruct x as [sx|sx| |sx mx ex], y as [sy|sy| |sy my ey];
    cbn [is_nonneg] in Hx, Hy; try discriminate; cbn [SFadd];
    try destruct sx; try destruct sy; try discriminate; try reflexivity.
  cbn [cond_Zopp].
  set (ez := Z.min ex ey).
  change (Zpos (fst (shl_align mx ex ez)) + Zpos (fst (shl_align my ey ez)))
    with (Zpos (fst (shl_align mx ex ez) + fst (shl_align my ey ez))).
  cbn [binary_normalize].
  destruct (binary_round_sign false (fst (shl_align mx ex ez) + fst (shl_align my ey ez)) ez)
    as [H|[(m & e & H)|H]]; rewrite H; reflexivity.
Qed.

End Rounding.

Unset Default Proof Using.

(** * The two formats of the program *)

Lemma fexp32_eq (x : Z) : fexp 24 128 x = Z.max (x - 24) (-149).
Proof. reflexivity. Qed.

Lemma fexp64_eq (x : Z) : fexp 53 1024 x = Z.max (x - 53) (-1074).
Proof. reflexivity. Qed.

Lemma convert_valid32 (x : spec_float) :
  IEEE.valid IEEE.binary32 (IEEE.convert IEEE.binary32 x) = true.
Proof.
  destruct x as [s|s| |s m e]; try reflexivity.
  exact (binary_round_valid 24 128 eq_refl eq_refl s m e).
Qed.

Lemma convert_valid64 (x : spec_float) :
  IEEE.valid IEEE.binary64 (IEEE.convert IEEE.binary64 x) = true.
Proof.
  destruct x as [s|s| |s m e]; try reflexivity.
  exact (binary_round_valid 53 1024 eq_refl eq_refl s m e).
Qed.

Lemma convert_nonneg32 (x : spec_float) :
  is_nonneg x = true -> is_nonneg (IEEE.convert IEEE.binary32 x) = true.
Proof.
  destruct x as [s|s| |s m e]; cbn [is_nonneg IEEE.convert]; try (intros; assumption).
  destruct s; [discriminate|]. intros _.
  destruct (binary_round_sign 24 128 eq_refl eq_refl false m e)
    as [H|[(m' & e' & H)|H]]; cbn [IEEE.prec IEEE.emax IEEE.binary32]; rewrite H; reflexivity.
Qed.

Lemma convert_nonneg64 (x : spec_float) :
  is_nonneg x = true -> is_nonneg (IEEE.convert IEEE.binary64 x) = true.
Proof.
  destruct x as [s|s| |s m e]; cbn [is_nonneg IEEE.convert]; try (intros; assumption).
  destruct s; [discriminate|]. intros _.
  destruct (binary_round_sign 53 1024 eq_refl eq_refl false m e)
    as [H|[(m' & e' & H)|H]]; cbn [IEEE.prec IEEE.emax IEEE.binary64]; rewrite H; reflexivity.
Qed.

(** Widening a float is exact: the mantissa is padded to 53 bits. *)
Lemma float_to_double_finite (s : bool) (m : positive) (e : Z) :
  bounded 24 128 m e = true ->
  exists k, Zpos k = Zpos m * 2 ^ (53 - Zpos (digits2_pos m)) /\
            float_to_double (S754_finite s m e)
              = S754_finite s k (Zpos (digits2_pos m) + e - 53).
Proof.
  intros Hb.
  destruct (bounded_digits 24 128 eq_refl eq_refl m e Hb) as (Hmin & Hd & _).
  apply (bounded_spec 24 128 eq_refl eq_refl) in Hb. destruct Hb as [_ Hmax].
  change (emin 24 128) with (-149) in Hmin.
  pose proof (Pos2Z.is_pos (digits2_pos m)) as Hdpos.
  set (d := Zpos (digits2_pos m)) in *.
  assert (HE : fexp 53 1024 (d + e) = d + e - 53) by (rewrite fexp64_eq; lia).
  assert (Hk : 0 < Zpos m * 2 ^ (53 - d)) by (pose proof (pow2_pos (53 - d)); nia).
  exists (Z.to_pos (Zpos m * 2 ^ (53 - d))).
  split; [rewrite Z2Pos.id by assumption; reflexivity|].
  pose proof (binary_round_exact 53 1024 eq_refl eq_refl s m e
                (Z.to_pos (Zpos m * 2 ^ (53 - d)))) as Hex.
  cbv zeta in Hex. fold d in Hex. rewrite HE in Hex.
  apply Hex; [lia|]. left. split; [lia|].
  rewrite Z2Pos.id by assumption. do 2 f_equal. lia.
Qed.

(** Widening a float and narrowing it again gives the float back. *)
Theorem float_to_double_to_float (x : float) :
  IEEE.valid IEEE.binary32 x = true -> double_to_float (float_to_double x) = x.
Proof.
  destruct x as [s|s| |s m e]; try reflexivity.
  intros Hb. cbn [IEEE.valid IEEE.prec IEEE.emax IEEE.binary32 valid_binary] in Hb.
  destruct (float_to_double_finite s m e Hb) as (k & Hk & ->).
  destruct (bounded_digits 24 128 eq_refl eq_refl m e Hb) as (Hmin & Hd & _).
  pose proof Hb as Hb'.
  apply (bounded_spec 24 128 eq_refl eq_refl) in Hb'. destruct Hb' as [Hcan Hmax].
  pose proof (Pos2Z.is_pos (digits2_pos m)) as Hdpos.
  set (d := Zpos (digits2_pos m)) in *.
  assert (Hdk : Zpos (digits2_pos k) = 53).
  { change (Zpos (digits2_pos k)) with (Zdigits2 (Zpos k)).
    rewrite Hk, Zdigits2_mul_pow2 by lia. cbn [Zdigits2]. fold d. lia. }
  unfold double_to_float, IEEE.convert. cbn [IEEE.prec IEEE.emax IEEE.binary32].
  pose proof (binary_round_exact 24 128 eq_refl eq_refl s k (d + e - 53) m) as Hex.
  cbv zeta in Hex. rewrite Hdk in Hex.
  replace (53 + (d + e - 53)) with (d + e) in Hex by lia.
  rewrite Hcan in Hex.
  apply Hex; [lia|]. right. split; [lia|].
  rewrite Hk. do 2 f_equal. lia.
Qed.

(** A positive [size_t] is a positive finite double, between 1 and 2^64. *)
Lemma size_t_to_double_finite (n : nat) :
  (1 <= n)%nat -> Z.of_nat n <= size_t_max ->
  exists m e, size_t_to_double n = S754_finite false m e /\
              bounded 53 1024 m e = true /\
              1 <= Zpos (digits2_pos m) + e <= 65.
Proof.
  intros Hlo Hhi.
  unfold size_t_to_double, IEEE.of_Z. cbn [IEEE.prec IEEE.emax IEEE.binary64].
  assert (Hn : 0 < Z.of_nat n < 2 ^ 64) by (unfold size_t_max in Hhi; lia).
  destruct (Z.of_nat n) as [|p|p] eqn:Ep; [lia| |lia].
  cbn [binary_normalize].
  assert (Hd : 1 <= Zpos (digits2_pos p) <= 64).
  { change (Zpos (digits2_pos p)) with (Zdigits2 (Zpos p)). split.
    - pose proof (Zdigits2_pos (Zpos p) eq_refl). lia.
    - apply Zdigits2_le; lia. }
  destruct (binary_round_finite 53 1024 eq_refl eq_refl false p 0)
    as (m & e & Hf & Hb & Hmag).
  - change (emin 53 1024) with (-1074). lia.
  - lia.
  - exists m, e. split; [exact Hf|]. split; [exact Hb|]. lia.
Qed.

(** * The constants of the program *)

Lemma RESET_PROB_value :
  RESET_PROB initial_globals = S754_finite false 10066330 (-26).
Proof. vm_compute. reflexivity. Qed.

Lemma one_value : one = S754_finite false 4503599627370496 (-52).
Proof. vm_compute. reflexivity. Qed.

Lemma threshold_value : threshold = S754_finite false 5764607523034235 (-59).
Proof. vm_compute. reflexivity. Qed.

Lemma init_vertex_value (d : vertex_data_type) :
  init_vertex d = S754_finite false 8388608 (-23).
Proof. vm_compute. reflexivity. Qed.

Lemma float_085_value :
  double_to_float (double_literal 85 100) = S754_finite false 14260634 (-24).
Proof. vm_compute. reflexivity. Qed.

Lemma one_minus_RESET_PROB_value :
  IEEE.sub IEEE.binary64 one (float_to_double (RESET_PROB initial_globals))
  = S754_finite false 7656119312842752 (-53).
Proof. vm_compute. reflexivity. Qed.

(** The weight [(1.0 - RESET_PROB) / n] of an edge is a positive finite
    double for every out-degree [n] from 1 to the largest [size_t]. *)
Lemma weight_finite (n : nat) :
  (1 <= n)%nat -> Z.of_nat n <= size_t_max ->
  exists m e,
    IEEE.div IEEE.binary64
      (IEEE.sub IEEE.binary64 one (float_to_double (RESET_PROB initial_globals)))
      (size_t_to_double n) = S754_finite false m e.
Proof.
  intros Hlo Hhi. rewrite one_minus_RESET_PROB_value.
  destruct (size_t_to_double_finite n Hlo Hhi) as (md & ed & -> & _ & Hmag).
  assert (Hdc : Zpos (digits2_pos 7656119312842752) = 53) by reflexivity.
  destruct (SFdiv_finite 53 1024 eq_refl eq_refl false false
              7656119312842752 md (-53) ed) as (m & e & Hq & _).
  - rewrite Hdc. change (emin 53 1024) with (-1074). lia.
  - rewrite Hdc. lia.
  - exists m, e. exact Hq.
Qed.

(** * The vertex program, run *)

Lemma gather_run (G : globals) (v : vertex_id_type) (e : edge_type) (w : world) :
  gather G v e w
  = (gather_formula (RESET_PROB G) (out_degree (graph w) (source e))
       (rank w (source e)), w).
Proof. reflexivity. Qed.

Lemma apply_run (G : globals) (v : vertex_id_type) (s : float) (w : world) :
  apply G v s w
  = (tt, World (Graph (<[v := double_to_float (new_rank (RESET_PROB G) s)]>
                         (vdata (graph w)))
                      (edges (graph w)))
               (<[v := Pagerank
                         (fabs (IEEE.sub IEEE.binary64
                                  (new_rank (RESET_PROB G) s)
                                  (float_to_double (rank w v))))]>
                  (programs w))
               (signalled w)).
Proof. reflexivity. Qed.

Lemma rank_after_apply (G : globals) (v : vertex_id_type) (s : float) (w : world) :
  rank (effect (apply G v s) w) v = double_to_float (new_rank (RESET_PROB G) s).
Proof.
  unfold rank, result, effect. rewrite apply_run. cbn [snd data fst graph vdata].
  apply lookup_total_insert_eq.
Qed.

Lemma last_change_after_apply (G : globals) (v : vertex_id_type) (s : float)
    (w : world) :
  last_change_of (effect (apply G v s) w) v
  = fabs (IEEE.sub IEEE.binary64 (new_rank (RESET_PROB G) s)
            (float_to_double (rank w v))).
Proof.
  unfold last_change_of, result, effect. rewrite apply_run.
  cbn [snd get_last_change fst programs].
  rewrite lookup_total_insert_eq. reflexivity.
Qed.

Lemma rank_after_apply_ne (G : globals) (v u : vertex_id_type) (s : float)
    (w : world) :
  u ≠ v → rank (effect (apply G v s) w) u = rank w u.
Proof.
  intros Hne. unfold rank, result, effect. rewrite apply_run.
  cbn [snd data fst graph vdata].
  apply lookup_total_insert_ne. congruence.
Qed.

Lemma last_change_after_apply_ne (G : globals) (v u : vertex_id_type) (s : float)
    (w : world) :
  u ≠ v → last_change_of (effect (apply G v s) w) u = last_change_of w u.
Proof.
  intros Hne. unfold last_change_of, result, effect. rewrite apply_run.
  cbn [snd get_last_change fst programs].
  rewrite lookup_total_insert_ne by congruence. reflexivity.
Qed.

Lemma gather_edges_run (G : globals) (v : vertex_id_type) (w : world)
    (es : list edge_type) : forall acc,
  gather_edges G v es acc w
  = (foldl (λ a e, IEEE.add IEEE.binary32 a (result (gather G v e) w)) acc es, w).
Proof.
  induction es as [|e es IH]; intros acc; [reflexivity|].
  cbn [gather_edges foldl]. unfold bind at 1. rewrite gather_run.
  rewrite IH. reflexivity.
Qed.

(** [gather] has no guard of its own: on an edge whose source has no
    out-edge in the graph (the edge is then no edge of the graph) the
    division is by zero and the value returned is an infinity. *)
Example gather_without_out_edges :
  result (gather initial_globals 1%nat (Edge 0%nat 1%nat))
    (World (Graph (<[0%nat := init_vertex pzero]>
                     (<[1%nat := init_vertex pzero]> ∅)) []) ∅ ∅)
  = S754_infinity false.
Proof. vm_compute. reflexivity. Qed.

(** The sum 0.85f + 0.15f of round 1 on the cycle is 1 + 2^-25 before
    rounding: as a sum of floats it is 1.0; a sum of doubles would keep
    the 2^-25. *)
Example new_rank_on_cycle :
  new_rank (RESET_PROB initial_globals) (double_to_float (double_literal 85 100))
  = one.
Proof. vm_compute. reflexivity. Qed.

Example sum_of_doubles_on_cycle :
  IEEE.add IEEE.binary64
    (float_to_double (double_to_float (double_literal 85 100)))
    (float_to_double (RESET_PROB initial_globals))
  = S754_finite false (2 ^ 52 + 2 ^ 27) (-52).
Proof. vm_compute. reflexivity. Qed.

(** * The graph store *)

Lemma elem_of_length_pos {A} (x : A) (l : list A) : x ∈ l → (1 <= length l)%nat.
Proof. destruct l; [intros H; inversion H|cbn; lia]. Qed.

(** The source of an edge of the graph has an out-edge: the edge. *)
Lemma num_out_edges_source (g : graph_type) (e : edge_type) :
  e ∈ edges g → (1 <= num_out_edges g (source e))%nat.
Proof.
  intros He. apply (elem_of_length_pos e).
  apply list_elem_of_filter. split; [reflexivity|assumption].
Qed.

Lemma in_edges_edges (g : graph_type) (v : vertex_id_type) (e : edge_type) :
  e ∈ in_edges g v → e ∈ edges g ∧ target e = v.
Proof. intros He. apply list_elem_of_filter in He. tauto. Qed.

Lemma foldl_ext_elem {A B} (f g : A → B → A) (l : list B) :
  (∀ a x, x ∈ l → f a x = g a x) → ∀ a, foldl f a l = foldl g a l.
Proof.
  induction l as [|x l IH]; intros Hfg a; [reflexivity|].
  cbn [foldl]. rewrite (Hfg a x) by (left).
  apply IH. intros a' y Hy. apply Hfg. right. exact Hy.
Qed.

(** * The engine, run *)

Lemma gather_sum_run (G : globals) (v : vertex_id_type) (w : world) :
  gather_sum G v w
  = (foldl (λ a e, IEEE.add IEEE.binary32 a (result (gather G v e) w)) pzero
       (in_edges (graph w) v), w).
Proof. unfold gather_sum. apply gather_edges_run. Qed.

Lemma gather_phase_run (G : globals) (w : world) (vs : list vertex_id_type) :
  gather_phase G vs w
  = (map (λ v, (v, result (gather_sum G v) w)) vs, w).
Proof.
  induction vs as [|v vs IH]; [reflexivity|].
  cbn [gather_phase map]. unfold bind at 1. rewrite gather_sum_run.
  unfold bind at 1. rewrite IH. unfold result. rewrite gather_sum_run. reflexivity.
Qed.

Lemma scatter_over_graph (v : vertex_id_type) (es : list edge_type) : ∀ w,
  graph (effect (scatter_over v es) w) = graph w.
Proof.
  induction es as [|e es IH]; intros w; [reflexivity|].
  unfold effect in *. cbn [scatter_over]. unfold bind, scatter, signal.
  rewrite IH. reflexivity.
Qed.

Lemma scatter_phase_graph (vs : list vertex_id_type) : ∀ w,
  graph (effect (scatter_phase vs) w) = graph w.
Proof.
  induction vs as [|v vs IH]; intros w; [reflexivity|].
  unfold effect in *. cbn [scatter_phase]. unfold bind at 1.
  destruct (scatter_vertex v w) as [[] w1] eqn:E1.
  rewrite IH.
  assert (H : graph (effect (scatter_vertex v) w) = graph w).
  { unfold effect, scatter_vertex, bind, scatter_edges, get_last_change,
      selected_edges, ret.
    apply scatter_over_graph. }
  unfold effect in H. rewrite E1 in H. exact H.
Qed.

(** * Every rank is nonnegative *)

(** [x >= 0] of C++ is the sign test. *)
Lemma ge_zero_nonneg (x : spec_float) : IEEE.ge x pzero = is_nonneg x.
Proof. apply is_nonneg_leb. Qed.

(** The value [gather] returns is nonnegative when the rank of the source
    is and the out-degree of the source is a positive [size_t]. *)
Lemma gather_formula_nonneg (n : nat) (x : float) :
  (1 <= n)%nat -> Z.of_nat n <= size_t_max -> is_nonneg x = true ->
  is_nonneg (gather_formula (RESET_PROB initial_globals) n x) = true.
Proof.
  intros Hlo Hhi Hx. unfold gather_formula.
  destruct (weight_finite n Hlo Hhi) as (m & e & ->).
  apply convert_nonneg32.
  apply (SFmul_nonneg 53 1024 eq_refl eq_refl).
  apply convert_nonneg64. exact Hx.
Qed.

Lemma num_out_edges_le_edges (g : graph_type) (v : vertex_id_type) :
  (num_out_edges g v <= length (edges g))%nat.
Proof. apply length_filter. Qed.

Lemma foldl_add_nonneg (f : edge_type → float) (es : list edge_type) : ∀ acc,
  is_nonneg acc = true → (∀ e, e ∈ es → is_nonneg (f e) = true) →
  is_nonneg (foldl (λ a e, IEEE.add IEEE.binary32 a (f e)) acc es) = true.
Proof.
  induction es as [|e es IH]; intros acc Hacc Hf; [exact Hacc|].
  cbn [foldl]. apply IH.
  - apply (SFadd_nonneg 24 128 eq_refl eq_refl); [exact Hacc|]. apply Hf. left.
  - intros e' He'. apply Hf. right. exact He'.
Qed.

Lemma foldl_add_valid (f : edge_type → float) (es : list edge_type) : ∀ acc,
  IEEE.valid IEEE.binary32 acc = true →
  (∀ e, IEEE.valid IEEE.binary32 (f e) = true) →
  IEEE.valid IEEE.binary32 (foldl (λ a e, IEEE.add IEEE.binary32 a (f e)) acc es) = true.
Proof.
  induction es as [|e es IH]; intros acc Hacc Hf; [exact Hacc|].
  cbn [foldl]. apply IH; [|exact Hf].
  apply (SFadd_valid 24 128 eq_refl eq_refl); [exact Hacc|apply Hf].
Qed.

Lemma gather_sum_nonneg (w : world) (v : vertex_id_type) :
  (∀ u, is_nonneg (rank w u) = true) →
  Z.of_nat (length (edges (graph w))) <= size_t_max →
  is_nonneg (result (gather_sum initial_globals v) w) = true.
Proof.
  intros Hranks Hsize. unfold result. rewrite gather_sum_run. cbn [fst].
  apply foldl_add_nonneg; [reflexivity|].
  intros e He. unfold result. rewrite gather_run. cbn [fst].
  apply in_edges_edges in He. destruct He as [He _].
  apply gather_formula_nonneg; [| |apply Hranks].
  - apply num_out_edges_source. exact He.
  - pose proof (num_out_edges_le_edges (graph w) (source e)).
    unfold out_degree. unfold num_out_edges in *. lia.
Qed.

(** The sum of two floats is a float. *)
Lemma new_rank_narrowed (G : globals) (s : float) :
  IEEE.valid IEEE.binary32 s = true →
  IEEE.valid IEEE.binary32 (RESET_PROB G) = true →
  double_to_float (new_rank (RESET_PROB G) s)
  = IEEE.add IEEE.binary32 s (RESET_PROB G).
Proof.
  intros Hs HG. unfold new_rank. apply float_to_double_to_float.
  exact (SFadd_valid 24 128 eq_refl eq_refl s (RESET_PROB G) Hs HG).
Qed.

Lemma apply_rank_nonneg (w : world) (v : vertex_id_type) (s : float) :
  is_nonneg s = true → (∀ u, is_nonneg (rank w u) = true) →
  ∀ u, is_nonneg (rank (effect (apply initial_globals v s) w) u) = true.
Proof.
  intros Hs Hranks u. destruct (decide (u = v)) as [->|Hne].
  - rewrite rank_after_apply. unfold new_rank.
    apply convert_nonneg32, convert_nonneg64.
    apply (SFadd_nonneg 24 128 eq_refl eq_refl); [exact Hs|].
    rewrite RESET_PROB_value. reflexivity.
  - rewrite rank_after_apply_ne by exact Hne. apply Hranks.
Qed.

Lemma apply_phase_nonneg (totals : list (vertex_id_type * float)) : ∀ w,
  Forall (λ vt, is_nonneg (snd vt) = true) totals →
  (∀ u, is_nonneg (rank w u) = true) →
  (∀ u, is_nonneg (rank (effect (apply_phase initial_globals totals) w) u) = true)
  ∧ edges (graph (effect (apply_phase initial_globals totals) w)) = edges (graph w).
Proof.
  induction totals as [|[v t] ts IH]; intros w Hts Hranks; [split; [exact Hranks|reflexivity]|].
  inversion Hts as [|? ? Ht Hts']; subst. cbn [snd] in Ht.
  unfold effect in *. cbn [apply_phase]. unfold bind.
  pose proof (apply_rank_nonneg w v t Ht Hranks) as H1.
  unfold effect in H1.
  assert (He : edges (graph (snd (apply initial_globals v t w))) = edges (graph w))
    by (rewrite apply_run; reflexivity).
  destruct (apply initial_globals v t w) as [[] w1]. cbn [snd] in H1, He.
  destruct (IH w1 Hts' H1) as [IH1 IH2]. split; [exact IH1|]. rewrite IH2. exact He.
Qed.

(** The graph after a round is the graph after its apply phase. *)
Lemma round_graph (G : globals) (w : world) (active : gset vertex_id_type) :
  let w0 := World (graph w) (programs w) ∅ in
  graph (effect (round G active) w)
  = graph (effect (apply_phase G
                     (map (λ v, (v, result (gather_sum G v) w0)) (elements active)))
             w0).
Proof.
  intros w0. unfold effect, round, bind, clear_signals. fold w0.
  rewrite gather_phase_run.
  destruct (apply_phase G _ w0) as [[] w1]. cbn [snd].
  pose proof (scatter_phase_graph (elements active) w1) as H. unfold effect in H.
  destruct (scatter_phase (elements active) w1) as [[] w2]. exact H.
Qed.

(** A round keeps every rank nonnegative, and the edges as they are. *)
Lemma round_nonneg (w : world) (active : gset vertex_id_type) :
  (∀ u, is_nonneg (rank w u) = true) →
  Z.of_nat (length (edges (graph w))) <= size_t_max →
  (∀ u, is_nonneg (rank (effect (round initial_globals active) w) u) = true)
  ∧ edges (graph (effect (round initial_globals active) w)) = edges (graph w).
Proof.
  intros Hranks Hsize.
  set (w0 := World (graph w) (programs w) ∅).
  set (totals := map (λ v, (v, result (gather_sum initial_globals v) w0))
                   (elements active)).
  destruct (apply_phase_nonneg totals w0) as [H1 H2].
  { subst totals. apply Forall_map. apply Forall_forall. intros v _. cbn [snd].
    apply gather_sum_nonneg; [exact Hranks|exact Hsize]. }
  { exact Hranks. }
  unfold rank, result, data in *. cbn [fst] in *.
  rewrite round_graph. fold w0 totals. split; [exact H1|exact H2].
Qed.

(** The engine keeps every rank nonnegative, however long it runs. *)
Lemma start_nonneg (fuel : nat) : ∀ (w : world) (active : gset vertex_id_type)
    (updates : nat),
  (∀ u, is_nonneg (rank w u) = true) →
  Z.of_nat (length (edges (graph w))) <= size_t_max →
  ∀ u, is_nonneg (rank (effect (start initial_globals fuel active updates) w) u) = true.
Proof.
  induction fuel as [|fuel IH]; intros w active updates Hranks Hsize u;
    unfold effect; cbn [start]; destruct (decide (active = ∅)); try apply Hranks.
  unfold bind.
  destruct (round_nonneg w active Hranks Hsize) as [H1 H2]. unfold effect in H1, H2.
  destruct (round initial_globals active w) as [next w1]. cbn [snd] in H1, H2.
  apply (IH w1 next _ H1). rewrite H2. exact Hsize.
Qed.

Lemma startup_rank_nonneg (g : graph_type) (u : vertex_id_type) :
  is_nonneg (rank (World (transform_vertices init_vertex g) ∅ ∅) u) = true.
Proof.
  unfold rank, result, data, transform_vertices. cbn [fst graph vdata].
  rewrite lookup_total_alt, lookup_fmap.
  destruct (vdata g !! u) as [x|]; reflexivity.
Qed.

(** ** Bounds from above on rounding *)

Section Bounds.

Variables prec emax : Z.
Hypothesis Hprec : 0 < prec.
Hypothesis Hemax : prec < emax.

Set Default Proof Using "Hprec Hemax".

Local Abbreviation fexp := (fexp prec emax).
Local Abbreviation emin := (emin prec emax).

(** What rounding returns is at most a representable number that the
    rounded mantissa is at most. *)
Lemma round_finish_le (mr : positive) (er m2 E : Z) :
  bounded prec emax mr er = true -> round_finish_ok prec emax m2 E ->
  E <= er -> m2 <= Zpos mr * 2 ^ (er - E) ->
  at_most prec emax (round_finish prec emax false m2 E) mr er.
Proof.
  intros Hb Hok HEr Hle.
  pose proof (round_finish_valid prec emax Hprec Hemax false m2 E Hok) as Hv.
  destruct Hok as (HE & [Hlo Hhi] & Hcan).
  destruct (bounded_digits prec emax Hprec Hemax mr er Hb) as (Her & Hdr & Hcr).
  apply (bounded_spec prec emax Hprec Hemax) in Hb as [_ Hermax].
  pose proof (Zdigits2_bounds (Zpos mr) eq_refl) as [_ Hmr].
  cbn [Zdigits2] in Hmr.
  assert (Hmr' : Zpos mr < 2 ^ prec).
  { eapply Z.lt_le_trans; [exact Hmr|]. apply Z.pow_le_mono_r; lia. }
  unfold round_finish in *.
  destruct (Z.eqb_spec m2 0) as [|Hnz]; [left; reflexivity|right].
  destruct (Z.ltb_spec m2 (2 ^ prec)) as [Hlt|Hge].
  - destruct (Z.leb_spec E (emax - prec)) as [HleE|]; [|lia].
    exists (Z.to_pos m2), E. split; [reflexivity|]. split; [exact Hv|].
    split; [exact HEr|]. rewrite Z2Pos.id by lia. exact Hle.
  - assert (Hm2 : m2 = 2 ^ prec) by lia.
    assert (Hsh : 1 <= er - E).
    { destruct (Z.eq_dec (er - E) 0) as [H0|]; [|lia].
      rewrite H0, Z.pow_0_r in Hle. lia. }
    destruct (Z.leb_spec (E + 1) (emax - prec)) as [HleE|]; [|lia].
    exists (Z.to_pos (m2 / 2)), (E + 1). split; [reflexivity|]. split; [exact Hv|].
    split; [lia|]. pose proof (pow2_pos (prec - 1)) as Hp.
    rewrite Hm2, (pow2_prec_half prec emax Hprec Hemax), Z2Pos.id by lia.
    replace (er - E) with ((er - (E + 1)) + 1) in Hle by lia.
    rewrite Z.pow_add_r in Hle by lia. change (2 ^ 1) with 2 in Hle.
    rewrite Hm2, (pow2_prec_split prec emax Hprec Hemax) in Hle. lia.
Qed.

(** Rounding does not go above a representable number that the exact
    value is not above: [mx * 2^ex] is the value when [lx] is
    [loc_Exact] and is below the value otherwise. *)
Lemma binary_round_aux_le (mx ex : Z) (lx : location) (mr : positive) (er : Z) :
  0 < mx -> ex <= fexp (Zdigits2 mx + ex) ->
  bounded prec emax mr er = true ->
  mx * 2 ^ (ex - Z.min ex er) < Zpos mr * 2 ^ (er - Z.min ex er)
  \/ (lx = loc_Exact
      /\ mx * 2 ^ (ex - Z.min ex er) <= Zpos mr * 2 ^ (er - Z.min ex er)) ->
  at_most prec emax (binary_round_aux prec emax false mx ex lx) mr er.
Proof.
  intros Hmx Hpre Hb Hval.
  destruct (binary_round_aux_eq prec emax Hprec Hemax false mx ex lx Hmx Hpre)
    as [Hm1 Heq].
  set (E := fexp (Zdigits2 mx + ex)) in *.
  set (mrs := fst (shr (shr_record_of_loc mx lx) ex (E - ex))) in *.
  set (m2 := round_nearest_even (shr_m mrs) (loc_of_shr_record mrs)) in *.
  assert (Hcases : m2 = shr_m mrs \/ m2 = shr_m mrs + 1)
    by apply round_nearest_even_cases.
  assert (Hok : round_finish_ok prec emax m2 E).
  { apply (round_finish_ok_intro prec emax Hprec Hemax mx ex); [assumption|assumption|].
    fold E. rewrite <- Hm1. exact Hcases. }
  destruct (bounded_digits prec emax Hprec Hemax mr er Hb) as (Her & Hdr & Hcr).
  pose proof (Zdigits2_bounds (Zpos mr) eq_refl) as [_ Hmr].
  cbn [Zdigits2] in Hmr.
  assert (Hmr' : Zpos mr < 2 ^ prec).
  { eapply Z.lt_le_trans; [exact Hmr|]. apply Z.pow_le_mono_r; lia. }
  pose proof (Zdigits2_bounds mx Hmx) as [Hmxlo _].
  assert (Hle : mx * 2 ^ (ex - Z.min ex er) <= Zpos mr * 2 ^ (er - Z.min ex er))
    by (destruct Hval as [H|[_ H]]; lia).
  assert (HEr : E <= er).
  { subst E. rewrite (fexp_eq prec emax Hprec Hemax) in *.
    apply Z.max_lub; [|exact Her].
    set (t := Z.min ex er) in *.
    assert (Ht1 : 0 <= ex - t) by lia. assert (Ht2 : 0 <= er - t) by lia.
    assert (H1 : 2 ^ (Zdigits2 mx - 1 + (ex - t)) <= mx * 2 ^ (ex - t)).
    { pose proof (Zdigits2_pos mx Hmx). rewrite Z.pow_add_r by lia.
      pose proof (pow2_pos (ex - t) Ht1). nia. }
    assert (H2 : Zpos mr * 2 ^ (er - t) < 2 ^ (prec + (er - t))).
    { rewrite Z.pow_add_r by lia. pose proof (pow2_pos (er - t) Ht2). nia. }
    assert (H3 : 2 ^ (Zdigits2 mx - 1 + (ex - t)) < 2 ^ (prec + (er - t))) by lia.
    apply Z.pow_lt_mono_r_iff in H3; lia. }
  assert (Hmin : Z.min ex er = ex) by lia. rewrite Hmin in *.
  rewrite Z.sub_diag, Z.pow_0_r, Z.mul_1_r in *.
  assert (Hj : 0 <= E - ex) by lia.
  pose proof (pow2_pos (E - ex) Hj) as Hp.
  assert (Hsplit : Zpos mr * 2 ^ (er - ex)
                   = Zpos mr * 2 ^ (er - E) * 2 ^ (E - ex)).
  { rewrite <- Z.mul_assoc, <- Z.pow_add_r by lia. f_equal. f_equal. lia. }
  rewrite Heq. apply round_finish_le; try assumption.
  destruct (Z.eq_dec mx (Zpos mr * 2 ^ (er - E) * 2 ^ (E - ex))) as [Hex|Hne].
  - (* the bound itself: nothing is dropped when the value is exact *)
    destruct Hval as [H|[Hl _]]; [lia|]. subst lx.
    assert (Hexact : shr_exact mrs).
    { apply (shr_fst_exact _ ex (E - ex) (Zpos mr * 2 ^ (er - E)));
        [split; reflexivity| |lia|].
      - pose proof (pow2_pos (er - E)). nia.
      - cbn [shr_record_of_loc shr_m]. exact Hex. }
    subst m2. rewrite round_nearest_even_exact by assumption.
    rewrite Hm1, Hex, Z.div_mul by lia. lia.
  - assert (Hlt : mx < Zpos mr * 2 ^ (er - E) * 2 ^ (E - ex)) by lia.
    assert (shr_m mrs < Zpos mr * 2 ^ (er - E)).
    { rewrite Hm1. apply Z.div_lt_upper_bound; [lia|]. lia. }
    lia.
Qed.

(** The same for [binary_round], which rounds an exact value. *)
Lemma binary_round_le (m : positive) (e : Z) (mr : positive) (er : Z) :
  bounded prec emax mr er = true ->
  e <= er -> Zpos m <= Zpos mr * 2 ^ (er - e) ->
  at_most prec emax (binary_round prec emax false m e) mr er.
Proof.
  intros Hb Her Hle. unfold binary_round.
  set (E := fexp (Zpos (digits2_pos m) + e)).
  destruct (shl_align_spec m e E) as [Hmz Hez].
  destruct (shl_align m e E) as [mz ez]. cbn [fst snd] in Hmz, Hez.
  rewrite <- Hez in Hmz.
  assert (Hdz : Zdigits2 (Zpos mz) + ez = Zpos (digits2_pos m) + e).
  { rewrite Hmz, Zdigits2_mul_pow2 by lia. cbn [Zdigits2]. lia. }
  apply binary_round_aux_le; [reflexivity| |exact Hb|].
  - rewrite Hdz. fold E. lia.
  - right. split; [reflexivity|].
    replace (Z.min ez er) with ez by lia.
    rewrite Z.sub_diag, Z.pow_0_r, Z.mul_1_r, Hmz.
    replace (er - ez) with ((er - e) + (e - ez)) by lia.
    rewrite Z.pow_add_r by lia.
    pose proof (pow2_pos (e - ez)). nia.
Qed.

(** The quotient of two positive numbers, below a representable number
    that the exact quotient is below. *)
Lemma SFdiv_lt (mx my : positive) (ex ey : Z) (mr : positive) (er : Z) :
  let M := (Zpos (digits2_pos mx) + ex) - (Zpos (digits2_pos my) + ey) in
  let a := Z.min (ex - ey) er in
  emin + prec < M ->
  bounded prec emax mr er = true ->
  Zpos mx * 2 ^ (ex - ey - a) < Zpos mr * Zpos my * 2 ^ (er - a) ->
  at_most prec emax
    (SFdiv prec emax (S754_finite false mx ex) (S754_finite false my ey)) mr er.
Proof.
  intros M a Hlo Hb Hval. cbn [SFdiv xorb]. unfold SFdiv_core_binary.
  cbn [Zdigits2]. fold M.
  set (d1 := Zpos (digits2_pos mx)) in *. set (d2 := Zpos (digits2_pos my)) in *.
  set (e' := Z.min (fexp M) (ex - ey)).
  set (sh := ex - ey - e').
  assert (HfM : fexp M = M - prec) by (rewrite (fexp_eq prec emax Hprec Hemax); lia).
  assert (Hsh : 0 <= sh /\ d2 - d1 + prec <= sh) by (subst sh e' M; lia).
  assert (Hm' : match sh with
                | Zpos _ => Z.shiftl (Zpos mx) sh
                | Z0 => Zpos mx
                | Zneg _ => Z0
                end = Zpos mx * 2 ^ sh).
  { destruct sh as [|p|p] eqn:Esh; [rewrite Z.pow_0_r; lia| |lia].
    rewrite Z.shiftl_mul_pow2 by lia. reflexivity. }
  rewrite Hm'.
  pose proof (Z_div_mod (Zpos mx * 2 ^ sh) (Zpos my) eq_refl) as Hdm.
  assert (Hq : fst (Z.div_eucl (Zpos mx * 2 ^ sh) (Zpos my)) = Zpos mx * 2 ^ sh / Zpos my)
    by reflexivity.
  destruct (Z.div_eucl (Zpos mx * 2 ^ sh) (Zpos my)) as [q r]. cbn [fst] in Hq.
  assert (Hda : Zdigits2 (Zpos mx * 2 ^ sh) = d1 + sh).
  { rewrite Zdigits2_mul_pow2 by lia. reflexivity. }
  assert (Hdq : d1 + sh - d2 <= Zdigits2 q <= d1 + sh - d2 + 1).
  { rewrite Hq, <- Hda. pose proof (pow2_pos sh).
    apply (Zdigits2_div _ (Zpos my)); [nia|reflexivity|].
    rewrite Hda. cbn [Zdigits2]. fold d2. lia. }
  assert (Hqpos : 0 < q).
  { assert (0 <= q).
    { rewrite Hq. pose proof (pow2_pos sh). apply Z.div_pos; [nia|reflexivity]. }
    destruct q; cbn [Zdigits2] in Hdq; lia. }
  assert (Hmag : M <= Zdigits2 q + e' <= M + 1) by (subst sh M; lia).
  apply binary_round_aux_le; [exact Hqpos| |exact Hb|].
  - apply Z.le_trans with (fexp M); [subst e'; lia|].
    apply (fexp_mono prec emax Hprec Hemax). lia.
  - left. set (t := Z.min e' er).
    assert (Hqm : q * Zpos my <= Zpos mx * 2 ^ sh) by (destruct Hdm as [Hd Hr]; nia).
    assert (Ht : 0 <= e' - t /\ 0 <= er - t /\ 0 <= a - t /\ 0 <= er - a
                 /\ 0 <= ex - ey - a) by (subst t a sh; lia).
    pose proof (pow2_pos (e' - t) ltac:(lia)) as Hp1.
    pose proof (pow2_pos (a - t) ltac:(lia)) as Hp2.
    assert (H1 : q * Zpos my * 2 ^ (e' - t) <= Zpos mx * 2 ^ (ex - ey - t)).
    { replace (ex - ey - t) with (sh + (e' - t)) by (subst sh; lia).
      rewrite Z.pow_add_r by lia. nia. }
    assert (H2 : Zpos mx * 2 ^ (ex - ey - t) < Zpos mr * Zpos my * 2 ^ (er - t)).
    { replace (ex - ey - t) with ((ex - ey - a) + (a - t)) by lia.
      replace (er - t) with ((er - a) + (a - t)) by lia.
      rewrite !Z.pow_add_r by lia. nia. }
    assert (H3 : q * 2 ^ (e' - t) * Zpos my < Zpos mr * 2 ^ (er - t) * Zpos my) by lia.
    apply Z.mul_lt_mono_pos_r in H3; [exact H3|reflexivity].
Qed.

(** The product of a number that is at most 1 and a positive number with
    a full mantissa is at most that number. *)
Lemma SFmul_le (mw : positive) (ew : Z) (k : positive) (ek : Z) :
  ew <= 0 -> Zpos mw <= 2 ^ (- ew) ->
  bounded prec emax k ek = true -> Zpos (digits2_pos k) = prec ->
  at_most prec emax
    (SFmul prec emax (S754_finite false mw ew) (S754_finite false k ek)) k ek.
Proof.
  intros Hew Hmw Hb Hdk. cbn [SFmul xorb].
  apply binary_round_aux_le; [reflexivity| |exact Hb|].
  - rewrite (fexp_eq prec emax Hprec Hemax).
    assert (prec <= Zdigits2 (Zpos (mw * k))); [|lia].
    apply Zdigits2_ge; [|reflexivity].
    pose proof (Zdigits2_bounds (Zpos k) eq_refl) as [Hk _]. cbn [Zdigits2] in Hk.
    rewrite Hdk in Hk. rewrite Pos2Z.inj_mul. nia.
  - right. split; [reflexivity|].
    replace (Z.min (ew + ek) ek) with (ew + ek) by lia.
    rewrite Z.sub_diag, Z.pow_0_r, Z.mul_1_r, Pos2Z.inj_mul.
    replace (ek - (ew + ek)) with (- ew) by lia. nia.
Qed.

(** [at_most] is the order of [SFleb]. *)
Lemma at_most_leb (x : spec_float) (mr : positive) (er : Z) :
  at_most prec emax x mr er -> SFleb x (S754_finite false mr er) = true.
Proof.
  intros [->|(m & e & -> & _ & He & Hm)]; [reflexivity|].
  unfold SFleb, SFcompare.
  destruct (Z.compare_spec e er) as [Heq|Hlt|Hgt]; [|reflexivity|lia].
  subst e. rewrite Z.sub_diag, Z.pow_0_r, Z.mul_1_r in Hm.
  change (Pos.compare_cont Eq m mr) with (m ?= mr)%positive.
  destruct (Pos.compare_spec m mr) as [| |Hc]; try reflexivity.
  exfalso. apply Pos2Z.pos_lt_pos in Hc. lia.
Qed.

End Bounds.

Unset Default Proof Using.

(** The weight [(1.0 - RESET_PROB) / n] is a positive double that is at
    most 1. *)
Lemma weight_at_most_one (n : nat) :
  (1 <= n)%nat -> Z.of_nat n <= size_t_max ->
  exists mw ew,
    IEEE.div IEEE.binary64
      (IEEE.sub IEEE.binary64 one (float_to_double (RESET_PROB initial_globals)))
      (size_t_to_double n) = S754_finite false mw ew
    /\ ew <= 0 /\ Zpos mw <= 2 ^ (- ew).
Proof.
  intros Hlo Hhi. destruct (weight_finite n Hlo Hhi) as (mw & ew & Hw).
  exists mw, ew. split; [exact Hw|].
  rewrite one_minus_RESET_PROB_value in Hw.
  destruct (size_t_to_double_finite n Hlo Hhi) as (my & ey & Hn & _ & Hmag).
  rewrite Hn in Hw.
  assert (Hle : at_most 53 1024
                  (SFdiv 53 1024 (S754_finite false 7656119312842752 (-53))
                     (S754_finite false my ey)) 4503599627370496 (-52)).
  { apply (SFdiv_lt 53 1024 eq_refl eq_refl); [|reflexivity|].
    - change (Zpos (digits2_pos 7656119312842752)) with 53.
      change (emin 53 1024) with (-1074). lia.
    - pose proof (Zdigits2_bounds (Zpos my) eq_refl) as [Hmy _].
      cbn [Zdigits2] in Hmy. set (dy := Zpos (digits2_pos my)) in *.
      assert (Hdy : 1 <= dy) by (subst dy; lia).
      destruct (Z_le_gt_dec (-1) ey) as [Hey|Hey].
      + replace (Z.min (-53 - ey) (-52)) with (-53 - ey) by lia.
        replace (-53 - ey - (-53 - ey)) with 0 by lia.
        replace (-52 - (-53 - ey)) with (1 + ey) by lia.
        rewrite Z.pow_0_r.
        destruct (Z.eq_dec ey (-1)) as [->|Hne].
        * assert (2 ^ 1 <= 2 ^ (dy - 1)) by (apply Z.pow_le_mono_r; lia).
          change (2 ^ 1) with 2 in *. change (2 ^ (1 + -1)) with 1. lia.
        * assert (2 ^ 1 <= 2 ^ (1 + ey)) by (apply Z.pow_le_mono_r; lia).
          change (2 ^ 1) with 2 in *. nia.
      + replace (Z.min (-53 - ey) (-52)) with (-52) by lia.
        replace (-53 - ey - -52) with (-1 - ey) by lia.
        replace (-52 - -52) with 0 by lia. rewrite Z.pow_0_r.
        assert (2 ^ (- ey) <= 2 ^ (dy - 1)) by (apply Z.pow_le_mono_r; lia).
        replace (- ey) with ((-1 - ey) + 1) in H by lia.
        rewrite Z.pow_add_r in H by lia. change (2 ^ 1) with 2 in H.
        pose proof (pow2_pos (-1 - ey) ltac:(lia)). nia. }
  unfold IEEE.div in Hw. cbn [IEEE.prec IEEE.emax IEEE.binary64] in Hw.
  rewrite Hw in Hle. destruct Hle as [H|(m & e & H & _ & He & Hm)]; [discriminate|].
  injection H as <- <-. split; [lia|].
  replace (- ew) with ((-52 - ew) + 52) by lia.
  rewrite Z.pow_add_r by lia. change (2 ^ 52) with 4503599627370496. lia.
Qed.

(** The value [gather] returns is at most the rank, a positive float. *)
Lemma gather_formula_at_most (n : nat) (mr : positive) (er : Z) :
  (1 <= n)%nat -> Z.of_nat n <= size_t_max ->
  bounded 24 128 mr er = true ->
  at_most 24 128
    (gather_formula (RESET_PROB initial_globals) n (S754_finite false mr er))
    mr er.
Proof.
  intros Hlo Hhi Hb. unfold gather_formula.
  destruct (weight_at_most_one n Hlo Hhi) as (mw & ew & -> & Hew & Hmw).
  destruct (float_to_double_finite false mr er Hb) as (k & Hk & Hrd).
  pose proof (convert_valid64 (S754_finite false mr er)) as Hkb.
  fold (float_to_double (S754_finite false mr er)) in Hkb. rewrite Hrd in *.
  cbn [IEEE.valid IEEE.prec IEEE.emax IEEE.binary64 valid_binary] in Hkb.
  destruct (bounded_digits 24 128 eq_refl eq_refl mr er Hb) as (_ & Hdr & _).
  set (dr := Zpos (digits2_pos mr)) in *.
  set (ek := dr + er - 53) in *.
  assert (Hdk : Zpos (digits2_pos k) = 53).
  { change (Zpos (digits2_pos k)) with (Zdigits2 (Zpos k)).
    rewrite Hk, Zdigits2_mul_pow2 by lia. cbn [Zdigits2]. fold dr. lia. }
  destruct (SFmul_le 53 1024 eq_refl eq_refl mw ew k ek Hew Hmw Hkb Hdk)
    as [H0|(mp & ep & Hp & _ & Hep & Hmp)];
    unfold IEEE.mul; cbn [IEEE.prec IEEE.emax IEEE.binary64].
  - rewrite H0. left. reflexivity.
  - rewrite Hp. cbn [double_to_float IEEE.convert IEEE.prec IEEE.emax IEEE.binary32].
    apply (binary_round_le 24 128 eq_refl eq_refl); [exact Hb|subst ek; lia|].
    eapply Z.le_trans; [exact Hmp|]. rewrite Hk, <- Z.mul_assoc, <- Z.pow_add_r by lia.
    replace (53 - dr + (ek - ep)) with (er - ep) by (subst ek; lia). lia.
Qed.

(** * The claims *)

(** C1.  For every edge [e] that is an in-edge of a vertex [v],
    [gather(v, e)] returns [((1 - RESET_PROB) / out_degree(e.source)) *
    rank(e.source)]: the difference, the quotient and the product are on
    doubles and the value returned is the product as a float.
    [RESET_PROB] is 0.15 as a float: 10066330 * 2^-26, within half a unit
    in the last place of 15/100. *)
Theorem C1_gather_returns_formula (G : globals) (w : world)
    (v : vertex_id_type) (e : edge_type) :
  e ∈ in_edges (graph w) v →
  result (gather G v e) w
    = gather_formula (RESET_PROB G) (out_degree (graph w) (source e))
        (rank w (source e))
  ∧ RESET_PROB initial_globals = double_to_float (double_literal 15 100)
  ∧ within_half_ulp 15 100 (RESET_PROB initial_globals).
Proof.
  intros _. split; [|split].
  - unfold result. rewrite gather_run. reflexivity.
  - reflexivity.
  - rewrite RESET_PROB_value. cbn. lia.
Qed.

Lemma C1_gather_returns_formula_witness :
  result (gather initial_globals 0%nat (Edge 2%nat 0%nat)) cycle3_world
    = gather_formula (RESET_PROB initial_globals)
        (out_degree (graph cycle3_world) 2%nat) (rank cycle3_world 2%nat)
  ∧ RESET_PROB initial_globals = double_to_float (double_literal 15 100)
  ∧ within_half_ulp 15 100 (RESET_PROB initial_globals).
Proof.
  apply (C1_gather_returns_formula initial_globals cycle3_world 0%nat
           (Edge 2%nat 0%nat)).
  apply list_elem_of_In. vm_compute. auto.
Defined.

(** C2.  For every vertex [v] and every gathered sum [s] (a float),
    [apply(v, s)] computes [new_rank = s + RESET_PROB], sets the last
    change of [v] to [|new_rank - rank|] with the rank of [v] from before
    the update, and sets the rank of [v] to [new_rank]: the store into the
    float rank loses nothing of it. *)
Theorem C2_apply_updates_vertex (G : globals) (w : world)
    (v : vertex_id_type) (s : float) :
  IEEE.valid IEEE.binary32 s = true →
  IEEE.valid IEEE.binary32 (RESET_PROB G) = true →
  let w' := effect (apply G v s) w in
  last_change_of w' v
    = fabs (IEEE.sub IEEE.binary64 (new_rank (RESET_PROB G) s)
              (float_to_double (rank w v)))
  ∧ float_to_double (rank w' v) = new_rank (RESET_PROB G) s
  ∧ rank w' v = IEEE.add IEEE.binary32 s (RESET_PROB G).
Proof.
  intros Hs HG w'. subst w'.
  rewrite last_change_after_apply, rank_after_apply.
  assert (Hrt : double_to_float (new_rank (RESET_PROB G) s)
                = IEEE.add IEEE.binary32 s (RESET_PROB G)).
  { unfold new_rank. apply float_to_double_to_float.
    exact (SFadd_valid 24 128 eq_refl eq_refl s (RESET_PROB G) Hs HG). }
  split; [reflexivity|]. rewrite Hrt. split; reflexivity.
Qed.

Lemma C2_apply_updates_vertex_witness :
  let w' := effect (apply initial_globals 0%nat (double_to_float (double_literal 85 100)))
              cycle3_world in
  last_change_of w' 0%nat
    = fabs (IEEE.sub IEEE.binary64
              (new_rank (RESET_PROB initial_globals)
                 (double_to_float (double_literal 85 100)))
              (float_to_double (rank cycle3_world 0%nat)))
  ∧ float_to_double (rank w' 0%nat)
    = new_rank (RESET_PROB initial_globals) (double_to_float (double_literal 85 100))
  ∧ rank w' 0%nat
    = IEEE.add IEEE.binary32 (double_to_float (double_literal 85 100))
        (RESET_PROB initial_globals).
Proof.
  apply (C2_apply_updates_vertex initial_globals cycle3_world 0%nat
           (double_to_float (double_literal 85 100))); vm_compute; reflexivity.
Defined.

(** C3.  [gather] is never invoked on an edge whose source has
    out-degree 0, and never divides by zero.  The engine invokes [gather]
    on the in-edges of a vertex only, and the source of an in-edge has the
    edge among its out-edges: in the call [gather(v, e)] on an in-edge [e]
    the divisor [edge.source().num_out_edges()] is a positive finite
    double, and with a finite positive rank of the source what [gather]
    returns is +0 or a finite positive float, not the infinity a division
    by zero gives.  A vertex [u] of out-degree 0 is the source of no edge
    [gather] is invoked on, for any vertex, and contributes nothing to any
    gathered sum: whatever is stored as its rank, the sum gathered for
    every vertex is the same.  ([gather] has no guard of its own: it does
    not return 0 for such a source.) *)
Theorem C3_zero_out_degree_never_gathered (G : globals) (w : world)
    (v v' u : vertex_id_type) (e : edge_type) (x : double) :
  e ∈ in_edges (graph w) v →
  Z.of_nat (num_out_edges (graph w) (source e)) <= size_t_max →
  num_out_edges (graph w) u = 0%nat →
  (∃ m ex,
     size_t_to_double (num_out_edges (graph w) (source e))
     = S754_finite false m ex
     ∧ result (gather G v e) w
       = double_to_float
           (IEEE.mul IEEE.binary64
              (IEEE.div IEEE.binary64
                 (IEEE.sub IEEE.binary64 one (float_to_double (RESET_PROB G)))
                 (S754_finite false m ex))
              (float_to_double (rank w (source e)))))
  ∧ (∀ mr er, rank w (source e) = S754_finite false mr er →
       bounded 24 128 mr er = true →
       result (gather initial_globals v e) w = pzero
       ∨ ∃ m' e', result (gather initial_globals v e) w = S754_finite false m' e')
  ∧ source e ≠ u
  ∧ result (gather_sum G v') w
    = foldl (λ a e', IEEE.add IEEE.binary32 a (result (gather G v' e') w)) pzero
        (in_edges (graph w) v')
  ∧ (∀ e', e' ∈ in_edges (graph w) v' →
       source e' ≠ u ∧ (1 <= num_out_edges (graph w) (source e'))%nat)
  ∧ result (gather_sum G v') (effect (set_data u x) w)
    = result (gather_sum G v') w.
Proof.
  intros He Hmax Hu.
  assert (Hsrc : ∀ v0 e0, e0 ∈ in_edges (graph w) v0 →
            source e0 ≠ u ∧ (1 <= num_out_edges (graph w) (source e0))%nat).
  { intros v0 e0 He0. apply in_edges_edges in He0 as [He0 _].
    pose proof (num_out_edges_source (graph w) e0 He0) as Hpos.
    split; [|exact Hpos]. intros Heq. rewrite Heq, Hu in Hpos. lia. }
  destruct (Hsrc v e He) as [Hne H1].
  split; [|split; [|split; [exact Hne|split; [|split; [apply Hsrc|]]]]].
  - destruct (size_t_to_double_finite _ H1 Hmax) as (m & ex & Hm & _).
    exists m, ex. split; [exact Hm|].
    unfold result. rewrite gather_run. cbn [fst].
    unfold gather_formula, out_degree.
    fold (num_out_edges (graph w) (source e)). rewrite Hm. reflexivity.
  - intros mr er Hr Hb. unfold result. rewrite gather_run. cbn [fst].
    unfold out_degree. fold (num_out_edges (graph w) (source e)). rewrite Hr.
    destruct (gather_formula_at_most _ mr er H1 Hmax Hb)
      as [->|(m' & e' & -> & _)]; [left; reflexivity|right; eauto].
  - unfold result. rewrite gather_sum_run. reflexivity.
  - unfold result, gather_sum.
    rewrite !gather_edges_run. cbn [fst].
    change (in_edges (graph (effect (set_data u x) w)) v')
      with (in_edges (graph w) v').
    apply foldl_ext_elem. intros a e' He'. f_equal.
    unfold result. rewrite !gather_run. cbn [fst].
    change (out_degree (graph (effect (set_data u x) w)) (source e'))
      with (out_degree (graph w) (source e')).
    f_equal. unfold rank, result, data, effect, set_data. cbn [fst snd graph vdata].
    apply lookup_total_insert_ne. intros Heq.
    destruct (Hsrc v' e' He') as [Hne' _]. apply Hne'. symmetry. exact Heq.
Qed.

Lemma C3_zero_out_degree_never_gathered_witness :
  let G := initial_globals in
  let g := Graph (<[0%nat := pzero]> (<[1%nat := pzero]> ∅)) [Edge 0%nat 1%nat] in
  let w := World (transform_vertices init_vertex g) ∅ ∅ in
  let e := Edge 0%nat 1%nat in
  let x := double_literal 5 1 in
  1%nat ∈ dom (vdata (graph w))
  ∧ (∃ m ex,
       size_t_to_double (num_out_edges (graph w) (source e))
       = S754_finite false m ex
       ∧ result (gather G 1%nat e) w
         = double_to_float
             (IEEE.mul IEEE.binary64
                (IEEE.div IEEE.binary64
                   (IEEE.sub IEEE.binary64 one (float_to_double (RESET_PROB G)))
                   (S754_finite false m ex))
                (float_to_double (rank w (source e)))))
  ∧ (∀ mr er, rank w (source e) = S754_finite false mr er →
       bounded 24 128 mr er = true →
       result (gather initial_globals 1%nat e) w = pzero
       ∨ ∃ m' e', result (gather initial_globals 1%nat e) w
                  = S754_finite false m' e')
  ∧ source e ≠ 1%nat
  ∧ result (gather_sum G 1%nat) w
    = foldl (λ a e', IEEE.add IEEE.binary32 a (result (gather G 1%nat e') w)) pzero
        (in_edges (graph w) 1%nat)
  ∧ (∀ e', e' ∈ in_edges (graph w) 1%nat →
       source e' ≠ 1%nat ∧ (1 <= num_out_edges (graph w) (source e'))%nat)
  ∧ result (gather_sum G 1%nat) (effect (set_data 1%nat x) w)
    = result (gather_sum G 1%nat) w.
Proof.
  intros G g w e x. split; [apply (bool_decide_unpack _); vm_compute; exact I|].
  apply (C3_zero_out_degree_never_gathered G w 1%nat 1%nat 1%nat e x).
  - apply list_elem_of_In. vm_compute. auto.
  - vm_compute. discriminate.
  - vm_compute. reflexivity.
Defined.

(** C4.  [scatter_edges(v)] returns OUT_EDGES if and only if the last
    change of [v] is strictly greater than the threshold 1e-2, and
    NO_EDGES otherwise; a last change equal to the threshold, which is
    greater or equal but not greater, gives NO_EDGES.  The threshold is
    the double nearest to 1/100, 5764607523034235 * 2^-59, and for a
    finite positive last change [m * 2^e] the comparison is the strict
    order of the two values. *)
Theorem C4_scatter_edges_strict (w : world) (v : vertex_id_type) :
  (result (scatter_edges v) w = OUT_EDGES
   ↔ IEEE.gt (last_change_of w v) threshold = true)
  ∧ (result (scatter_edges v) w = NO_EDGES
     ↔ IEEE.gt (last_change_of w v) threshold = false)
  ∧ (last_change_of w v = threshold →
     IEEE.ge (last_change_of w v) threshold = true
     ∧ result (scatter_edges v) w = NO_EDGES)
  ∧ (∀ m e, last_change_of w v = S754_finite false m e →
       bounded 53 1024 m e = true →
       (result (scatter_edges v) w = OUT_EDGES
        ↔ 5764607523034235 * 2 ^ (-59 - Z.min (-59) e)
          < Zpos m * 2 ^ (e - Z.min (-59) e)))
  ∧ within_half_ulp 1 100 threshold.
Proof.
  assert (Hrun : result (scatter_edges v) w
                 = if IEEE.gt (last_change_of w v) threshold
                   then OUT_EDGES else NO_EDGES) by reflexivity.
  rewrite Hrun. split; [|split; [|split; [|split]]].
  - destruct (IEEE.gt (last_change_of w v) threshold); split; congruence.
  - destruct (IEEE.gt (last_change_of w v) threshold); split; congruence.
  - intros ->. split; vm_compute; reflexivity.
  - intros m e Hlc Hb. rewrite Hlc, threshold_value. unfold IEEE.gt.
    rewrite <- (SFltb_finite 53 1024 eq_refl eq_refl 5764607523034235 m (-59) e
                  eq_refl Hb).
    destruct (SFltb (S754_finite false 5764607523034235 (-59)) (S754_finite false m e));
      split; congruence.
  - rewrite threshold_value. cbn. lia.
Qed.

(** C5.  On the 3-vertex directed cycle A→B→C→A, with every rank set to
    1.0 by [init_vertex] and RESET_PROB = 0.15: every vertex has
    out-degree 1; in round 1 the sum gathered for every vertex is 0.85
    (as a float), after the round every rank is exactly 1.0, every last
    change is 0 and [scatter_edges] returns NO_EDGES for every vertex; the
    active set after round 1 is empty, and the engine stops after this one
    round with 3 updates, [main] returning EXIT_SUCCESS. *)
Theorem C5_cycle_round_one :
  let G := initial_globals in
  let active : gset vertex_id_type := dom (vdata (graph cycle3_world)) in
  let w' := effect (round G active) cycle3_world in
  active = list_to_set [0%nat; 1%nat; 2%nat]
  ∧ Forall (λ v, out_degree cycle3 v = 1%nat
                 ∧ rank cycle3_world v = double_to_float one
                 ∧ result (gather_sum G v) cycle3_world
                   = double_to_float (double_literal 85 100)
                 ∧ rank w' v = double_to_float one
                 ∧ last_change_of w' v = pzero
                 ∧ result (scatter_edges v) w' = NO_EDGES)
      [0%nat; 1%nat; 2%nat]
  ∧ result (round G active) cycle3_world = ∅
  ∧ result (start G 1 active 0) cycle3_world = Some 3%nat
  ∧ main G (Environment true cycle3) 1 = returned_at_end EXIT_SUCCESS 3 w'
  ∧ within_half_ulp 85 100 (double_to_float (double_literal 85 100)).
Proof.
  cbv zeta. split; [|split; [|split; [|split; [|split]]]].
  - vm_compute. reflexivity.
  - repeat constructor; vm_compute; reflexivity.
  - vm_compute. reflexivity.
  - vm_compute. reflexivity.
  - vm_compute. reflexivity.
  - rewrite float_085_value. cbn. lia.
Qed.

(** C6.  Every rank is nonnegative after initialization and stays so:
    [init_vertex] sets the rank to 1.0, so every rank of the world the
    engine starts in is nonnegative; [gather] returns a nonnegative value
    when the ranks are nonnegative and the out-degree of the source is at
    least 1; [apply] on a nonnegative gathered sum sets a rank that is at
    least RESET_PROB and leaves every rank nonnegative; and so do a round
    and a whole run of the engine. *)
Theorem C6_rank_nonnegative (w : world) (v : vertex_id_type) (e : edge_type)
    (s : float) (d : vertex_data_type) (g : graph_type) (fuel : nat)
    (active : gset vertex_id_type) (updates : nat) :
  (∀ u, IEEE.ge (rank w u) pzero = true) →
  (1 <= num_out_edges (graph w) (source e))%nat →
  Z.of_nat (length (edges (graph w))) <= size_t_max →
  IEEE.valid IEEE.binary32 s = true →
  IEEE.ge s pzero = true →
  (init_vertex d = double_to_float one ∧ IEEE.ge (init_vertex d) pzero = true)
  ∧ (∀ u, IEEE.ge (rank (World (transform_vertices init_vertex g) ∅ ∅) u) pzero
          = true)
  ∧ IEEE.ge (result (gather initial_globals v e) w) pzero = true
  ∧ IEEE.ge (rank (effect (apply initial_globals v s) w) v)
            (RESET_PROB initial_globals) = true
  ∧ (∀ u, IEEE.ge (rank (effect (apply initial_globals v s) w) u) pzero = true)
  ∧ (∀ u, IEEE.ge (rank (effect (round initial_globals active) w) u) pzero = true)
  ∧ (∀ u, IEEE.ge (rank (effect (start initial_globals fuel active updates) w) u)
            pzero = true).
Proof.
  intros Hranks Hdeg Hsize Hvalid Hs.
  rewrite ge_zero_nonneg in Hs.
  assert (Hranks' : ∀ u, is_nonneg (rank w u) = true).
  { intros u. rewrite <- ge_zero_nonneg. apply Hranks. }
  split; [split; vm_compute; reflexivity|].
  split; [intros u; rewrite ge_zero_nonneg; apply startup_rank_nonneg|].
  split; [|split; [|split; [|split]]].
  - rewrite ge_zero_nonneg. unfold result. rewrite gather_run. cbn [fst].
    apply gather_formula_nonneg; [exact Hdeg| |apply Hranks'].
    pose proof (num_out_edges_le_edges (graph w) (source e)).
    unfold out_degree. unfold num_out_edges in *. lia.
  - rewrite rank_after_apply, new_rank_narrowed;
      [|exact Hvalid|vm_compute; reflexivity].
    rewrite RESET_PROB_value. unfold IEEE.ge.
    apply (SFadd_nonneg_ge 24 128 eq_refl eq_refl); [exact Hs|reflexivity].
  - intros u. rewrite ge_zero_nonneg. apply apply_rank_nonneg; assumption.
  - intros u. rewrite ge_zero_nonneg. apply round_nonneg; assumption.
  - intros u. rewrite ge_zero_nonneg. apply start_nonneg; assumption.
Qed.

Lemma C6_rank_nonnegative_witness :
  let G := initial_globals in
  let w := cycle3_world in
  let s := double_to_float (double_literal 85 100) in
  let active : gset vertex_id_type := {[ 0%nat; 1%nat; 2%nat ]} in
  (init_vertex pzero = double_to_float one ∧ IEEE.ge (init_vertex pzero) pzero = true)
  ∧ (∀ u, IEEE.ge (rank (World (transform_vertices init_vertex cycle3) ∅ ∅) u) pzero
          = true)
  ∧ IEEE.ge (result (gather G 0%nat (Edge 2%nat 0%nat)) w) pzero = true
  ∧ IEEE.ge (rank (effect (apply G 0%nat s) w) 0%nat) (RESET_PROB G) = true
  ∧ (∀ u, IEEE.ge (rank (effect (apply G 0%nat s) w) u) pzero = true)
  ∧ (∀ u, IEEE.ge (rank (effect (round G active) w) u) pzero = true)
  ∧ (∀ u, IEEE.ge (rank (effect (start G 1 active 0) w) u) pzero = true).
Proof.
  apply (C6_rank_nonnegative cycle3_world 0%nat (Edge 2%nat 0%nat)
           (double_to_float (double_literal 85 100)) pzero cycle3 1
           {[ 0%nat; 1%nat; 2%nat ]} 0%nat).
  - intros u. rewrite ge_zero_nonneg. apply startup_rank_nonneg.
  - vm_compute. lia.
  - vm_compute. discriminate.
  - vm_compute. reflexivity.
  - vm_compute. reflexivity.
Defined.


(** C8, as the code has it.  The rank is a 32-bit float and the last
    change a 64-bit double: whatever is stored into a rank, by
    [init_vertex], by an assignment or by [apply], is a binary32 number;
    the last change [apply] sets is a binary64 number, and a double stored
    into the last change is read back as it is. *)
Theorem C8_rank_float_last_change_double (G : globals) (w : world)
    (v : vertex_id_type) (s : float) (d : vertex_data_type) :
  vertex_data_format = IEEE.binary32
  ∧ last_change_format = IEEE.binary64
  ∧ IEEE.valid vertex_data_format (init_vertex d) = true
  ∧ (∀ x : double, IEEE.valid vertex_data_format (rank (effect (set_data v x) w) v)
                   = true)
  ∧ IEEE.valid vertex_data_format (rank (effect (apply G v s) w) v) = true
  ∧ IEEE.valid last_change_format (last_change_of (effect (apply G v s) w) v) = true
  ∧ last_change_keeps_doubles.
Proof.
  split; [reflexivity|]. split; [reflexivity|]. split; [vm_compute; reflexivity|].
  split; [|split; [|split]].
  - intros x. unfold rank, result, effect, data, set_data. cbn [fst snd graph vdata].
    rewrite lookup_total_insert_eq. apply convert_valid32.
  - rewrite rank_after_apply. apply convert_valid32.
  - rewrite last_change_after_apply. unfold fabs.
    apply (SFabs_valid 53 1024 eq_refl eq_refl).
    apply (SFsub_valid 53 1024 eq_refl eq_refl); apply convert_valid64.
  - intros w0 v0 x _. unfold last_change_of, result, effect, get_last_change,
      set_last_change. cbn [fst snd programs].
    rewrite lookup_total_insert_eq. reflexivity.
Qed.

(** C8, as stated, fails for the rank: the double 0.15, stored into the
    rank of a vertex and read back, is another number, the float nearest
    to 0.15. *)
Lemma C8_rank_is_not_float64 :
  vertex_data_format ≠ IEEE.binary64
  ∧ IEEE.valid IEEE.binary64 (double_literal 15 100) = true
  ∧ float_to_double (rank (effect (set_data 0%nat (double_literal 15 100))
                             cycle3_world) 0%nat)
    ≠ double_literal 15 100
  ∧ ¬ (rank_keeps_doubles ∧ last_change_keeps_doubles).
Proof.
  split; [discriminate|]. split; [vm_compute; reflexivity|]. split.
  - vm_compute. discriminate.
  - intros [H _].
    specialize (H cycle3_world 0%nat (double_literal 15 100)).
    vm_compute in H. specialize (H eq_refl). discriminate.
Qed.

(** C9.  Only [apply] mutates vertex state, and only that of the vertex
    it is invoked on: [apply(v, s)] leaves the rank and the last change
    of every other vertex [u] as they are, as well as the edges and the
    signals; [gather] and [scatter_edges] leave the whole state as it is;
    [scatter] leaves the graph (every rank) and every last change as they
    are and only signals the target of the edge. *)
Theorem C9_only_apply_mutates (G : globals) (w : world)
    (v u : vertex_id_type) (s : float) (e : edge_type) :
  u ≠ v →
  rank (effect (apply G v s) w) u = rank w u
  ∧ last_change_of (effect (apply G v s) w) u = last_change_of w u
  ∧ edges (graph (effect (apply G v s) w)) = edges (graph w)
  ∧ signalled (effect (apply G v s) w) = signalled w
  ∧ effect (gather G v e) w = w
  ∧ effect (scatter_edges v) w = w
  ∧ graph (effect (scatter v e) w) = graph w
  ∧ programs (effect (scatter v e) w) = programs w
  ∧ signalled (effect (scatter v e) w) = {[ target e ]} ∪ signalled w.
Proof.
  intros Hne.
  split; [apply rank_after_apply_ne; exact Hne|].
  split; [apply last_change_after_apply_ne; exact Hne|].
  unfold effect. rewrite apply_run, gather_run. cbn [snd graph edges signalled].
  repeat split.
Qed.

Lemma C9_only_apply_mutates_witness :
  let s := double_to_float (double_literal 85 100) in
  let w := cycle3_world in
  let e := Edge 2%nat 0%nat in
  rank (effect (apply initial_globals 0%nat s) w) 1%nat = rank w 1%nat
  ∧ last_change_of (effect (apply initial_globals 0%nat s) w) 1%nat
    = last_change_of w 1%nat
  ∧ edges (graph (effect (apply initial_globals 0%nat s) w)) = edges (graph w)
  ∧ signalled (effect (apply initial_globals 0%nat s) w) = signalled w
  ∧ effect (gather initial_globals 0%nat e) w = w
  ∧ effect (scatter_edges 0%nat) w = w
  ∧ graph (effect (scatter 0%nat e) w) = graph w
  ∧ programs (effect (scatter 0%nat e) w) = programs w
  ∧ signalled (effect (scatter 0%nat e) w) = {[ target e ]} ∪ signalled w.
Proof.
  apply (C9_only_apply_mutates initial_globals cycle3_world 0%nat 1%nat
           (double_to_float (double_literal 85 100)) (Edge 2%nat 0%nat)).
  lia.
Defined.

(** C10.  What [gather(v, e)] returns depends only on the rank and the
    out-degree of the source of [e] (and on RESET_PROB): in two states
    that agree on these two, whatever the vertex [v], its rank and the
    rest of the state, [gather] returns equal values. *)
Theorem C10_gather_reads_source_only (G : globals) (w1 w2 : world)
    (v1 v2 : vertex_id_type) (e : edge_type) :
  rank w1 (source e) = rank w2 (source e) →
  out_degree (graph w1) (source e) = out_degree (graph w2) (source e) →
  result (gather G v1 e) w1 = result (gather G v2 e) w2.
Proof.
  intros Hrank Hdeg. unfold result. rewrite !gather_run. cbn [fst].
  rewrite Hrank, Hdeg. reflexivity.
Qed.

(** A second state for the cycle: other ranks for the vertices 0 and 1,
    one more vertex and one more edge, a last change and a signal. *)
Lemma C10_gather_reads_source_only_witness :
  let w2 :=
    World (Graph (<[0%nat := double_to_float (double_literal 7 2)]>
                    (<[1%nat := pzero]>
                       (<[3%nat := S754_nan]> (vdata (graph cycle3_world)))))
                 (Edge 0%nat 3%nat :: edges (graph cycle3_world)))
          (<[0%nat := Pagerank one]> ∅) {[ 1%nat ]} in
  result (gather initial_globals 0%nat (Edge 2%nat 0%nat)) cycle3_world
  = result (gather initial_globals 1%nat (Edge 2%nat 0%nat)) w2.
Proof.
  apply C10_gather_reads_source_only; vm_compute; reflexivity.
Defined.

(** * Further properties of the program *)

(** ** The phases of a round, vertex by vertex *)

(** The apply phase leaves the edges and the signals as they are; the
    vertices it does not run for keep their rank and last change, and the
    others get what [apply] gives them on the state before the phase. *)
Lemma apply_phase_frame (G : globals) (totals : list (vertex_id_type * float)) : ∀ w,
  edges (graph (effect (apply_phase G totals) w)) = edges (graph w)
  ∧ signalled (effect (apply_phase G totals) w) = signalled w.
Proof.
  induction totals as [|[v t] ts IH]; intros w; [split; reflexivity|].
  unfold effect in *. cbn [apply_phase]. unfold bind. rewrite apply_run.
  destruct (IH (World (Graph (<[v := double_to_float (new_rank (RESET_PROB G) t)]>
                                (vdata (graph w))) (edges (graph w)))
                  (<[v := Pagerank (fabs (IEEE.sub IEEE.binary64
                                            (new_rank (RESET_PROB G) t)
                                            (float_to_double (rank w v))))]>
                     (programs w))
                  (signalled w))) as [H1 H2].
  split; [rewrite H1|rewrite H2]; reflexivity.
Qed.

Lemma apply_phase_notin (G : globals) (totals : list (vertex_id_type * float)) :
  ∀ w u, u ∉ totals.*1 →
  rank (effect (apply_phase G totals) w) u = rank w u
  ∧ last_change_of (effect (apply_phase G totals) w) u = last_change_of w u.
Proof.
  induction totals as [|[v t] ts IH]; intros w u Hu; [split; reflexivity|].
  cbn [fmap list_fmap fst] in Hu. apply not_elem_of_cons in Hu as [Hne Hu].
  pose proof (rank_after_apply_ne G v u t w Hne) as H1.
  pose proof (last_change_after_apply_ne G v u t w Hne) as H2.
  unfold effect in *. cbn [apply_phase]. unfold bind.
  destruct (apply G v t w) as [[] w1]. cbn [snd] in *.
  destruct (IH w1 u Hu) as [H3 H4]. rewrite H3, H4. split; assumption.
Qed.

Lemma apply_phase_in (G : globals) (totals : list (vertex_id_type * float)) :
  ∀ w v t, NoDup totals.*1 → (v, t) ∈ totals →
  rank (effect (apply_phase G totals) w) v
    = double_to_float (new_rank (RESET_PROB G) t)
  ∧ last_change_of (effect (apply_phase G totals) w) v
    = fabs (IEEE.sub IEEE.binary64 (new_rank (RESET_PROB G) t)
              (float_to_double (rank w v))).
Proof.
  induction totals as [|[v' t'] ts IH]; intros w v t Hnd Hin;
    [inversion Hin|].
  cbn [fmap list_fmap fst] in Hnd. apply NoDup_cons in Hnd as [Hv' Hnd].
  apply elem_of_cons in Hin as [Heq|Hin].
  - injection Heq as -> ->.
    pose proof (rank_after_apply G v' t' w) as H1.
    pose proof (last_change_after_apply G v' t' w) as H2.
    pose proof (apply_phase_notin G ts (effect (apply G v' t') w) v' Hv') as [H3 H4].
    unfold effect in *. cbn [apply_phase]. unfold bind.
    destruct (apply G v' t' w) as [[] w1]. cbn [snd] in *.
    rewrite H3, H4. split; assumption.
  - assert (Hne : v ≠ v').
    { intros ->. apply Hv'. apply list_elem_of_fmap. exists (v', t). split; [reflexivity|exact Hin]. }
    pose proof (rank_after_apply_ne G v' v t' w Hne) as H1.
    pose proof (IH (effect (apply G v' t') w) v t Hnd Hin) as [H3 H4].
    unfold effect in *. cbn [apply_phase]. unfold bind.
    destruct (apply G v' t' w) as [[] w1]. cbn [snd] in *.
    rewrite H3, H4, H1. split; reflexivity.
Qed.

(** What the scatter phase signals, edge by edge and vertex by vertex. *)
Lemma scatter_over_spec (v : vertex_id_type) (es : list edge_type) : ∀ w,
  graph (effect (scatter_over v es) w) = graph w
  ∧ programs (effect (scatter_over v es) w) = programs w
  ∧ ∀ u, u ∈ signalled (effect (scatter_over v es) w)
         ↔ u ∈ signalled w ∨ ∃ e, e ∈ es ∧ target e = u.
Proof.
  induction es as [|e es IH]; intros w.
  - split; [reflexivity|split; [reflexivity|]]. intros u. cbn. split; [auto|].
    intros [H|(e & He & _)]; [exact H|inversion He].
  - unfold effect in *. cbn [scatter_over]. unfold bind, scatter, signal.
    destruct (IH (World (graph w) (programs w) ({[target e]} ∪ signalled w)))
      as (H1 & H2 & H3).
    split; [exact H1|split; [exact H2|]]. intros u. rewrite H3. cbn [signalled].
    rewrite elem_of_union, elem_of_singleton. split.
    + intros [[->|H]|(e' & He' & Hu)]; [right; exists e; split; [left|reflexivity]
                                        |left; exact H
                                        |right; exists e'; split; [right; exact He'|exact Hu]].
    + intros [H|(e' & He' & Hu)]; [left; right; exact H|].
      apply elem_of_cons in He' as [->|He']; [left; left; symmetry; exact Hu|].
      right. exists e'. split; assumption.
Qed.

Lemma scatter_vertex_spec (v : vertex_id_type) (w : world) :
  graph (effect (scatter_vertex v) w) = graph w
  ∧ programs (effect (scatter_vertex v) w) = programs w
  ∧ ∀ u, u ∈ signalled (effect (scatter_vertex v) w)
         ↔ u ∈ signalled w
           ∨ (IEEE.gt (last_change_of w v) threshold = true
              ∧ ∃ e, e ∈ out_edges (graph w) v ∧ target e = u).
Proof.
  assert (Hrun : scatter_vertex v w
                 = scatter_over v
                     (if IEEE.gt (last_change_of w v) threshold
                      then out_edges (graph w) v else []) w).
  { unfold scatter_vertex, scatter_edges, bind, get_last_change, ret,
      selected_edges, last_change_of, result.
    cbn [fst]. destruct (IEEE.gt _ threshold); reflexivity. }
  unfold effect. rewrite Hrun.
  destruct (scatter_over_spec v
              (if IEEE.gt (last_change_of w v) threshold
               then out_edges (graph w) v else []) w) as (H1 & H2 & H3).
  unfold effect in *. split; [exact H1|split; [exact H2|]].
  intros u. rewrite H3. destruct (IEEE.gt (last_change_of w v) threshold).
  - split; intros [H|H]; auto. right. apply H.
  - split; [intros [H|(e & He & _)]; [left; exact H|inversion He]|].
    intros [H|[H _]]; [left; exact H|discriminate].
Qed.

Lemma scatter_phase_spec (vs : list vertex_id_type) : ∀ w,
  graph (effect (scatter_phase vs) w) = graph w
  ∧ programs (effect (scatter_phase vs) w) = programs w
  ∧ ∀ u, u ∈ signalled (effect (scatter_phase vs) w)
         ↔ u ∈ signalled w
           ∨ ∃ v, v ∈ vs ∧ IEEE.gt (last_change_of w v) threshold = true
                  ∧ ∃ e, e ∈ out_edges (graph w) v ∧ target e = u.
Proof.
  induction vs as [|v vs IH]; intros w.
  - split; [reflexivity|split; [reflexivity|]]. intros u. cbn. split; [auto|].
    intros [H|(v & Hv & _)]; [exact H|inversion Hv].
  - destruct (scatter_vertex_spec v w) as (H1 & H2 & H3).
    destruct (IH (effect (scatter_vertex v) w)) as (H4 & H5 & H6).
    unfold effect in *. cbn [scatter_phase]. unfold bind.
    destruct (scatter_vertex v w) as [[] w1]. cbn [snd] in *.
    split; [rewrite H4; exact H1|split; [rewrite H5; exact H2|]].
    intros u. rewrite H6, H3. unfold last_change_of, result, get_last_change.
    cbn [fst]. rewrite H1, H2. split.
    + intros [[H|(Hgt & He)]|(v' & Hv' & Hgt & He)].
      * left; exact H.
      * right. exists v. split; [left|split; assumption].
      * right. exists v'. split; [right; exact Hv'|split; assumption].
    + intros [H|(v' & Hv' & Hgt & He)]; [left; left; exact H|].
      apply elem_of_cons in Hv' as [->|Hv'].
      * left. right. split; assumption.
      * right. exists v'. split; [exact Hv'|split; assumption].
Qed.

(** A round, phase by phase. *)
Lemma gather_sum_clear (G : globals) (v : vertex_id_type) (w : world)
    (s : gset vertex_id_type) :
  result (gather_sum G v) (World (graph w) (programs w) s)
  = result (gather_sum G v) w.
Proof. unfold result. rewrite !gather_sum_run. reflexivity. Qed.

Lemma round_run (G : globals) (w : world) (active : gset vertex_id_type) :
  let w0 := World (graph w) (programs w) ∅ in
  let w1 := effect (apply_phase G
                      (map (λ v, (v, result (gather_sum G v) w)) (elements active)))
              w0 in
  let w2 := effect (scatter_phase (elements active)) w1 in
  round G active w = (signalled w2, w2).
Proof.
  intros w0 w1 w2. subst w2 w1. unfold effect, round, bind, clear_signals. fold w0.
  rewrite gather_phase_run.
  rewrite (map_ext _ (λ v, (v, result (gather_sum G v) w)))
    by (intros v; unfold w0; rewrite gather_sum_clear; reflexivity).
  destruct (apply_phase G _ w0) as [[] w1]. cbn [snd].
  destruct (scatter_phase (elements active) w1) as [[] w2]. reflexivity.
Qed.

Lemma round_spec (G : globals) (w : world) (active : gset vertex_id_type) :
  let w' := effect (round G active) w in
  (∀ v, v ∈ active →
     rank w' v
       = double_to_float (new_rank (RESET_PROB G) (result (gather_sum G v) w))
     ∧ last_change_of w' v
       = fabs (IEEE.sub IEEE.binary64
                 (new_rank (RESET_PROB G) (result (gather_sum G v) w))
                 (float_to_double (rank w v))))
  ∧ (∀ v, v ∉ active →
       rank w' v = rank w v ∧ last_change_of w' v = last_change_of w v)
  ∧ edges (graph w') = edges (graph w)
  ∧ signalled w' = result (round G active) w
  ∧ (∀ u, u ∈ signalled w'
          ↔ ∃ v, v ∈ active ∧ IEEE.gt (last_change_of w' v) threshold = true
                 ∧ ∃ e, e ∈ out_edges (graph w) v ∧ target e = u).
Proof.
  intros w'. subst w'.
  set (w0 := World (graph w) (programs w) ∅).
  set (totals := map (λ v, (v, result (gather_sum G v) w)) (elements active)).
  set (w1 := effect (apply_phase G totals) w0).
  set (w2 := effect (scatter_phase (elements active)) w1).
  assert (Hw : effect (round G active) w = w2)
    by (unfold effect at 1; rewrite round_run; reflexivity).
  assert (Hr : result (round G active) w = signalled w2)
    by (unfold result; rewrite round_run; reflexivity).
  rewrite Hw, Hr. clear Hw Hr.
  assert (Hfst : totals.*1 = elements active).
  { subst totals. rewrite <- list_fmap_compose. apply list_fmap_id. }
  destruct (apply_phase_frame G totals w0) as [He Hs].
  destruct (scatter_phase_spec (elements active) w1) as (Hg & Hp & Hsig).
  fold w1 in He, Hs. fold w2 in Hg, Hp, Hsig.
  change (edges (graph w0)) with (edges (graph w)) in He.
  change (signalled w0) with (∅ : gset vertex_id_type) in Hs.
  assert (Hrank : ∀ v, rank w2 v = rank w1 v).
  { intros v. unfold rank, result, data. cbn [fst]. rewrite Hg. reflexivity. }
  assert (Hlc : ∀ v, last_change_of w2 v = last_change_of w1 v).
  { intros v. unfold last_change_of, result, get_last_change. cbn [fst].
    rewrite Hp. reflexivity. }
  split; [|split; [|split; [|split]]].
  - intros v Hv. rewrite Hrank, Hlc.
    apply (apply_phase_in G totals w0 v (result (gather_sum G v) w)).
    + rewrite Hfst. apply NoDup_elements.
    + subst totals. apply list_elem_of_fmap. exists v. split; [reflexivity|].
      apply elem_of_elements. exact Hv.
  - intros v Hv. rewrite Hrank, Hlc.
    apply (apply_phase_notin G totals w0 v).
    rewrite Hfst. rewrite elem_of_elements. exact Hv.
  - rewrite Hg. exact He.
  - reflexivity.
  - intros u. rewrite Hsig, Hs. cbn [signalled]. split.
    + intros [H|(v & Hv & Hgt & e & Hin & Hu)]; [set_solver|].
      exists v. rewrite Hlc. split; [apply elem_of_elements; exact Hv|].
      split; [exact Hgt|]. exists e. split; [|exact Hu].
      unfold out_edges in *. rewrite <- He. exact Hin.
    + intros (v & Hv & Hgt & e & Hin & Hu). right. exists v.
      split; [apply elem_of_elements; exact Hv|]. rewrite <- Hlc.
      split; [exact Hgt|]. exists e. split; [|exact Hu].
      unfold out_edges in *. rewrite He. exact Hin.
Qed.

(** X1.  A round updates the active vertices from the ranks at its start:
    the rank of an active vertex [v] becomes the gathered sum over the
    in-edges of [v], computed on the ranks before the round, plus
    RESET_PROB (the double, stored as a float), and its last change the
    distance of that new value to its rank before the round; a vertex
    that is not active keeps its rank and its last change, and the edges
    stay as they are. *)
Theorem round_updates_active_vertices (G : globals) (w : world)
    (active : gset vertex_id_type) (v : vertex_id_type) :
  let w' := effect (round G active) w in
  let total := result (gather_sum G v) w in
  (v ∈ active →
     rank w' v = double_to_float (new_rank (RESET_PROB G) total)
     ∧ last_change_of w' v
       = fabs (IEEE.sub IEEE.binary64 (new_rank (RESET_PROB G) total)
                 (float_to_double (rank w v))))
  ∧ (v ∉ active →
       rank w' v = rank w v ∧ last_change_of w' v = last_change_of w v)
  ∧ edges (graph w') = edges (graph w).
Proof.
  intros w' total.
  destruct (round_spec G w active) as (Hact & Hout & He & _).
  split; [apply Hact|]. split; [apply Hout|exact He].
Qed.

(** X2.  The vertices a round activates are the targets of the edges
    whose source was active in the round and has, after its update, a
    last change above the threshold: [scatter_edges] chooses the
    out-edges of exactly these sources and [scatter] signals the target of
    each of them. *)
Theorem round_signals_out_neighbours (G : globals) (w : world)
    (active : gset vertex_id_type) (u : vertex_id_type) :
  u ∈ result (round G active) w
  ↔ ∃ e, e ∈ edges (graph w) ∧ target e = u ∧ source e ∈ active
         ∧ IEEE.gt (last_change_of (effect (round G active) w) (source e))
             threshold = true.
Proof.
  destruct (round_spec G w active) as (_ & _ & _ & Hres & Hsig).
  rewrite <- Hres, Hsig. split.
  - intros (v & Hv & Hgt & e & He & Hu).
    apply list_elem_of_filter in He as [Hsrc He]. subst v.
    exists e. auto.
  - intros (e & He & Hu & Hsrc & Hgt). exists (source e).
    split; [exact Hsrc|]. split; [exact Hgt|]. exists e. split; [|exact Hu].
    apply list_elem_of_filter. split; [reflexivity|exact He].
Qed.

(** ** The vertex program on its own *)

(** A number minus itself is +0, or a NaN for an infinity or a NaN. *)
Lemma SFsub_diag (prec emax : Z) (x : spec_float) :
  SFabs (SFsub prec emax x x) = S754_zero false
  ∨ SFabs (SFsub prec emax x x) = S754_nan.
Proof.
  destruct x as [s|s| |s m e]; cbn [SFsub].
  - left. destruct s; reflexivity.
  - right. destruct s; reflexivity.
  - right. reflexivity.
  - left. rewrite Z.sub_diag. reflexivity.
Qed.

Lemma scatter_edges_run (v : vertex_id_type) (w : world) :
  result (scatter_edges v) w
  = if IEEE.gt (last_change_of w v) threshold then OUT_EDGES else NO_EDGES.
Proof. reflexivity. Qed.

(** X3.  A vertex whose update leaves its rank as it was does not signal:
    when [apply(v, s)] stores the rank that [v] already had, the last
    change it records is 0 (or a NaN, when the rank is infinite or a NaN)
    and [scatter_edges(v)] returns NO_EDGES. *)
Theorem unchanged_rank_does_not_signal (G : globals) (w : world)
    (v : vertex_id_type) (s : float) :
  IEEE.valid IEEE.binary32 s = true →
  IEEE.valid IEEE.binary32 (RESET_PROB G) = true →
  rank (effect (apply G v s) w) v = rank w v →
  (last_change_of (effect (apply G v s) w) v = pzero
   ∨ last_change_of (effect (apply G v s) w) v = S754_nan)
  ∧ result (scatter_edges v) (effect (apply G v s) w) = NO_EDGES.
Proof.
  intros Hs HG Hsame.
  rewrite rank_after_apply, new_rank_narrowed in Hsame by assumption.
  rewrite scatter_edges_run, last_change_after_apply, <- Hsame.
  change (float_to_double (IEEE.add IEEE.binary32 s (RESET_PROB G)))
    with (new_rank (RESET_PROB G) s).
  unfold fabs, IEEE.sub.
  destruct (SFsub_diag (IEEE.prec IEEE.binary64) (IEEE.emax IEEE.binary64)
              (new_rank (RESET_PROB G) s)) as [-> | ->];
    (split; [auto|reflexivity]).
Qed.

Lemma unchanged_rank_does_not_signal_witness :
  let s := double_to_float (double_literal 85 100) in
  let w' := effect (apply initial_globals 0%nat s) cycle3_world in
  (last_change_of w' 0%nat = pzero ∨ last_change_of w' 0%nat = S754_nan)
  ∧ result (scatter_edges 0%nat) w' = NO_EDGES.
Proof.
  apply (unchanged_rank_does_not_signal initial_globals cycle3_world 0%nat
           (double_to_float (double_literal 85 100)));
    vm_compute; reflexivity.
Defined.

(** X4.  A NaN is passed on without an error and stops the signalling:
    [gather] over an edge whose source has a NaN rank returns a NaN;
    [apply] with a NaN sum (or a NaN RESET_PROB) stores a NaN rank; and
    when the sum, RESET_PROB or the old rank is a NaN, the last change is
    a NaN and [scatter_edges] returns NO_EDGES, as every comparison with a
    NaN is false. *)
Theorem nan_stops_signalling (G : globals) (w : world) (v : vertex_id_type)
    (s : float) (e : edge_type) :
  (rank w (source e) = S754_nan → result (gather G v e) w = S754_nan)
  ∧ (s = S754_nan ∨ RESET_PROB G = S754_nan →
     rank (effect (apply G v s) w) v = S754_nan)
  ∧ (s = S754_nan ∨ RESET_PROB G = S754_nan ∨ rank w v = S754_nan →
     last_change_of (effect (apply G v s) w) v = S754_nan
     ∧ result (scatter_edges v) (effect (apply G v s) w) = NO_EDGES).
Proof.
  split; [|split].
  - intros Hnan. unfold result. rewrite gather_run. cbn [fst].
    unfold gather_formula. rewrite Hnan. cbn [float_to_double IEEE.convert].
    unfold IEEE.mul.
    destruct (IEEE.div _ _ _); reflexivity.
  - intros H. rewrite rank_after_apply. unfold new_rank, IEEE.add.
    destruct H as [-> | ->]; [reflexivity|]. destruct s; reflexivity.
  - intros H. rewrite scatter_edges_run, last_change_after_apply.
    assert (Hlc : fabs (IEEE.sub IEEE.binary64 (new_rank (RESET_PROB G) s)
                          (float_to_double (rank w v))) = S754_nan).
    { unfold new_rank, IEEE.add, IEEE.sub.
      destruct H as [-> | [-> | ->]]; [reflexivity|destruct s; reflexivity|].
      cbn [float_to_double IEEE.convert].
      destruct (float_to_double _); reflexivity. }
    rewrite Hlc. split; reflexivity.
Qed.

(** X5.  [gather] does not guard the division: on an edge whose source
    has no out-edge it divides by zero and returns, without an error, an
    infinity of the sign of the rank when the rank is not zero ((1.0 -
    RESET_PROB) / 0 is +infinity) and a NaN when the rank is a zero or a
    NaN. *)
Theorem gather_division_by_zero (w : world) (v : vertex_id_type) (e : edge_type) :
  num_out_edges (graph w) (source e) = 0%nat →
  IEEE.valid IEEE.binary32 (rank w (source e)) = true →
  result (gather initial_globals v e) w
  = match rank w (source e) with
    | S754_zero _ | S754_nan => S754_nan
    | S754_infinity s | S754_finite s _ _ => S754_infinity s
    end.
Proof.
  intros Hdeg Hvalid. unfold result. rewrite gather_run. cbn [fst].
  unfold gather_formula, out_degree. unfold num_out_edges in Hdeg. rewrite Hdeg.
  rewrite one_minus_RESET_PROB_value.
  change (IEEE.div IEEE.binary64 (S754_finite false 7656119312842752 (-53))
            (size_t_to_double 0)) with (S754_infinity false).
  destruct (rank w (source e)) as [s|s| |s m ex]; try (destruct s; reflexivity);
    try reflexivity.
  cbn [IEEE.valid IEEE.prec IEEE.emax IEEE.binary32 valid_binary] in Hvalid.
  destruct (float_to_double_finite s m ex Hvalid) as (k & _ & ->).
  destruct s; reflexivity.
Qed.

Lemma gather_division_by_zero_witness :
  let w := World (Graph (<[0%nat := init_vertex pzero]>
                           (<[1%nat := init_vertex pzero]> ∅)) []) ∅ ∅ in
  result (gather initial_globals 1%nat (Edge 0%nat 1%nat)) w
  = match rank w 0%nat with
    | S754_zero _ | S754_nan => S754_nan
    | S754_infinity s | S754_finite s _ _ => S754_infinity s
    end.
Proof.
  intros w. apply (gather_division_by_zero w 1%nat (Edge 0%nat 1%nat));
    vm_compute; reflexivity.
Defined.

(** X6.  What [gather] returns is never above the rank of the source:
    with an out-degree of at least 1 the weight (1.0 - RESET_PROB) /
    out-degree is at most 1, and neither the product on doubles nor the
    narrowing to float rounds above the rank, which is a float.  So a
    finite rank gives a finite value: [gather] does not overflow. *)
Theorem gather_at_most_rank (w : world) (v : vertex_id_type) (e : edge_type) :
  (1 <= num_out_edges (graph w) (source e))%nat →
  Z.of_nat (num_out_edges (graph w) (source e)) <= size_t_max →
  IEEE.valid IEEE.binary32 (rank w (source e)) = true →
  IEEE.ge (rank w (source e)) pzero = true →
  IEEE.ge (rank w (source e)) (result (gather initial_globals v e) w) = true
  ∧ (∀ m ex, rank w (source e) = S754_finite false m ex →
       result (gather initial_globals v e) w = pzero
       ∨ ∃ m' e', result (gather initial_globals v e) w = S754_finite false m' e').
Proof.
  intros Hlo Hhi Hvalid Hnonneg. rewrite ge_zero_nonneg in Hnonneg.
  unfold result. rewrite gather_run. cbn [fst]. unfold out_degree.
  fold (num_out_edges (graph w) (source e)).
  set (n := num_out_edges (graph w) (source e)) in *.
  destruct (rank w (source e)) as [s|s| |s mr er]; cbn [is_nonneg] in Hnonneg;
    try discriminate.
  - split; [|intros ? ? [=]]. unfold gather_formula.
    destruct (weight_at_most_one n Hlo Hhi) as (mw & ew & -> & _).
    destruct s; reflexivity.
  - destruct s; [discriminate|]. split; [|intros ? ? [=]]. unfold gather_formula.
    destruct (weight_at_most_one n Hlo Hhi) as (mw & ew & -> & _). reflexivity.
  - destruct s; [discriminate|].
    cbn [IEEE.valid IEEE.prec IEEE.emax IEEE.binary32 valid_binary] in Hvalid.
    pose proof (gather_formula_at_most n mr er Hlo Hhi Hvalid) as Hle.
    split; [unfold IEEE.ge; apply (at_most_leb 24 128 eq_refl eq_refl); exact Hle|].
    intros _ _ _. destruct Hle as [->|(m' & e' & -> & _)]; [left; reflexivity|].
    right. exists m', e'. reflexivity.
Qed.

Lemma gather_at_most_rank_witness :
  let w := cycle3_world in
  let e := Edge 2%nat 0%nat in
  IEEE.ge (rank w (source e)) (result (gather initial_globals 0%nat e) w) = true
  ∧ (∀ m ex, rank w (source e) = S754_finite false m ex →
       result (gather initial_globals 0%nat e) w = pzero
       ∨ ∃ m' e', result (gather initial_globals 0%nat e) w
                  = S754_finite false m' e').
Proof.
  apply (gather_at_most_rank cycle3_world 0%nat (Edge 2%nat 0%nat)).
  - vm_compute. lia.
  - vm_compute. discriminate.
  - vm_compute. reflexivity.
  - vm_compute. reflexivity.
Defined.

(** ** The order of the in-edges *)

(** The addition of [SpecFloat] is commutative. *)
Lemma SFadd_comm (prec emax : Z) (x y : spec_float) :
  SFadd prec emax x y = SFadd prec emax y x.
Proof.
  destruct x as [sx|sx| |sx mx ex], y as [sy|sy| |sy my ey]; cbn [SFadd];
    try destruct sx; try destruct sy; try reflexivity;
    rewrite (Z.min_comm ex ey), Z.add_comm; reflexivity.
Qed.

Lemma SFadd_pzero_swap (prec emax : Z) (a b : spec_float) :
  SFadd prec emax (SFadd prec emax pzero a) b
  = SFadd prec emax (SFadd prec emax pzero b) a.
Proof.
  destruct a as [sa|sa| |sa ma ea], b as [sb|sb| |sb mb eb];
    try reflexivity; try (destruct sa; reflexivity);
    try (destruct sb; reflexivity); try (destruct sa, sb; reflexivity).
  exact (SFadd_comm prec emax (S754_finite sa ma ea) (S754_finite sb mb eb)).
Qed.

(** The order of the edges does not matter to [gather] on one edge: the
    out-degree is a count. *)
Lemma gather_permutation (G : globals) (w1 w2 : world) (v : vertex_id_type)
    (e : edge_type) :
  vdata (graph w1) = vdata (graph w2) →
  edges (graph w1) ≡ₚ edges (graph w2) →
  result (gather G v e) w1 = result (gather G v e) w2.
Proof.
  intros Hd He. unfold result. rewrite !gather_run. cbn [fst].
  unfold rank, result, data, out_degree. cbn [fst]. rewrite Hd.
  rewrite (Permutation_length (filter_Permutation _ _ _ He)). reflexivity.
Qed.

(** X7.  With at most two in-edges the gathered sum of a vertex does not
    depend on the order in which the graph holds its edges: the float
    addition is commutative. *)
Theorem gather_sum_two_in_edges (G : globals) (w1 w2 : world) (v : vertex_id_type) :
  vdata (graph w1) = vdata (graph w2) →
  edges (graph w1) ≡ₚ edges (graph w2) →
  (length (in_edges (graph w1) v) <= 2)%nat →
  result (gather_sum G v) w1 = result (gather_sum G v) w2.
Proof.
  intros Hd He Hlen. unfold result. rewrite !gather_sum_run. cbn [fst].
  rewrite (foldl_ext_elem _ (λ a e, IEEE.add IEEE.binary32 a (result (gather G v e) w1))
             (in_edges (graph w2) v))
    by (intros a e _; rewrite (gather_permutation G w1 w2 v e Hd He); reflexivity).
  assert (Hp : in_edges (graph w1) v ≡ₚ in_edges (graph w2) v)
    by (apply filter_Permutation; exact He).
  destruct (in_edges (graph w1) v) as [|a [|b [|c l]]]; cbn [length] in Hlen;
    [| | |lia].
  - apply Permutation_nil_l in Hp. rewrite Hp. reflexivity.
  - apply Permutation_singleton_l in Hp. rewrite Hp. reflexivity.
  - apply Permutation_length_2_inv in Hp as [-> | ->]; [reflexivity|].
    cbn [foldl]. apply SFadd_pzero_swap.
Qed.

Lemma gather_sum_two_in_edges_witness :
  let d := vdata (graph cycle3_world) in
  let w1 := World (Graph d [Edge 1%nat 0%nat; Edge 2%nat 0%nat; Edge 2%nat 1%nat])
              ∅ ∅ in
  let w2 := World (Graph d [Edge 2%nat 0%nat; Edge 1%nat 0%nat; Edge 2%nat 1%nat])
              ∅ ∅ in
  in_edges (graph w1) 0%nat = [Edge 1%nat 0%nat; Edge 2%nat 0%nat]
  ∧ in_edges (graph w2) 0%nat = [Edge 2%nat 0%nat; Edge 1%nat 0%nat]
  ∧ result (gather initial_globals 0%nat (Edge 1%nat 0%nat)) w1
    ≠ result (gather initial_globals 0%nat (Edge 2%nat 0%nat)) w1
  ∧ result (gather_sum initial_globals 0%nat) w1
    = result (gather_sum initial_globals 0%nat) w2.
Proof.
  intros d w1 w2. split; [reflexivity|]. split; [reflexivity|].
  split; [vm_compute; discriminate|].
  apply (gather_sum_two_in_edges initial_globals w1 w2 0%nat).
  - reflexivity.
  - apply perm_swap.
  - vm_compute. lia.
Defined.

(** X8.  With three in-edges it does: the float addition is not
    associative.  There are two worlds with the same ranks and the same
    edges, held in two orders, in which the gathered sum of a vertex is
    not the same: with every rank 1.0 and sources of out-degree 1, 2 and
    4, the sum taken in the order 1, 2, 4 is 12478055 * 2^-23 and in the
    order 1, 4, 2 it is 12478054 * 2^-23. *)
Theorem gather_sum_depends_on_edge_order :
  ∃ (w1 w2 : world) (v : vertex_id_type),
    vdata (graph w1) = vdata (graph w2)
    ∧ edges (graph w1) ≡ₚ edges (graph w2)
    ∧ result (gather_sum initial_globals v) w1 = S754_finite false 12478055 (-23)
    ∧ result (gather_sum initial_globals v) w2 = S754_finite false 12478054 (-23).
Proof.
  set (d := init_vertex <$> (list_to_map ((λ v : nat, (v, pzero)) <$> seq 0 7)
                               : gmap vertex_id_type vertex_data_type)).
  set (rest := [Edge 2%nat 4%nat; Edge 3%nat 4%nat; Edge 3%nat 5%nat;
                Edge 3%nat 6%nat]).
  exists (World (Graph d (Edge 1%nat 0%nat :: Edge 2%nat 0%nat
                            :: Edge 3%nat 0%nat :: rest)) ∅ ∅),
         (World (Graph d (Edge 1%nat 0%nat :: Edge 3%nat 0%nat
                            :: Edge 2%nat 0%nat :: rest)) ∅ ∅),
         0%nat.
  split; [reflexivity|]. split; [apply perm_skip; apply perm_swap|].
  split; vm_compute; reflexivity.
Qed.

(** ** Invariants of a run *)

(** What a round keeps, the engine keeps until it stops. *)
Lemma start_invariant (G : globals) (P : world → gset vertex_id_type → Prop) :
  (∀ w active, P w active → active ≠ ∅ →
     P (effect (round G active) w) (result (round G active) w)) →
  ∀ fuel w active updates n w',
    P w active → start G fuel active updates w = (Some n, w') → P w' ∅.
Proof.
  intros Hstep. induction fuel as [|fuel IH]; intros w active updates n w' HP Hrun;
    cbn [start] in Hrun; destruct (decide (active = ∅)) as [->|Hne];
    try (injection Hrun as _ <-; exact HP); try discriminate.
  unfold bind in Hrun. specialize (Hstep w active HP Hne).
  unfold effect, result in Hstep.
  destruct (round G active w) as [next w1]. cbn [fst snd] in Hstep.
  exact (IH _ _ _ _ _ Hstep Hrun).
Qed.

(** The update count only grows, by the size of each active set. *)
Lemma start_updates (G : globals) : ∀ fuel w active updates n w',
  start G fuel active updates w = (Some n, w') → (updates + size active <= n)%nat.
Proof.
  induction fuel as [|fuel IH]; intros w active updates n w' Hrun;
    cbn [start] in Hrun; destruct (decide (active = ∅)) as [->|Hne];
    try (injection Hrun as <- _; rewrite size_empty; lia); try discriminate.
  unfold bind in Hrun. destruct (round G active w) as [next w1].
  apply IH in Hrun. lia.
Qed.

Lemma gather_sum_valid (G : globals) (v : vertex_id_type) (w : world) :
  IEEE.valid IEEE.binary32 (result (gather_sum G v) w) = true.
Proof.
  unfold result. rewrite gather_sum_run. cbn [fst].
  apply (foldl_add_valid (λ e, result (gather G v e) w)); [reflexivity|].
  intros e. unfold result. rewrite gather_run. cbn [fst].
  apply convert_valid32.
Qed.

(** A run of [main] that returns after the engine is a run of the engine
    from the initialized graph with every vertex active. *)
Lemma main_returned_at_end (G : globals) (env : environment) (fuel : nat)
    (code : exit_status) (n : nat) (w' : world) :
  main G env fuel = returned_at_end code n w' →
  clopts_parse env = true ∧ code = EXIT_SUCCESS
  ∧ start G fuel (dom (vdata (loaded_graph env))) 0%nat
      (World (transform_vertices init_vertex (loaded_graph env)) ∅ ∅)
    = (Some n, w').
Proof.
  unfold main, startup. destruct (clopts_parse env); cbn [negb]; [|discriminate].
  cbn [transform_vertices vdata]. rewrite dom_fmap_L.
  destruct (start G fuel _ 0%nat _) as [[k|] w1]; [|discriminate].
  intros H. injection H as <- <- <-. auto.
Qed.

Lemma round_rank_at_least (w : world) (active : gset vertex_id_type)
    (v : vertex_id_type) :
  (∀ u, is_nonneg (rank w u) = true) →
  Z.of_nat (length (edges (graph w))) <= size_t_max →
  v ∈ active →
  IEEE.ge (rank (effect (round initial_globals active) w) v)
    (RESET_PROB initial_globals) = true.
Proof.
  intros Hranks Hsize Hv.
  destruct (round_spec initial_globals w active) as (Hin & _).
  destruct (Hin v Hv) as [-> _].
  rewrite new_rank_narrowed; [|apply gather_sum_valid|vm_compute; reflexivity].
  rewrite RESET_PROB_value. unfold IEEE.ge.
  apply (SFadd_nonneg_ge 24 128 eq_refl eq_refl); [|reflexivity].
  apply gather_sum_nonneg; assumption.
Qed.

(** X9.  When [main] returns after the engine has stopped, the rank of
    every vertex of the graph is at least RESET_PROB: every vertex is
    active in the first round, and every [apply] stores a nonnegative sum
    plus RESET_PROB. *)
Theorem main_ranks_at_least_RESET_PROB (env : environment) (fuel : nat)
    (code : exit_status) (n : nat) (w' : world) (v : vertex_id_type) :
  Z.of_nat (length (edges (loaded_graph env))) <= size_t_max →
  main initial_globals env fuel = returned_at_end code n w' →
  v ∈ dom (vdata (loaded_graph env)) →
  IEEE.ge (rank w' v) (RESET_PROB initial_globals) = true.
Proof.
  intros Hsize Hmain Hv.
  apply main_returned_at_end in Hmain as (_ & _ & Hrun).
  set (P := λ (w : world) (active : gset vertex_id_type),
         (∀ u, is_nonneg (rank w u) = true)
         ∧ Z.of_nat (length (edges (graph w))) <= size_t_max
         ∧ (v ∈ active
            ∨ IEEE.ge (rank w v) (RESET_PROB initial_globals) = true)).
  assert (HP : P w' ∅).
  { refine (start_invariant initial_globals P _ _ _ _ _ _ _ _ Hrun).
    - intros w active (Hr & Hs & Hva) Hne.
      destruct (round_nonneg w active Hr Hs) as [Hr' He'].
      split; [exact Hr'|]. split; [rewrite He'; exact Hs|]. right.
      destruct (decide (v ∈ active)) as [Hin|Hnin].
      + apply round_rank_at_least; assumption.
      + destruct Hva as [Hin|Hge]; [contradiction|].
        destruct (round_spec initial_globals w active) as (_ & Hout & _).
        destruct (Hout v Hnin) as [-> _]. exact Hge.
    - split; [intros u; apply startup_rank_nonneg|]. split; [exact Hsize|].
      left. exact Hv. }
  destruct HP as (_ & _ & [Hin|Hge]); [set_solver|exact Hge].
Qed.

Lemma main_ranks_at_least_RESET_PROB_witness :
  ∃ w', main initial_globals (Environment true cycle3) 1
        = returned_at_end EXIT_SUCCESS 3 w'
        ∧ IEEE.ge (rank w' 0%nat) (RESET_PROB initial_globals) = true.
Proof.
  eexists. split; [vm_compute; reflexivity|].
  apply (main_ranks_at_least_RESET_PROB (Environment true cycle3) 1
           EXIT_SUCCESS 3 _ 0%nat).
  - vm_compute. discriminate.
  - vm_compute. reflexivity.
  - apply (bool_decide_unpack _). vm_compute. exact I.
Defined.

Lemma gather_sum_no_in_edges (G : globals) (v : vertex_id_type) (w : world) :
  in_edges (graph w) v = [] → result (gather_sum G v) w = pzero.
Proof. intros H. unfold result. rewrite gather_sum_run, H. reflexivity. Qed.

(** After [init_vertex] the rank of every vertex is 1.0. *)
Lemma rank_startup (g : graph_type) (v : vertex_id_type) :
  v ∈ dom (vdata g) →
  rank (World (transform_vertices init_vertex g) ∅ ∅) v
  = S754_finite false 8388608 (-23).
Proof.
  intros Hv. apply elem_of_dom in Hv as [d Hd].
  unfold rank, result, data. cbn [fst graph transform_vertices vdata].
  rewrite lookup_total_alt, lookup_fmap, Hd. exact (init_vertex_value d).
Qed.

(** X10.  When [main] returns after the engine has stopped, a vertex
    without in-edges has the rank RESET_PROB exactly: its gathered sum is
    the empty one, +0. *)
Theorem main_rank_without_in_edges (env : environment) (fuel : nat)
    (code : exit_status) (n : nat) (w' : world) (v : vertex_id_type) :
  main initial_globals env fuel = returned_at_end code n w' →
  v ∈ dom (vdata (loaded_graph env)) →
  in_edges (loaded_graph env) v = [] →
  rank w' v = RESET_PROB initial_globals.
Proof.
  intros Hmain Hv Hin.
  apply main_returned_at_end in Hmain as (_ & _ & Hrun).
  set (P := λ (w : world) (active : gset vertex_id_type),
         in_edges (graph w) v = []
         ∧ (v ∈ active ∨ rank w v = RESET_PROB initial_globals)).
  assert (HP : P w' ∅).
  { refine (start_invariant initial_globals P _ _ _ _ _ _ _ _ Hrun).
    - intros w active (Hnone & Hva) Hne.
      destruct (round_spec initial_globals w active) as (Hact & Hout & He & _).
      split; [unfold in_edges in *; rewrite He; exact Hnone|]. right.
      destruct (decide (v ∈ active)) as [Hi|Hni].
      + destruct (Hact v Hi) as [-> _].
        rewrite (gather_sum_no_in_edges _ _ _ Hnone). vm_compute. reflexivity.
      + destruct Hva as [Hi|Heq]; [contradiction|].
        destruct (Hout v Hni) as [-> _]. exact Heq.
    - split; [exact Hin|left; exact Hv]. }
  destruct HP as (_ & [Hi|Heq]); [set_solver|exact Heq].
Qed.

Lemma main_rank_without_in_edges_witness :
  let g := Graph (<[0%nat := pzero]> (<[1%nat := pzero]> ∅)) [Edge 0%nat 1%nat] in
  ∃ w', main initial_globals (Environment true g) 2
        = returned_at_end EXIT_SUCCESS 3 w'
        ∧ rank w' 0%nat = RESET_PROB initial_globals.
Proof.
  intros g. eexists. split; [vm_compute; reflexivity|].
  apply (main_rank_without_in_edges (Environment true g) 2 EXIT_SUCCESS 3 _ 0%nat).
  - vm_compute. reflexivity.
  - apply (bool_decide_unpack _). vm_compute. exact I.
  - vm_compute. reflexivity.
Defined.

(** X11.  The number of updates [main] reports is at least the number
    of vertices, every vertex being active in the first round, and it is
    0 exactly when the graph has no vertex.  On a graph without vertices
    the engine stops without a round: whatever the fuel, also with none,
    [main] returns EXIT_SUCCESS with 0 updates and the state it started
    the engine in. *)
Theorem main_update_count (G : globals) (env : environment) (fuel : nat) :
  clopts_parse env = true →
  (∀ code n w', main G env fuel = returned_at_end code n w' →
     (size (dom (vdata (loaded_graph env))) <= n)%nat
     ∧ (n = 0%nat ↔ vdata (loaded_graph env) = ∅))
  ∧ (vdata (loaded_graph env) = ∅ →
     main G env fuel
     = returned_at_end EXIT_SUCCESS 0
         (World (transform_vertices init_vertex (loaded_graph env)) ∅ ∅)).
Proof.
  intros Hparse.
  assert (Hempty : vdata (loaded_graph env) = ∅ →
            main G env fuel
            = returned_at_end EXIT_SUCCESS 0
                (World (transform_vertices init_vertex (loaded_graph env)) ∅ ∅)).
  { intros He. unfold main, startup. rewrite Hparse.
    cbn [negb transform_vertices vdata]. rewrite He, fmap_empty, dom_empty_L.
    destruct fuel; cbn [start];
      (destruct (decide ((∅ : gset vertex_id_type) = ∅)); [|contradiction]);
      reflexivity. }
  split; [|exact Hempty].
  intros code n w' Hmain.
  pose proof Hmain as Hrun. apply main_returned_at_end in Hrun as (_ & _ & Hrun).
  pose proof (start_updates _ _ _ _ _ _ _ Hrun) as Hle. cbn [Nat.add] in Hle.
  split; [exact Hle|]. split.
  - intros ->. apply dom_empty_inv. apply size_empty_inv. lia.
  - intros He. rewrite (Hempty He) in Hmain. congruence.
Qed.

Lemma main_update_count_witness :
  let empty := Environment true (Graph ∅ []) in
  let cycle := Environment true cycle3 in
  main initial_globals empty 0
  = returned_at_end EXIT_SUCCESS 0
      (World (transform_vertices init_vertex (Graph ∅ [])) ∅ ∅)
  ∧ ∃ w', main initial_globals cycle 1 = returned_at_end EXIT_SUCCESS 3 w'
          ∧ (size (dom (vdata cycle3)) <= 3)%nat
          ∧ (3%nat = 0%nat ↔ vdata cycle3 = ∅).
Proof.
  intros empty cycle. split.
  - apply (main_update_count initial_globals empty 0 eq_refl). reflexivity.
  - eexists. split; [vm_compute; reflexivity|].
    eapply (proj1 (main_update_count initial_globals cycle 1 eq_refl)
              EXIT_SUCCESS 3%nat).
    vm_compute. reflexivity.
Defined.


(** The apply phase on vertices of the graph adds no vertex. *)
Lemma apply_phase_dom (G : globals) (totals : list (vertex_id_type * float)) :
  ∀ w, (∀ v, v ∈ totals.*1 → v ∈ dom (vdata (graph w))) →
  dom (vdata (graph (effect (apply_phase G totals) w))) = dom (vdata (graph w)).
Proof.
  induction totals as [|[v t] ts IH]; intros w Hin; [reflexivity|].
  unfold effect in *. cbn [apply_phase]. unfold bind. rewrite apply_run.
  cbn [fmap list_fmap fst] in Hin.
  assert (Hv : v ∈ dom (vdata (graph w))) by (apply Hin; left).
  assert (Hdom : dom (<[v := double_to_float (new_rank (RESET_PROB G) t)]>
                        (vdata (graph w))) = dom (vdata (graph w))).
  { rewrite dom_insert_L. apply set_eq. intros u.
    rewrite elem_of_union, elem_of_singleton. split; [intros [->|H]; assumption|auto]. }
  rewrite IH; cbn [graph vdata]; [exact Hdom|].
  intros u Hu. rewrite Hdom. apply Hin. right. exact Hu.
Qed.

Lemma round_dom (G : globals) (w : world) (active : gset vertex_id_type) :
  active ⊆ dom (vdata (graph w)) →
  dom (vdata (graph (effect (round G active) w))) = dom (vdata (graph w)).
Proof.
  intros Hsub. pose proof (round_run G w active) as Hrun. cbv zeta in Hrun.
  unfold effect at 1. rewrite Hrun. cbn [snd].
  destruct (scatter_phase_spec (elements active)
              (effect (apply_phase G
                         (map (λ v, (v, result (gather_sum G v) w)) (elements active)))
                 (World (graph w) (programs w) ∅))) as [Hg _].
  rewrite Hg.
  apply (apply_phase_dom G _ (World (graph w) (programs w) ∅)).
  intros v Hv. cbn [graph]. apply Hsub. apply elem_of_elements.
  rewrite <- list_fmap_compose in Hv.
  rewrite (list_fmap_id (elements active)) in Hv. exact Hv.
Qed.

(** X12.  A run changes no topology.  On a graph whose edges end at
    vertices of the graph, the world [main] returns with has the vertices
    and the edges of the loaded graph: [apply] writes the data of active
    vertices only, and [scatter] signals targets of edges only. *)
Theorem main_keeps_topology (G : globals) (env : environment) (fuel : nat)
    (code : exit_status) (n : nat) (w' : world) :
  (∀ e, e ∈ edges (loaded_graph env) →
        target e ∈ dom (vdata (loaded_graph env))) →
  main G env fuel = returned_at_end code n w' →
  dom (vdata (graph w')) = dom (vdata (loaded_graph env))
  ∧ edges (graph w') = edges (loaded_graph env).
Proof.
  intros Hwf Hmain. apply main_returned_at_end in Hmain as (_ & _ & Hrun).
  set (g := loaded_graph env) in *.
  set (P := λ (w : world) (active : gset vertex_id_type),
         dom (vdata (graph w)) = dom (vdata g)
         ∧ edges (graph w) = edges g
         ∧ active ⊆ dom (vdata g)).
  assert (HP : P w' ∅).
  { refine (start_invariant G P _ _ _ _ _ _ _ _ Hrun).
    - intros w active (Hd & He & Hsub) Hne.
      destruct (round_spec G w active) as (_ & _ & He' & Hres & Hsig).
      split; [rewrite round_dom; [exact Hd|rewrite Hd; exact Hsub]|].
      split; [rewrite He'; exact He|].
      intros u Hu. rewrite <- Hres in Hu. apply Hsig in Hu
        as (v & _ & _ & e & Hin & <-).
      apply Hwf. unfold out_edges in Hin. apply list_elem_of_filter in Hin as [_ Hin].
      rewrite <- He. exact Hin.
    - split; [cbn [graph transform_vertices vdata]; apply dom_fmap_L|].
      split; [reflexivity|]. reflexivity. }
  destruct HP as (Hd & He & _). split; assumption.
Qed.

Lemma main_keeps_topology_witness :
  ∃ w', main initial_globals (Environment true cycle3) 1
        = returned_at_end EXIT_SUCCESS 3 w'
        ∧ dom (vdata (graph w')) = dom (vdata cycle3)
        ∧ edges (graph w') = edges cycle3.
Proof.
  eexists. split; [vm_compute; reflexivity|].
  apply (main_keeps_topology initial_globals (Environment true cycle3) 1
           EXIT_SUCCESS 3).
  - intros e He. apply (bool_decide_unpack _).
    cbn [loaded_graph cycle3 edges] in He.
    apply elem_of_cons in He as [-> | He]; [vm_compute; exact I|].
    apply elem_of_cons in He as [-> | He]; [vm_compute; exact I|].
    apply elem_of_cons in He as [-> | He]; [vm_compute; exact I|].
    inversion He.
  - vm_compute. reflexivity.
Defined.

(** X13.  The data the loaded graph holds for its vertices is never read:
    [init_vertex] overwrites it before the engine starts, so two loaded
    graphs with the same vertices and the same edges give the same run. *)
Theorem main_ignores_loaded_data (G : globals) (env1 env2 : environment)
    (fuel : nat) :
  clopts_parse env1 = clopts_parse env2 →
  dom (vdata (loaded_graph env1)) = dom (vdata (loaded_graph env2)) →
  edges (loaded_graph env1) = edges (loaded_graph env2) →
  main G env1 fuel = main G env2 fuel.
Proof.
  intros Hparse Hdom Hedges. unfold main, startup. rewrite Hparse.
  assert (Hg : transform_vertices init_vertex (loaded_graph env1)
               = transform_vertices init_vertex (loaded_graph env2)).
  { unfold transform_vertices. rewrite Hedges. f_equal.
    apply map_eq. intros v. rewrite !lookup_fmap.
    destruct (vdata (loaded_graph env1) !! v) as [d1|] eqn:H1,
             (vdata (loaded_graph env2) !! v) as [d2|] eqn:H2; try reflexivity.
    - apply not_elem_of_dom in H2. rewrite <- Hdom in H2.
      exfalso. apply H2. apply elem_of_dom. eauto.
    - apply not_elem_of_dom in H1. rewrite Hdom in H1.
      exfalso. apply H1. apply elem_of_dom. eauto. }
  rewrite Hg. reflexivity.
Qed.

Lemma main_ignores_loaded_data_witness :
  main initial_globals (Environment true cycle3) 1
  = main initial_globals
      (Environment true
         (Graph (<[0%nat := init_vertex pzero]>
                   (<[1%nat := pzero]> (<[2%nat := S754_nan]> ∅)))
                (edges cycle3))) 1.
Proof.
  apply (main_ignores_loaded_data initial_globals (Environment true cycle3)
           (Environment true
              (Graph (<[0%nat := init_vertex pzero]>
                        (<[1%nat := pzero]> (<[2%nat := S754_nan]> ∅)))
                     (edges cycle3))) 1).
  - reflexivity.
  - vm_compute. reflexivity.
  - reflexivity.
Defined.

(** ** Sums of small integers are exact *)

Lemma Zdigits2_mono (a b : Z) : 0 < a -> a <= b -> Zdigits2 a <= Zdigits2 b.
Proof.
  intros Ha Hab. rewrite !Zdigits2_log2 by lia.
  pose proof (Z.log2_le_mono a b Hab). lia.
Qed.

(** A number with an integer value of at most 2^24 rounds to that
    integer as a float. *)
Lemma binary_round_integer (z : Z) (S : positive) (ez : Z) :
  1 <= z <= 2 ^ 24 -> ez <= 0 -> Zpos S = z * 2 ^ (- ez) ->
  ez <= Zdigits2 z - 24 ->
  binary_round 24 128 false S ez = IEEE.of_Z IEEE.binary32 z.
Proof.
  intros Hz Hez HS Hd.
  pose proof (Zdigits2_bounds z ltac:(lia)) as [Hlo Hhi].
  pose proof (Zdigits2_pos z ltac:(lia)) as Hdpos.
  set (d := Zdigits2 z) in *.
  assert (Hd25 : d <= 25).
  { apply Zdigits2_le; [lia|]. change (2 ^ 25) with (2 * 2 ^ 24). lia. }
  assert (HdS : Zpos (digits2_pos S) + ez = d).
  { change (Zpos (digits2_pos S)) with (Zdigits2 (Zpos S)).
    rewrite HS, Zdigits2_mul_pow2 by lia. fold d. lia. }
  assert (HE : fexp 24 128 d = d - 24) by (rewrite fexp32_eq; lia).
  unfold IEEE.of_Z. cbn [IEEE.prec IEEE.emax IEEE.binary32].
  destruct z as [|p|p]; [lia| |lia]. cbn [binary_normalize].
  destruct (Z_le_gt_dec d 24) as [Hle|Hgt].
  - assert (Hk : 0 < Zpos p * 2 ^ (24 - d)).
    { pose proof (pow2_pos (24 - d) ltac:(lia)). lia. }
    pose proof (binary_round_exact 24 128 eq_refl eq_refl false S ez
                  (Z.to_pos (Zpos p * 2 ^ (24 - d)))) as H1.
    pose proof (binary_round_exact 24 128 eq_refl eq_refl false p 0
                  (Z.to_pos (Zpos p * 2 ^ (24 - d)))) as H2.
    cbv zeta in H1, H2. rewrite HdS, HE in H1.
    change (Zpos (digits2_pos p)) with d in H2. rewrite Z.add_0_r, HE in H2.
    rewrite Z2Pos.id in H1, H2 by lia.
    rewrite H1, H2; [reflexivity| | | |]; try lia.
    + left. split; [lia|]. f_equal. f_equal. lia.
    + right. split; [lia|]. rewrite HS, <- Z.mul_assoc, <- Z.pow_add_r by lia.
      f_equal. f_equal. lia.
  - assert (d = 25) by lia. assert (Hp : Zpos p = 2 ^ 24).
    { replace (d - 1) with 24 in Hlo by lia. lia. }
    injection Hp as ->.
    pose proof (binary_round_exact 24 128 eq_refl eq_refl false S ez 8388608) as H1.
    cbv zeta in H1. rewrite HdS, HE in H1.
    replace (d - 24) with 1 in H1 by lia.
    rewrite H1; [reflexivity|lia|].
    right. split; [lia|]. rewrite HS.
    replace (1 - ez) with (1 + - ez) by lia. rewrite Z.pow_add_r by lia.
    change (2 ^ 1) with 2. lia.
Qed.

Lemma of_Z_small (z : Z) :
  1 <= z < 2 ^ 24 ->
  exists K, IEEE.of_Z IEEE.binary32 z = S754_finite false K (Zdigits2 z - 24)
            /\ Zpos K = z * 2 ^ (24 - Zdigits2 z).
Proof.
  intros Hz.
  pose proof (Zdigits2_pos z ltac:(lia)) as Hdpos.
  assert (Hd : Zdigits2 z <= 24) by (apply Zdigits2_le; lia).
  set (d := Zdigits2 z) in *.
  assert (Hk : 0 < z * 2 ^ (24 - d)).
  { pose proof (pow2_pos (24 - d) ltac:(lia)). nia. }
  exists (Z.to_pos (z * 2 ^ (24 - d))). rewrite Z2Pos.id by lia.
  split; [|reflexivity].
  unfold IEEE.of_Z. cbn [IEEE.prec IEEE.emax IEEE.binary32].
  destruct z as [|p|p]; [lia| |lia]. cbn [binary_normalize].
  pose proof (binary_round_exact 24 128 eq_refl eq_refl false p 0
                (Z.to_pos (Zpos p * 2 ^ (24 - d)))) as H.
  cbv zeta in H. change (Zpos (digits2_pos p)) with d in H.
  rewrite Z.add_0_r, fexp32_eq in H.
  replace (Z.max (d - 24) (-149)) with (d - 24) in H by lia.
  apply H; [lia|]. left. split; [lia|]. rewrite Z2Pos.id by lia.
  f_equal. f_equal. lia.
Qed.

Lemma of_Z_finite (z : Z) :
  1 <= z <= 2 ^ 24 ->
  exists K E, IEEE.of_Z IEEE.binary32 z = S754_finite false K E.
Proof.
  intros Hz. destruct (Z.eq_dec z (2 ^ 24)) as [->|Hne].
  - eexists _, _. vm_compute. reflexivity.
  - destruct (of_Z_small z ltac:(lia)) as (K & -> & _). eauto.
Qed.

(** The float sum of two nonnegative integers is their sum as long as
    that is at most 2^24. *)
Lemma add_of_Z (a b : Z) :
  0 <= a -> 0 <= b -> a + b <= 2 ^ 24 ->
  IEEE.add IEEE.binary32 (IEEE.of_Z IEEE.binary32 a) (IEEE.of_Z IEEE.binary32 b)
  = IEEE.of_Z IEEE.binary32 (a + b).
Proof.
  intros Ha Hb Hab.
  destruct (Z.eq_dec a 0) as [->|Ha0].
  { destruct (Z.eq_dec b 0) as [->|Hb0]; [reflexivity|].
    destruct (of_Z_finite b ltac:(lia)) as (K & E & HK).
    rewrite Z.add_0_l, HK. reflexivity. }
  destruct (Z.eq_dec b 0) as [->|Hb0].
  { destruct (of_Z_finite a ltac:(lia)) as (K & E & HK).
    rewrite Z.add_0_r, HK. reflexivity. }
  destruct (of_Z_small a ltac:(lia)) as (Ka & -> & HKa).
  destruct (of_Z_small b ltac:(lia)) as (Kb & -> & HKb).
  pose proof (Zdigits2_pos a ltac:(lia)) as Hda0.
  pose proof (Zdigits2_pos b ltac:(lia)) as Hdb0.
  assert (Hda : Zdigits2 a <= 24) by (apply Zdigits2_le; lia).
  assert (Hdb : Zdigits2 b <= 24) by (apply Zdigits2_le; lia).
  pose proof (Zdigits2_mono a (a + b) ltac:(lia) ltac:(lia)) as Hma.
  set (Ea := Zdigits2 a - 24) in *. set (Eb := Zdigits2 b - 24) in *.
  unfold IEEE.add. cbn [IEEE.prec IEEE.emax IEEE.binary32 SFadd cond_Zopp].
  set (ez := Z.min Ea Eb).
  destruct (shl_align_spec Ka Ea ez) as [HA _].
  destruct (shl_align_spec Kb Eb ez) as [HB _].
  replace (Z.min Ea ez) with ez in HA by lia.
  replace (Z.min Eb ez) with ez in HB by lia.
  set (A := fst (shl_align Ka Ea ez)) in *.
  set (B := fst (shl_align Kb Eb ez)) in *.
  change (Zpos A + Zpos B) with (Zpos (A + B)). cbn [binary_normalize].
  apply binary_round_integer; [lia|lia| |lia].
  rewrite Pos2Z.inj_add, HA, HB, HKa, HKb.
  replace (24 - Zdigits2 a) with (- Ea) by (subst Ea; lia).
  replace (24 - Zdigits2 b) with (- Eb) by (subst Eb; lia).
  rewrite <- !Z.mul_assoc, <- !Z.pow_add_r by lia.
  replace (- Ea + (Ea - ez)) with (- ez) by lia.
  replace (- Eb + (Eb - ez)) with (- ez) by lia. ring.
Qed.

(** ** The sum of the graph when every rank is 1.0 *)

(** The reduction reads the ranks and writes nothing. *)
Lemma map_reduce_vertices_reads (t : reduction) (w : world) :
  effect (map_reduce_vertices extract_pagerank t) w = w.
Proof.
  induction t as [|v|l IHl r IHr]; try reflexivity.
  unfold effect in *. cbn [map_reduce_vertices]. unfold bind.
  destruct (map_reduce_vertices extract_pagerank l w) as [x w1]. cbn [snd] in IHl.
  subst w1.
  destruct (map_reduce_vertices extract_pagerank r w) as [y w2]. cbn [snd] in IHr.
  subst w2. reflexivity.
Qed.

Lemma sum_of_graph_of_ones (t : reduction) (w : world) :
  (∀ v, v ∈ reduced t → rank w v = S754_finite false 8388608 (-23)) →
  Z.of_nat (length (reduced t)) <= 2 ^ 24 →
  result (sum_of_graph t) w
  = IEEE.of_Z IEEE.binary32 (Z.of_nat (length (reduced t))).
Proof.
  unfold sum_of_graph.
  induction t as [|v|l IHl r IHr]; intros Hone Hlen.
  - reflexivity.
  - cbn [map_reduce_vertices reduced length].
    change (result (extract_pagerank v) w) with (rank w v).
    rewrite Hone by (cbn [reduced]; left). vm_compute. reflexivity.
  - cbn [reduced] in Hone, Hlen |- *. rewrite length_app, Nat2Z.inj_add in Hlen |- *.
    specialize (IHl ltac:(intros v Hv; apply Hone; apply elem_of_app; left; exact Hv)
                    ltac:(lia)).
    specialize (IHr ltac:(intros v Hv; apply Hone; apply elem_of_app; right; exact Hv)
                    ltac:(lia)).
    pose proof (map_reduce_vertices_reads l w) as Hl.
    unfold result, effect in *. cbn [map_reduce_vertices]. unfold bind.
    destruct (map_reduce_vertices extract_pagerank l w) as [x w1].
    cbn [fst snd] in IHl, Hl. subst w1.
    destruct (map_reduce_vertices extract_pagerank r w) as [y w2].
    cbn [fst snd] in IHr |- *. subst x y.
    apply add_of_Z; lia.
Qed.

(** X14.  On a graph in which every vertex has exactly one in-edge, and
    that from a vertex with exactly one out-edge (disjoint directed
    cycles), the run is at its fixed point from the start: with fuel for
    one round [main] returns EXIT_SUCCESS after one update of every
    vertex, every rank is still 1.0 with a last change of 0, and
    [sum_of_graph], in whatever order and association the sum is taken,
    is the number of vertices as long as that is at most 2^24. *)
Theorem main_on_cycles (env : environment) (fuel : nat) :
  let g := loaded_graph env in
  let w0 := World (transform_vertices init_vertex g) ∅ ∅ in
  clopts_parse env = true →
  (∀ v, v ∈ dom (vdata g) →
     ∃ e, in_edges g v = [e] ∧ source e ∈ dom (vdata g)
          ∧ num_out_edges g (source e) = 1%nat) →
  ∃ w', main initial_globals env (S fuel)
        = returned_at_end EXIT_SUCCESS (size (dom (vdata g))) w'
        ∧ (∀ v, rank w' v = rank w0 v)
        ∧ (∀ v, v ∈ dom (vdata g) →
             rank w' v = IEEE.of_Z IEEE.binary32 1
             ∧ last_change_of w' v = pzero)
        ∧ (∀ t, reduced t ≡ₚ elements (dom (vdata g)) →
             Z.of_nat (size (dom (vdata g))) <= 2 ^ 24 →
             result (sum_of_graph t) w'
             = IEEE.of_Z IEEE.binary32 (Z.of_nat (size (dom (vdata g))))).
Proof.
  intros g w0 Hparse Hcyc.
  assert (Hcore : ∃ w', main initial_globals env (S fuel)
                        = returned_at_end EXIT_SUCCESS (size (dom (vdata g))) w'
                        ∧ (∀ v, rank w' v = rank w0 v)
                        ∧ (∀ v, v ∈ dom (vdata g) →
                             rank w' v = S754_finite false 8388608 (-23)
                             ∧ last_change_of w' v = pzero)).
  { unfold main, startup. rewrite Hparse. cbn [negb transform_vertices vdata].
    rewrite dom_fmap_L. fold g. change (World _ ∅ ∅) with w0.
    cbn [start]. destruct (decide (dom (vdata g) = ∅)) as [Hempty|Hne].
    - exists w0. rewrite Hempty, size_empty.
      split; [reflexivity|]. split; [reflexivity|].
      intros v Hv. apply elem_of_empty in Hv. contradiction.
    - unfold bind.
      destruct (round_spec initial_globals w0 (dom (vdata g)))
        as (Hact & Hout & He & Hres & Hsig).
      assert (Hv : ∀ v, v ∈ dom (vdata g) →
                rank (effect (round initial_globals (dom (vdata g))) w0) v
                = S754_finite false 8388608 (-23)
                ∧ last_change_of
                    (effect (round initial_globals (dom (vdata g))) w0) v
                  = pzero).
      { intros v Hin. destruct (Hact v Hin) as [-> ->].
        destruct (Hcyc v Hin) as (e & He1 & Hsrc & Hdeg).
        assert (Hsum : result (gather_sum initial_globals v) w0
                       = S754_finite false 14260634 (-24)).
        { unfold result. rewrite gather_sum_run.
          change (in_edges (graph w0) v) with (in_edges g v). rewrite He1.
          cbn [foldl fst]. unfold result. rewrite gather_run. cbn [fst].
          unfold out_degree. change (edges (graph w0)) with (edges g).
          unfold num_out_edges in Hdeg. rewrite Hdeg.
          unfold w0. rewrite (rank_startup g _ Hsrc). vm_compute. reflexivity. }
        rewrite Hsum. unfold w0. rewrite (rank_startup g _ Hin).
        split; vm_compute; reflexivity. }
      assert (Hnext : result (round initial_globals (dom (vdata g))) w0 = ∅).
      { rewrite <- Hres. apply set_eq. intros u. rewrite Hsig.
        split; [|intros Hu; apply elem_of_empty in Hu; contradiction].
        intros (v & Hin & Hgt & _). destruct (Hv v Hin) as [_ Hlc].
        rewrite Hlc in Hgt. vm_compute in Hgt. discriminate. }
      unfold effect, result in *.
      destruct (round initial_globals (dom (vdata g)) w0) as [next w1].
      cbn [fst snd] in *. subst next. exists w1.
      split; [|split].
      + rewrite Hnext. destruct fuel; cbn [start];
          (destruct (decide ((∅ : gset vertex_id_type) = ∅)); [|contradiction]);
          reflexivity.
      + intros v. destruct (decide (v ∈ dom (vdata g))) as [Hin|Hnin].
        * destruct (Hv v Hin) as [-> _]. unfold w0. rewrite (rank_startup g v Hin).
          reflexivity.
        * apply Hout. exact Hnin.
      + intros v Hin. apply Hv. exact Hin. }
  destruct Hcore as (w' & Hmain & Hsame & Hone). exists w'.
  split; [exact Hmain|]. split; [exact Hsame|]. split; [exact Hone|].
  intros t Hperm Hsize.
  assert (Hlen : length (reduced t) = size (dom (vdata g))).
  { rewrite (Permutation_length Hperm). reflexivity. }
  rewrite <- Hlen in Hsize |- *. apply sum_of_graph_of_ones; [|exact Hsize].
  intros v Hv. apply Hone. apply elem_of_elements. rewrite <- Hperm. exact Hv.
Qed.

Lemma cycle3_vertices (v : vertex_id_type) :
  v ∈ dom (vdata cycle3) → v = 0%nat ∨ v = 1%nat ∨ v = 2%nat.
Proof.
  unfold cycle3. cbn [vdata].
  rewrite !dom_insert_L, dom_empty_L, !elem_of_union, !elem_of_singleton.
  intros [H|[H|[H|H]]]; auto. inversion H.
Qed.

Lemma main_on_cycles_witness :
  let g := cycle3 in
  let w0 := World (transform_vertices init_vertex g) ∅ ∅ in
  ∃ w', main initial_globals (Environment true cycle3) 1
        = returned_at_end EXIT_SUCCESS (size (dom (vdata g))) w'
        ∧ (∀ v, rank w' v = rank w0 v)
        ∧ (∀ v, v ∈ dom (vdata g) →
             rank w' v = IEEE.of_Z IEEE.binary32 1
             ∧ last_change_of w' v = pzero)
        ∧ (∀ t, reduced t ≡ₚ elements (dom (vdata g)) →
             Z.of_nat (size (dom (vdata g))) <= 2 ^ 24 →
             result (sum_of_graph t) w'
             = IEEE.of_Z IEEE.binary32 (Z.of_nat (size (dom (vdata g))))).
Proof.
  apply (main_on_cycles (Environment true cycle3) 0).
  - reflexivity.
  - intros v Hv. cbn [loaded_graph] in *.
    destruct (cycle3_vertices v Hv) as [-> | [-> | ->]].
    + exists (Edge 2%nat 0%nat). split; [reflexivity|].
      split; [apply (bool_decide_unpack _); vm_compute; exact I|reflexivity].
    + exists (Edge 0%nat 1%nat). split; [reflexivity|].
      split; [apply (bool_decide_unpack _); vm_compute; exact I|reflexivity].
    + exists (Edge 1%nat 2%nat). split; [reflexivity|].
      split; [apply (bool_decide_unpack _); vm_compute; exact I|reflexivity].
Defined.

(** ** The writer *)

(** Strings: the length of an append, and cancelling a common end. *)
Lemma append_length (s t : string) :
  String.length (s +:+ t) = (String.length s + String.length t)%nat.
Proof.
  induction s as [|c s IH]; simpl; [reflexivity|rewrite IH; reflexivity].
Qed.

Lemma append_inj_r (t : string) : ∀ s1 s2, s1 +:+ t = s2 +:+ t → s1 = s2.
Proof.
  induction s1 as [|c s1 IH]; intros [|c' s2] H; [reflexivity| | |].
  - apply (f_equal String.length) in H.
    rewrite !append_length in H. simpl in H. lia.
  - apply (f_equal String.length) in H.
    rewrite !append_length in H. simpl in H. lia.
  - cbn in H. injection H as -> H. rewrite (IH s2 H). reflexivity.
Qed.

(** Two strings that agree split at their first tab into equal parts. *)
Lemma split_at_tab : ∀ p q r1 r2,
  tab_free p = true → tab_free q = true →
  p +:+ String tab r1 = q +:+ String tab r2 → p = q ∧ r1 = r2.
Proof.
  induction p as [|c p IH]; intros [|c' q] r1 r2 Hp Hq H; cbn in H.
  - injection H as ->. split; reflexivity.
  - injection H as <- _. cbn in Hq. discriminate.
  - injection H as -> _. cbn in Hp. discriminate.
  - injection H as -> H. cbn [tab_free] in Hp, Hq.
    apply andb_true_iff in Hp as [_ Hp]. apply andb_true_iff in Hq as [_ Hq].
    destruct (IH q r1 r2 Hp Hq H) as [-> ->]. split; reflexivity.
Qed.

(** A number in decimal has no tab. *)
Lemma pretty_N_go_tab_free (x : N) : ∀ s,
  tab_free s = true → tab_free (pretty_N_go x s) = true.
Proof.
  induction (N.lt_wf_0 x) as [x _ IH]. intros s Hs.
  destruct (N.eq_dec x 0%N) as [->|Hx]; [rewrite pretty_N_go_0; exact Hs|].
  rewrite pretty_N_go_step by lia. apply IH.
  - apply N.div_lt; lia.
  - cbn [tab_free]. rewrite Hs, andb_true_r.
    unfold pretty_N_char. repeat case_match; reflexivity.
Qed.

Lemma pretty_tab_free (v : vertex_id_type) : tab_free (pretty v) = true.
Proof.
  unfold pretty, pretty_nat, pretty, pretty_N.
  destruct (decide (N.of_nat v = 0%N)); [reflexivity|].
  apply pretty_N_go_tab_free. reflexivity.
Qed.

(** X15.  The line [save_vertex] writes determines the vertex: two lines
    are equal only for the same vertex id and the same formatted rank,
    whatever the formatting of floats is, since the id is in decimal and
    ends at the first tab of the line. *)
Theorem save_vertex_line_determines_vertex (put_float : float → string)
    (w1 w2 : world) (v1 v2 : vertex_id_type) :
  result (save_vertex put_float v1) w1 = result (save_vertex put_float v2) w2 →
  v1 = v2 ∧ put_float (rank w1 v1) = put_float (rank w2 v2).
Proof.
  unfold result, save_vertex, bind, data, ret. cbn [fst]. intros H.
  apply split_at_tab in H as [Hid Hrest]; try apply pretty_tab_free.
  split; [exact (inj pretty v1 v2 Hid)|].
  exact (append_inj_r _ _ _ Hrest).
Qed.

Lemma save_vertex_line_determines_vertex_witness :
  0%nat = 0%nat
  ∧ (λ _ : float, EmptyString) (rank cycle3_world 0%nat)
    = (λ _ : float, EmptyString) (rank cycle3_world 0%nat).
Proof.
  apply (save_vertex_line_determines_vertex (λ _, EmptyString)
           cycle3_world cycle3_world 0%nat 0%nat).
  reflexivity.
Defined.


(** X16.  [main] saves nothing when [saveprefix] is empty; otherwise it
    saves the lines of [save_vertex] for the vertices of the final graph,
    one line for each vertex, no two lines equal, and nothing for the
    edges. *)
Theorem main_saves_one_line_per_vertex (put_float : float → string)
    (G : globals) (env : environment) (fuel : nat) (saveprefix : string)
    (code : exit_status) (n : nat) (w' : world) :
  main G env fuel = returned_at_end code n w' →
  main_save put_float EmptyString (main G env fuel) = None
  ∧ (saveprefix ≠ EmptyString →
     ∃ lines,
       main_save put_float saveprefix (main G env fuel) = Some lines
       ∧ length lines = size (dom (vdata (graph w')))
       ∧ NoDup lines
       ∧ ∀ line, line ∈ lines
           ↔ ∃ v, v ∈ dom (vdata (graph w'))
                  ∧ line = result (save_vertex put_float v) w').
Proof.
  intros ->. cbn [main_save]. split; [reflexivity|]. intros Hne.
  destruct (decide (saveprefix = EmptyString)) as [|_]; [contradiction|].
  eexists. split; [reflexivity|].
  unfold result at 1 2 3, save. cbn [fst]. rewrite app_nil_r.
  split; [rewrite length_fmap; reflexivity|]. split.
  - apply NoDup_fmap_2; [|apply NoDup_elements].
    intros v1 v2 H. unfold result, save_vertex, bind, data, ret in H. cbn [fst] in H.
    apply split_at_tab in H as [Hid _]; try apply pretty_tab_free.
    exact (inj pretty v1 v2 Hid).
  - intros line. rewrite list_elem_of_fmap. split.
    + intros (v & -> & Hv). exists v. split; [apply elem_of_elements; exact Hv|reflexivity].
    + intros (v & Hv & ->). exists v. split; [reflexivity|apply elem_of_elements; exact Hv].
Qed.

Lemma main_saves_one_line_per_vertex_witness :
  let put_float := λ _ : float, EmptyString in
  let r := main initial_globals (Environment true cycle3) 1 in
  ∃ w', r = returned_at_end EXIT_SUCCESS 3 w'
  ∧ main_save put_float EmptyString r = None
  ∧ (String "o" EmptyString ≠ EmptyString →
     ∃ lines,
       main_save put_float (String "o" EmptyString) r = Some lines
       ∧ length lines = size (dom (vdata (graph w')))
       ∧ NoDup lines
       ∧ ∀ line, line ∈ lines
           ↔ ∃ v, v ∈ dom (vdata (graph w'))
                  ∧ line = result (save_vertex put_float v) w').
Proof.
  intros put_float r. eexists. split; [vm_compute; reflexivity|].
  apply (main_saves_one_line_per_vertex put_float initial_globals
           (Environment true cycle3) 1 (String "o" EmptyString) EXIT_SUCCESS 3).
  vm_compute. reflexivity.
Defined.

(** ** The order of the vertices within a phase *)

Lemma world_eq (w1 w2 : world) :
  graph w1 = graph w2 → programs w1 = programs w2 →
  signalled w1 = signalled w2 → w1 = w2.
Proof. destruct w1, w2. cbn. intros -> -> ->. reflexivity. Qed.

(** Two [apply] on two vertices commute. *)
Lemma apply_commute (G : globals) (v1 v2 : vertex_id_type) (t1 t2 : float)
    (w : world) :
  v1 ≠ v2 →
  effect (apply G v1 t1) (effect (apply G v2 t2) w)
  = effect (apply G v2 t2) (effect (apply G v1 t1) w).
Proof.
  intros Hne.
  pose proof (rank_after_apply_ne G v2 v1 t2 w Hne) as H1.
  pose proof (rank_after_apply_ne G v1 v2 t1 w (not_eq_sym Hne)) as H2.
  unfold effect in *. rewrite !apply_run in *. cbn [snd] in *.
  rewrite H1, H2. cbn [graph vdata edges programs signalled].
  f_equal; [f_equal|]; apply insert_insert_ne; congruence.
Qed.

Lemma apply_phase_permutation (G : globals)
    (totals1 totals2 : list (vertex_id_type * float)) :
  totals1 ≡ₚ totals2 → NoDup totals1.*1 →
  ∀ w, effect (apply_phase G totals1) w = effect (apply_phase G totals2) w.
Proof.
  induction 1 as [|[v t] l l' Hp IH|[v1 t1] [v2 t2] l|l l' l'' Hp1 IH1 Hp2 IH2];
    intros Hnd w.
  - reflexivity.
  - cbn [fmap list_fmap fst] in Hnd. apply NoDup_cons in Hnd as [_ Hnd].
    unfold effect in *. cbn [apply_phase]. unfold bind.
    destruct (apply G v t w) as [[] w1]. exact (IH Hnd w1).
  - cbn [fmap list_fmap fst] in Hnd. apply NoDup_cons in Hnd as [Hin _].
    assert (Hne : v2 ≠ v1) by (intros ->; apply Hin; left).
    pose proof (apply_commute G v2 v1 t2 t1 w Hne) as Hc.
    unfold effect in *. cbn [apply_phase]. unfold bind.
    destruct (apply G v1 t1 w) as [[] wa]. destruct (apply G v2 t2 w) as [[] wb].
    cbn [snd] in Hc.
    destruct (apply G v2 t2 wa) as [[] wab]. destruct (apply G v1 t1 wb) as [[] wba].
    cbn [snd] in Hc. subst wba. reflexivity.
  - rewrite IH1 by exact Hnd. apply IH2.
    rewrite <- Hp1. exact Hnd.
Qed.

Lemma scatter_phase_permutation (vs1 vs2 : list vertex_id_type) (w : world) :
  vs1 ≡ₚ vs2 →
  effect (scatter_phase vs1) w = effect (scatter_phase vs2) w.
Proof.
  intros Hp.
  destruct (scatter_phase_spec vs1 w) as (Hg1 & Hp1 & Hs1).
  destruct (scatter_phase_spec vs2 w) as (Hg2 & Hp2 & Hs2).
  apply world_eq; [congruence|congruence|].
  apply set_eq. intros u. rewrite Hs1, Hs2.
  split; (intros [H|(v & Hv & Hrest)]; [left; exact H|right; exists v]);
    (split; [|exact Hrest]); [rewrite <- Hp|rewrite Hp]; exact Hv.
Qed.

(** X17.  Within a phase the order in which the engine takes the
    vertices does not matter: the apply phase on the same sums, each
    vertex once, and the scatter phase on the same vertices leave the same
    state in every order, since [apply] writes the state of its own vertex
    only and [scatter] only adds to the set of signals. *)
Theorem phase_order_is_irrelevant (G : globals) (w : world)
    (totals1 totals2 : list (vertex_id_type * float))
    (vs1 vs2 : list vertex_id_type) :
  NoDup totals1.*1 → totals1 ≡ₚ totals2 → vs1 ≡ₚ vs2 →
  effect (apply_phase G totals1) w = effect (apply_phase G totals2) w
  ∧ effect (scatter_phase vs1) w = effect (scatter_phase vs2) w.
Proof.
  intros Hnd Hp Hvs. split.
  - apply apply_phase_permutation; assumption.
  - apply scatter_phase_permutation. exact Hvs.
Qed.

Lemma phase_order_is_irrelevant_witness :
  let s := double_to_float (double_literal 85 100) in
  effect (apply_phase initial_globals [(0%nat, s); (1%nat, pzero)]) cycle3_world
  = effect (apply_phase initial_globals [(1%nat, pzero); (0%nat, s)]) cycle3_world
  ∧ effect (scatter_phase [0%nat; 1%nat]) cycle3_world
    = effect (scatter_phase [1%nat; 0%nat]) cycle3_world.
Proof.
  intros s.
  apply (phase_order_is_irrelevant initial_globals cycle3_world
           [(0%nat, s); (1%nat, pzero)] [(1%nat, pzero); (0%nat, s)]
           [0%nat; 1%nat] [1%nat; 0%nat]).
  - apply (bool_decide_unpack _). vm_compute. exact I.
  - apply perm_swap.
  - apply perm_swap.
Defined.
